(** * Veridion logo tools: candidate scorer and perceptual-hash clustering

    A shallow embedding of [4-cluster-logos.py] (union-find clustering of
    perceptual hashes) and [tools/extract-logo.py] (HTML logo-candidate
    scorer), followed by the properties of both programs.

    Conventions of the embedding:
    - a Python [dict] whose iteration order is observable is an association
      list in insertion order with distinct keys; a dict that is only looked
      up and updated ([parent], [rank]) is a [gmap];
    - a raised exception ([KeyError], exhausted recursion) is [None];
    - Python [str] values are [string]s; [<] and [sorted] on them are the
      lexicographic order [String.le]. *)

From Stdlib Require Import ZArith Lia.
From stdpp Require Import base option list gmap strings sorting relations pretty.

Local Open Scope Z_scope.
Set Warnings "-clear-no-such-hyp,-register-all".

(** ** Python building blocks *)

(** [for x in xs: st = body(st, x)], where the body may raise. *)
Fixpoint for_each {A S : Type} (xs : list A) (st : S) (body : S → A → option S)
  : option S :=
  match xs with
  | [] => Some st
  | x :: xs => st' ← body st x; for_each xs st' body
  end.

(** [enumerate(xs, start)]. *)
Fixpoint enumerate {A : Type} (start : nat) (xs : list A) : list (nat * A) :=
  match xs with
  | [] => []
  | x :: xs => (start, x) :: enumerate (S start) xs
  end.

(** Insertion-ordered dictionaries: [d[k]], [k in d], [d[k] = v]. *)
Fixpoint dict_get {V : Type} (d : list (string * V)) (k : string) : option V :=
  match d with
  | [] => None
  | (k', v) :: d => if decide (k' = k) then Some v else dict_get d k
  end.

Fixpoint dict_set {V : Type} (d : list (string * V)) (k : string) (v : V)
  : list (string * V) :=
  match d with
  | [] => [(k, v)]
  | (k', v') :: d =>
      if decide (k' = k) then (k, v) :: d else (k', v') :: dict_set d k v
  end.

(** [sorted(xs, key=key)]: Python's sort is stable, and a stable sort has
    one possible result, here computed by insertion from the right. *)
Section py_sorted.
Context {A K : Type} (le : K → K → Prop) `{!RelDecision le} (key : A → K).

Fixpoint sorted_insert (x : A) (l : list A) : list A :=
  match l with
  | [] => [x]
  | y :: l' =>
      if decide (le (key x) (key y)) then x :: l else y :: sorted_insert x l'
  end.

Definition py_sorted (l : list A) : list A := foldr sorted_insert [] l.
End py_sorted.

(** ** 4-cluster-logos.py *)

Module Cluster.

Definition HASH_THRESHOLD : Z := 8.

(** The loop of [main] that fills [hashes]; [hash_of] stands for
    [load_image] followed by [compute_hash] ([None]: the image did not load). *)
Definition hashes_of_entries {H : Type} (hash_of : string → option H)
    (entries : list (string * string)) : list (string * H) :=
  foldl (λ hashes '(domain, file_path),
           match hash_of file_path with
           | Some h => dict_set hashes domain h
           | None => hashes
           end) [] entries.

(** [find_cluster]: the recursion follows parent links, so it is bounded by
    [fuel]; [None] is a [KeyError] or exhausted fuel. The returned map is
    [parent] after path compression. *)
Fixpoint find_cluster (fuel : nat) (parent : gmap string string) (x : string)
  : option (gmap string string * string) :=
  match fuel with
  | O => None
  | S fuel =>
      px ← parent !! x;
      if decide (px ≠ x) then
        '(parent, r) ← find_cluster fuel parent px;
        let parent := <[x := r]> parent in
        r' ← parent !! x;
        Some (parent, r')
      else Some (parent, px)
  end.

Definition union_clusters (fuel : nat) (parent : gmap string string)
    (rank : gmap string Z) (x y : string)
  : option (gmap string string * gmap string Z) :=
  '(parent, root_x) ← find_cluster fuel parent x;
  '(parent, root_y) ← find_cluster fuel parent y;
  if decide (root_x ≠ root_y) then
    rx ← rank !! root_x;
    ry ← rank !! root_y;
    if decide (rx < ry) then Some (<[root_x := root_y]> parent, rank)
    else if decide (rx > ry) then Some (<[root_y := root_x]> parent, rank)
    else Some (<[root_y := root_x]> parent, <[root_x := rx + 1]> rank)
  else Some (parent, rank).

(** [clusters[root].append(domain)] on a [defaultdict(list)]. *)
Fixpoint clusters_append (clusters : list (string * list string))
    (root domain : string) : list (string * list string) :=
  match clusters with
  | [] => [(root, [domain])]
  | (k, v) :: clusters =>
      if decide (k = root) then (k, v ++ [domain]) :: clusters
      else (k, v) :: clusters_append clusters root domain
  end.

(** The report file: the clusters as written (members sorted) and the
    singletons as written. *)
Record report := Report {
  total_logos : nat;
  report_clusters : list (list string);
  report_singletons : list string;
}.

Section main.
Context {ImageHash : Type}.
(** [hashes[d1] - hashes[d2]]: the Hamming distance of [imagehash]. *)
Variable hash_sub : ImageHash → ImageHash → Z.

Definition initial_parent (domains : list string) : gmap string string :=
  list_to_map ((λ d, (d, d)) <$> domains).

Definition initial_rank (domains : list string) : gmap string Z :=
  list_to_map ((λ d, (d, 0)) <$> domains).

(** Lines 56-60: the pairwise comparison. *)
Definition compare_pair (fuel : nat) (hashes : list (string * ImageHash))
    (d1 : string) (st : gmap string string * gmap string Z) (d2 : string)
  : option (gmap string string * gmap string Z) :=
  h1 ← dict_get hashes d1;
  h2 ← dict_get hashes d2;
  let distance := hash_sub h1 h2 in
  if decide (distance ≤ HASH_THRESHOLD)
  then union_clusters fuel st.1 st.2 d1 d2
  else Some st.

Definition union_pass (fuel : nat) (hashes : list (string * ImageHash))
    (domains : list string)
  : option (gmap string string * gmap string Z) :=
  for_each (enumerate 0 domains) (initial_parent domains, initial_rank domains)
    (λ st '(i, d1),
       for_each (drop (i + 1) domains) st (compare_pair fuel hashes d1)).

(** Lines 62-65: grouping by root. *)
Definition group_pass (fuel : nat) (parent : gmap string string)
    (domains : list string)
  : option (gmap string string * list (string * list string)) :=
  for_each domains (parent, [])
    (λ '(parent, clusters) domain,
       '(parent, root) ← find_cluster fuel parent domain;
       Some (parent, clusters_append clusters root domain)).

Definition multi_clusters (clusters : list (string * list string))
  : list (string * list string) :=
  filter (λ kv, (1 < length kv.2)%nat) clusters.

Definition singletons (clusters : list (string * list string)) : list string :=
  fst <$> filter (λ kv, length kv.2 = 1%nat) clusters.

(** Line 80: [sorted(multi_clusters.items(), key=lambda x: -len(x[1]))]. *)
Definition sorted_clusters (multi : list (string * list string))
  : list (string * list string) :=
  py_sorted Z.le (λ x, - Z.of_nat (length x.2)) multi.

(** Lines 52-90. Union-by-rank keeps every parent chain shorter than the
    number of domains, so that many steps of fuel are given to the finds
    ([cluster_total] shows they suffice). *)
Definition cluster (hashes : list (string * ImageHash)) : option report :=
  let domains := hashes.*1 in
  let fuel := S (length domains) in
  '(parent, rank) ← union_pass fuel hashes domains;
  '(parent, clusters) ← group_pass fuel parent domains;
  let multi := multi_clusters clusters in
  let single := singletons clusters in
  Some {| total_logos := length hashes;
          report_clusters :=
            (λ kv, py_sorted String.le id kv.2) <$> sorted_clusters multi;
          report_singletons := py_sorted String.le id single |}.

End main.

(** The text written to [cluster_report.txt]. *)
Definition nl : string := String (Ascii.ascii_of_nat 10) "".

Definition pretty_nat (n : nat) : string := pretty n.

Definition domain_line (domain : string) : string :=
  "  " +:+ domain +:+ nl.

Definition cluster_section (i : nat) (members : list string) : string :=
  "=== Cluster " +:+ pretty_nat i +:+ " (" +:+ pretty_nat (length members)
    +:+ " logos) ===" +:+ nl
    +:+ String.concat "" (domain_line <$> members) +:+ nl.

Definition render (r : report) : string :=
  "# Logo Clustering Report (Perceptual Hash)" +:+ nl
  +:+ "# Threshold: Hamming distance <= " +:+ pretty HASH_THRESHOLD
  +:+ nl
  +:+ "# Total logos: " +:+ pretty_nat (total_logos r) +:+ nl
  +:+ "# Clusters (2+ logos): " +:+ pretty_nat (length (report_clusters r))
  +:+ nl
  +:+ "# Singletons: " +:+ pretty_nat (length (report_singletons r))
  +:+ nl +:+ nl
  +:+ String.concat ""
        ((λ '(i, members), cluster_section i members)
           <$> enumerate 1 (report_clusters r))
  +:+ "=== Singletons ===" +:+ nl
  +:+ String.concat "" (domain_line <$> report_singletons r).

(** A 64-bit perceptual hash as an integer; [-] counts the differing bits. *)
Definition phash_sub (a b : Z) : Z :=
  Z.of_nat (length (filter (λ i, Z.testbit (Z.lxor a b) (Z.of_nat i) = true)
                           (seq 0 64))).

(** A distance read off a table, for scenarios that are stated by their
    pairwise distances: hashes 0, 1, 2 stand for A, B, C at distances
    A-B = 5, B-C = 6, A-C = 15. (No three bit vectors have these Hamming
    distances, since 15 > 5 + 6.) *)
Definition table_sub (h1 h2 : nat) : Z :=
  if decide (h1 = h2) then 0
  else match (h1 `min` h2)%nat, (h1 `max` h2)%nat with
       | 0%nat, 1%nat => 5
       | 1%nat, 2%nat => 6
       | 0%nat, 2%nat => 15
       | _, _ => 64
       end.

Definition abc_by_table : list (string * nat) :=
  [("a.com", 0%nat); ("b.com", 1%nat); ("c.com", 2%nat)].

(** Sample runs on 64-bit hashes. [0], [31] and [2047] are at distances
    5, 6 and 11; [2^60 - 1] is far from all three. *)
Definition sample_hashes : list (string * Z) :=
  [("a.com", 0); ("b.com", 31); ("c.com", 2047);
   ("d.com", 1152921504606846975)].

(** Two pairs of near-identical logos, far from each other, in two
    iteration orders of the same mapping. *)
Definition pairs_ab_first : list (string * Z) :=
  [("a.com", 0); ("b.com", 1); ("c.com", 4294967295); ("d.com", 4294967294)].

Definition pairs_cd_first : list (string * Z) :=
  [("c.com", 4294967295); ("d.com", 4294967294); ("a.com", 0); ("b.com", 1)].

End Cluster.

(** ** tools/extract-logo.py *)

(** Strings are byte strings; [lower], [strip] and the case-insensitive
    searches act on ASCII letters and ASCII white space. *)
Module Str.

Definition lower_char (c : Ascii.ascii) : Ascii.ascii :=
  let n := Ascii.nat_of_ascii c in
  if bool_decide (65 ≤ n ≤ 90)%nat then Ascii.ascii_of_nat (n + 32) else c.

(** [s.lower()] *)
Fixpoint lower (s : string) : string :=
  match s with
  | EmptyString => EmptyString
  | String c s => String (lower_char c) (lower s)
  end.

(** [s.startswith(p)] *)
Definition startswith (p s : string) : bool := String.prefix p s.

(** [needle in hay] *)
Fixpoint contains (needle hay : string) : bool :=
  String.prefix needle hay ||
  match hay with
  | EmptyString => false
  | String _ hay' => contains needle hay'
  end.

Definition is_space (c : Ascii.ascii) : bool :=
  let n := Ascii.nat_of_ascii c in
  bool_decide (9 ≤ n ≤ 13 ∨ 28 ≤ n ≤ 32)%nat.

Fixpoint lstrip (s : string) : string :=
  match s with
  | EmptyString => EmptyString
  | String c s' => if is_space c then lstrip s' else s
  end.

(** [s.strip()] *)
Definition strip (s : string) : string :=
  String.rev (lstrip (String.rev (lstrip s))).

(** [sep.join(parts)] *)
Definition join (sep : string) (parts : list string) : string :=
  String.concat sep parts.

(** [s.split(sep)[0]] for a one-character separator. *)
Fixpoint before_char (sep : Ascii.ascii) (s : string) : string :=
  match s with
  | EmptyString => EmptyString
  | String c s' => if decide (c = sep) then EmptyString
                   else String c (before_char sep s')
  end.

Definition dot : Ascii.ascii := Ascii.ascii_of_nat 46.

(** [s[n:]] *)
Fixpoint drop (n : nat) (s : string) : string :=
  match n, s with
  | O, _ => s
  | S n, String _ s' => drop n s'
  | S _, EmptyString => EmptyString
  end.

(** [re.compile("k1|k2|...", re.I).search(s)] for literal keywords. *)
Definition search_any (keywords : list string) (s : string) : bool :=
  existsb (λ k, contains k (lower s)) keywords.

End Str.

Module Scorer.

(** *** The parsed page

    BeautifulSoup's tree: an attribute value is a string or, for
    multi-valued attributes such as [class] and [rel], a list of strings. *)
Inductive attr_value :=
  | AttrStr (s : string)
  | AttrList (l : list string).

Inductive node :=
  | Text (s : string)
  | Tag (name : string) (attrs : list (string * attr_value))
        (contents : list node).

(** A tag met on the way up from an element ([element.parents]). *)
Record ancestor := Ancestor {
  anc_name : string;
  anc_attrs : list (string * attr_value);
}.

(** A tag of the page together with its ancestors, nearest first. *)
Record element := Element {
  el_name : string;
  el_attrs : list (string * attr_value);
  el_contents : list node;
  el_parents : list ancestor;
}.

(** The [BeautifulSoup] object, the last of every element's parents. *)
Definition document : ancestor := Ancestor "[document]" [].

(** The tags below a node in document order, as [find_all] visits them. *)
Fixpoint elements_of (parents : list ancestor) (n : node) : list element :=
  match n with
  | Text _ => []
  | Tag name attrs contents =>
      Element name attrs contents parents ::
      (fix go (l : list node) : list element :=
         match l with
         | [] => []
         | c :: l => elements_of (Ancestor name attrs :: parents) c ++ go l
         end) contents
  end.

Definition soup_elements (soup : list node) : list element :=
  flat_map (elements_of [document]) soup.

(** [tag.string]: the single string below a tag, if there is exactly one. *)
Fixpoint node_string (n : node) : option string :=
  match n with
  | Text s => Some s
  | Tag _ _ [c] => node_string c
  | Tag _ _ _ => None
  end.

Definition tag_string (contents : list node) : option string :=
  match contents with
  | [c] => node_string c
  | _ => None
  end.

(** [tag.get(attr)] *)
Definition get (attrs : list (string * attr_value)) (attr : string)
  : option attr_value := dict_get attrs attr.

(** An attribute filter of [find_all] given as a function on strings: it is
    tried on the value, or on each item of a multi-valued attribute and on
    the items joined by spaces; a missing attribute is passed as [None],
    which both filters of the program reject. *)
Definition attr_matches (f : string → bool) (v : option attr_value) : bool :=
  match v with
  | None => false
  | Some (AttrStr s) => f s
  | Some (AttrList l) => existsb f l || f (Str.join " " l)
  end.

(** [soup.find_all(name)] and [soup.find_all(name, attr=filter)]. *)
Definition find_all (soup : list node) (name : string) : list element :=
  filter (λ e, el_name e = name) (soup_elements soup).

Definition find_all_attr (soup : list node) (name attr : string)
    (f : string → bool) : list element :=
  filter (λ e, el_name e = name ∧ attr_matches f (get (el_attrs e) attr) = true)
         (soup_elements soup).

(** *** Structured data *)

(** A decoded JSON value. Of a number only its truth value is observed. *)
Inductive json :=
  | JNull
  | JBool (b : bool)
  | JNum (nonzero : bool)
  | JStr (s : string)
  | JArr (items : list json)
  | JObj (fields : list (string * json)).

(** [bool(v)] *)
Definition truthy (v : json) : bool :=
  match v with
  | JNull => false
  | JBool b => b
  | JNum nonzero => nonzero
  | JStr s => negb (bool_decide (s = ""))
  | JArr items => negb (bool_decide (items = []))
  | JObj fields => negb (bool_decide (fields.*1 = []))
  end.

Definition organization_types : list string :=
  ["Organization"; "Brand"; "Corporation"].

Definition logo_of (fields : list (string * json)) : list json :=
  match dict_get fields "@type" with
  | Some (JStr t) =>
      if decide (t ∈ organization_types) then
        match dict_get fields "logo" with
        | Some (JStr s) => [JStr s]
        | Some (JObj logo_val) =>
            match dict_get logo_val "url" with
            | Some u => [u]
            | None => []
            end
        | _ => []
        end
      else []
  | _ => []
  end.

Fixpoint find_logo (obj : json) : list json :=
  match obj with
  | JObj fields =>
      logo_of fields ++
      (fix values (l : list (string * json)) : list json :=
         match l with
         | [] => []
         | (_, v) :: l => find_logo v ++ values l
         end) fields
  | JArr items =>
      (fix each (l : list json) : list json :=
         match l with
         | [] => []
         | item :: l => find_logo item ++ each l
         end) items
  | _ => []
  end.

(** *** Candidates *)

(** [reasons] is a Python set, kept as the duplicate-free list of its
    insertions. *)
Record candidate := Candidate {
  score : Z;
  reasons : list string;
}.

(** [s.add(x)] *)
Definition set_add (s : list string) (x : string) : list string :=
  if decide (x ∈ s) then s else s ++ [x].

(** [urlparse(url)], of which the program reads three fields. *)
Record parsed := Parsed {
  scheme : string;
  netloc : string;
  path : string;
}.

Record result := Result {
  rank : nat;
  result_score : Z;
  result_url : string;
  signals : list string;
}.

Section scorer.
(** [urllib.parse] and [json]: [None] stands for a raised exception. *)
Variable urljoin : string → string → option string.
Variable urlparse : string → option parsed.
Variable json_loads : string → option json.

Definition normalize_url (base url : string) : option string :=
  if decide (url = "") then None
  else
    let url := Str.strip url in
    match urljoin base url with
    | Some full_url =>
        if Str.startswith "http://" (Str.lower full_url)
           || Str.startswith "https://" (Str.lower full_url)
        then Some full_url
        else None
    | None => None
    end.

Definition extract_domain_stem (url : string) : string :=
  match urlparse url with
  | Some p =>
      let netloc := netloc p in
      let netloc :=
        if Str.startswith "www." netloc then Str.drop 4 netloc else netloc in
      Str.lower (Str.before_char Str.dot netloc)
  | None => ""
  end.

(** [None]: one of the two [urlparse] calls raised. *)
Definition is_home_link (base_url href : string) : option bool :=
  if decide (href = "") then Some false
  else
    match normalize_url base_url href with
    | None => Some false
    | Some abs_href =>
        base_parsed ← urlparse base_url;
        href_parsed ← urlparse abs_href;
        Some (bool_decide (netloc base_parsed = netloc href_parsed)
              && bool_decide (path href_parsed
                              ∈ [""; "/"; "/index.html"; "/index.php"]))
    end.

Definition get_str_attr (attrs : list (string * attr_value)) (attr : string)
  : option string :=
  match get attrs attr with
  | Some (AttrStr s) => Some s
  | Some (AttrList (x :: _)) => Some x
  | _ => None
  end.

(** The closure [update_candidate], with [candidates] passed explicitly. *)
Definition update_candidate (base_url : string)
    (candidates : list (string * candidate))
    (url : string) (new_score : Z) (reason : string)
  : list (string * candidate) :=
  match normalize_url base_url url with
  | None => candidates
  | Some norm_url =>
      let old := default (Candidate 0 []) (dict_get candidates norm_url) in
      dict_set candidates norm_url
        (Candidate (if decide (new_score > score old) then new_score
                    else score old)
                   (set_add (reasons old) reason))
  end.

(** [update_candidate(logo_url, 60, ...)] on a decoded value: a string is
    upserted, a falsy value is ignored by [if not url], and any other value
    raises at [url.strip()]. *)
Definition update_logo (base_url : string)
    (candidates : list (string * candidate)) (logo_url : json)
  : option (list (string * candidate)) :=
  match logo_url with
  | JStr s => Some (update_candidate base_url candidates s 60
                      "Schema.org Organization")
  | v => if truthy v then None else Some candidates
  end.

(** The loop over [logos]; an exception leaves the loop, and what was
    upserted before it stays. *)
Fixpoint update_logos (base_url : string)
    (candidates : list (string * candidate)) (logos : list json)
  : list (string * candidate) :=
  match logos with
  | [] => candidates
  | logo_url :: logos =>
      match update_logo base_url candidates logo_url with
      | Some candidates => update_logos base_url candidates logos
      | None => candidates
      end
  end.

(** Lines 119-150: one iteration of the loop over the JSON-LD scripts. *)
Definition scan_script (base_url : string)
    (candidates : list (string * candidate)) (script : element)
  : list (string * candidate) :=
  match tag_string (el_contents script) with
  | None => candidates
  | Some text =>
      if decide (text = "") then candidates
      else
        match json_loads text with
        | Some data => update_logos base_url candidates (find_logo data)
        | None => candidates
        end
  end.

Definition scan_scripts (base_url : string) (scripts : list element)
    (candidates : list (string * candidate)) : list (string * candidate) :=
  foldl (scan_script base_url) candidates scripts.

(** Lines 152-159. *)
Definition rel_is_icon (x : string) : bool :=
  Str.contains "icon" (Str.lower x)
  || Str.contains "apple-touch-icon" (Str.lower x).

Definition scan_link (base_url : string)
    (candidates : list (string * candidate)) (link : element)
  : list (string * candidate) :=
  match get_str_attr (el_attrs link) "href" with
  | Some href =>
      if decide (href = "") then candidates
      else update_candidate base_url candidates href 10 "Favicon/Touch Icon"
  | None => candidates
  end.

Definition scan_links (base_url : string) (soup : list node)
    (candidates : list (string * candidate)) : list (string * candidate) :=
  foldl (scan_link base_url) candidates
        (find_all_attr soup "link" "rel" rel_is_icon).

(** Lines 161-165. *)
Definition scan_og_image (base_url : string) (soup : list node)
    (candidates : list (string * candidate)) : list (string * candidate) :=
  match find_all_attr soup "meta" "property"
          (λ v, bool_decide (v = "og:image")) with
  | og_image :: _ =>
      match get_str_attr (el_attrs og_image) "content" with
      | Some content =>
          if decide (content = "") then candidates
          else update_candidate base_url candidates content 5 "OpenGraph Image"
      | None => candidates
      end
  | [] => candidates
  end.

(** Lines 172-256. *)
Definition positive_keywords : list string := ["logo"; "brand"; "identity"].
Definition negative_keywords : list string :=
  ["partner"; "client"; "sponsor"; "payment"; "manufacturer"].

(** [class] and [id] of one parent, as appended to [parent_classes]. *)
Definition parent_class_items (p : ancestor) : list string :=
  match get (anc_attrs p) "class" with
  | Some (AttrList l) => l
  | Some (AttrStr s) => [s]
  | None => []
  end ++
  match get (anc_attrs p) "id" with
  | Some (AttrStr s) => [s]
  | Some (AttrList l) => l
  | None => []
  end.

(** [img.get(attr, "")] with a list joined by spaces. *)
Definition joined_attr (attrs : list (string * attr_value)) (attr : string)
  : string :=
  match get attrs attr with
  | Some (AttrList l) => Str.join " " l
  | Some (AttrStr s) => s
  | None => ""
  end.

(** The score and the reasons of one image; [None]: [is_home_link] raised.
    The [elif] of lines 207-212 only evaluates calls that catch their own
    exceptions and then does nothing, so it is left out. *)
Definition score_image (base_url domain_stem : string) (img : element)
    (src : string) : option (Z * list string) :=
  let score : Z := 0 in
  let reasons : list string := [] in
  let parents := el_parents img in
  let parent_names := anc_name <$> parents in
  let parent_classes := flat_map parent_class_items parents in
  let parent_class_str := Str.join " " parent_classes in
  let anchors := filter (λ p, anc_name p = "a") parents in
  home ← match anchors with
         | a :: _ =>
             match get (anc_attrs a) "href" with
             | Some (AttrStr href_val) => is_home_link base_url href_val
             | _ => Some false
             end
         | [] => Some false
         end;
  let '(score, reasons) :=
    if (home : bool) then (score + 50, reasons ++ ["Linked to Home"])
    else (score, reasons) in
  let '(score, reasons) :=
    if bool_decide ("header" ∈ parent_names)
       || Str.contains "header" (Str.lower parent_class_str)
    then (score + 10, reasons ++ ["In Header"])
    else if bool_decide ("footer" ∈ parent_names)
            || Str.contains "footer" (Str.lower parent_class_str)
    then (score - 30, reasons ++ ["In Footer"])
    else (score, reasons) in
  let alt_val := joined_attr (el_attrs img) "alt" in
  let img_class_val := joined_attr (el_attrs img) "class" in
  let img_id_val := joined_attr (el_attrs img) "id" in
  let img_attrs :=
    img_class_val +:+ " " +:+ img_id_val +:+ " " +:+ alt_val +:+ " " +:+ src in
  let '(score, reasons) :=
    if Str.search_any positive_keywords img_attrs
    then (score + 20, reasons ++ ["Keyword Match (logo/brand)"])
    else (score, reasons) in
  let '(score, reasons) :=
    if negb (bool_decide (domain_stem = ""))
       && Str.contains domain_stem (Str.lower src)
    then (score + 20,
          reasons ++ ["Filename matches domain '" +:+ domain_stem +:+ "'"])
    else (score, reasons) in
  let alt := Str.lower alt_val in
  let '(score, reasons) :=
    if Str.contains "logo" alt
    then (score + 10, reasons ++ ["Alt text contains 'logo'"])
    else (score, reasons) in
  let '(score, reasons) :=
    if Str.search_any negative_keywords img_attrs
       || Str.search_any negative_keywords parent_class_str
    then (score - 50, reasons ++ ["Negative Keyword (partner/client)"])
    else (score, reasons) in
  Some (score, reasons).

Definition scan_image (base_url domain_stem : string)
    (candidates : list (string * candidate)) (img : element)
  : option (list (string * candidate)) :=
  match get (el_attrs img) "src" with
  | Some (AttrStr src) =>
      if decide (src = "") then Some candidates
      else
        '(score, reasons) ← score_image base_url domain_stem img src;
        Some (update_candidate base_url candidates src score
                (Str.join ", " reasons))
  | _ => Some candidates
  end.

Definition scan_images (base_url : string) (soup : list node)
    (candidates : list (string * candidate))
  : option (list (string * candidate)) :=
  for_each (find_all soup "img") candidates
           (scan_image base_url (extract_domain_stem base_url)).

(** [analyze_html] once the scripts to scan are known. *)
Definition analyze_scripts (scripts : list element) (soup : list node)
    (base_url : string) : option (list (string * candidate)) :=
  scan_images base_url soup
    (scan_og_image base_url soup
       (scan_links base_url soup
          (scan_scripts base_url scripts []))).

Definition ld_json_scripts (soup : list node) : list element :=
  find_all_attr soup "script" "type"
    (λ v, bool_decide (v = "application/ld+json")).

(** [soup] is the tree that [BeautifulSoup(html_content, "html.parser")]
    builds. *)
Definition analyze_html (soup : list node) (base_url : string)
  : option (list (string * candidate)) :=
  analyze_scripts (ld_json_scripts soup) soup base_url.

(** [main]: [url] is the command-line argument, [soup] the parsed standard
    input, the value is the list handed to [json.dumps]. [set_order s] is
    the order in which [list(s)] enumerates the set [s]. *)
Definition main (set_order : list string → list string)
    (url : string) (soup : list node) : option (list result) :=
  let base_url := Str.strip url in
  p ← urlparse base_url;
  let base_url :=
    if decide (scheme p = "") then "https://" +:+ base_url else base_url in
  candidates ← analyze_html soup base_url;
  let ranked := py_sorted (flip Z.le) (λ x, score x.2) candidates in
  Some ((λ '(i, (url, data)),
           Result (i + 1) (score data) url (set_order (reasons data)))
          <$> enumerate 0 ranked).

End scorer.

End Scorer.

(** A model of [urllib.parse] for the sample runs. It follows CPython's
    [urlsplit], [urlparse], [urlunparse] and [urljoin] on ASCII URLs; a
    network location with brackets or a non-ASCII byte, which CPython
    validates further, is reported as a raised exception. *)
Module Urllib.

Definition code (c : Ascii.ascii) : nat := Ascii.nat_of_ascii c.
Definition chr (n : nat) : Ascii.ascii := Ascii.ascii_of_nat n.

Definition is_alpha (c : Ascii.ascii) : bool :=
  bool_decide (65 ≤ code c ≤ 90 ∨ 97 ≤ code c ≤ 122)%nat.

(** [scheme_chars] *)
Definition is_scheme_char (c : Ascii.ascii) : bool :=
  is_alpha c || bool_decide (48 ≤ code c ≤ 57)%nat
  || bool_decide (code c = 43 ∨ code c = 45 ∨ code c = 46)%nat.

Fixpoint forall_chars (p : Ascii.ascii → bool) (s : string) : bool :=
  match s with
  | EmptyString => true
  | String c s => p c && forall_chars p s
  end.

Fixpoint filter_chars (p : Ascii.ascii → bool) (s : string) : string :=
  match s with
  | EmptyString => EmptyString
  | String c s => if p c then String c (filter_chars p s) else filter_chars p s
  end.

(** The part of [s] before the first character satisfying [p], and the
    rest from that character on. *)
Fixpoint span (p : Ascii.ascii → bool) (s : string) : string * string :=
  match s with
  | EmptyString => (EmptyString, EmptyString)
  | String c s' =>
      if p c then (EmptyString, s)
      else let '(l, r) := span p s' in (String c l, r)
  end.

(** [s.split(c, 1)] when [c] occurs in [s]. *)
Definition partition (c : nat) (s : string) : option (string * string) :=
  match span (λ a, bool_decide (code a = c)) s with
  | (l, String _ r) => Some (l, r)
  | (_, EmptyString) => None
  end.

(** [s.split(c)] *)
Fixpoint split_on (c : nat) (s : string) : list string :=
  match s with
  | EmptyString => [EmptyString]
  | String a s' =>
      let r := split_on c s' in
      if bool_decide (code a = c) then EmptyString :: r
      else match r with
           | h :: t => String a h :: t
           | [] => [String a EmptyString]
           end
  end.

Fixpoint lstrip_c0 (s : string) : string :=
  match s with
  | EmptyString => EmptyString
  | String c s' => if bool_decide (code c ≤ 32)%nat then lstrip_c0 s' else s
  end.

Definition uses_relative : list string :=
  [""; "ftp"; "http"; "gopher"; "nntp"; "imap"; "wais"; "file"; "https";
   "shttp"; "mms"; "prospero"; "rtsp"; "rtspu"; "sftp"; "svn"; "svn+ssh";
   "ws"; "wss"].

Definition uses_netloc : list string :=
  [""; "ftp"; "http"; "gopher"; "nntp"; "telnet"; "imap"; "wais"; "file";
   "mms"; "https"; "shttp"; "snews"; "prospero"; "rtsp"; "rtspu"; "rsync";
   "svn"; "svn+ssh"; "sftp"; "nfs"; "git"; "git+ssh"; "ws"; "wss"].

Definition uses_params : list string :=
  [""; "ftp"; "hdl"; "prospero"; "http"; "imap"; "https"; "shttp"; "rtsp";
   "rtspu"; "sip"; "sips"; "mms"; "sftp"; "tel"].

(** The six components of [urlparse]. *)
Record parse_result := ParseResult {
  p_scheme : string;
  p_netloc : string;
  p_path : string;
  p_params : string;
  p_query : string;
  p_fragment : string;
}.

(** [_splitparams] *)
Definition splitparams (url : string) : string * string :=
  let segments := split_on 47 url in
  match partition 59 (List.last segments "") with
  | Some (seg, params) =>
      (Str.join "/" (removelast segments ++ [seg]), params)
  | None => (url, "")
  end.

Definition urlparse_with (url default_scheme : string) : option parse_result :=
  let url :=
    filter_chars (λ c, negb (bool_decide (code c = 9 ∨ code c = 13
                                          ∨ code c = 10)%nat))
                 (lstrip_c0 url) in
  let '(scheme, url) :=
    match partition 58 url with
    | Some (String c pre, rest) =>
        if is_alpha c && forall_chars is_scheme_char (String c pre)
        then (Str.lower (String c pre), rest)
        else (default_scheme, url)
    | _ => (default_scheme, url)
    end in
  let '(netloc, url) :=
    if Str.startswith "//" url
    then span (λ c, bool_decide (code c = 47 ∨ code c = 63 ∨ code c = 35)%nat)
              (Str.drop 2 url)
    else ("", url) in
  if forall_chars (λ c, bool_decide (code c < 128 ∧ code c ≠ 91
                                      ∧ code c ≠ 93)%nat) netloc
  then
    let '(url, fragment) := default (url, "") (partition 35 url) in
    let '(url, query) := default (url, "") (partition 63 url) in
    let '(url, params) :=
      if bool_decide (scheme ∈ uses_params) then splitparams url
      else (url, "") in
    Some (ParseResult scheme netloc url params query fragment)
  else None.

Definition urlunparse (p : parse_result) : string :=
  let url := p_path p in
  let url := if bool_decide (p_params p = "") then url
             else url +:+ ";" +:+ p_params p in
  let url :=
    if negb (bool_decide (p_netloc p = ""))
       || (negb (bool_decide (p_scheme p = ""))
           && bool_decide (p_scheme p ∈ uses_netloc)
           && negb (Str.startswith "//" url))
    then "//" +:+ p_netloc p
         +:+ (if negb (bool_decide (url = "")) && negb (Str.startswith "/" url)
              then "/" +:+ url else url)
    else url in
  let url := if bool_decide (p_scheme p = "") then url
             else p_scheme p +:+ ":" +:+ url in
  let url := if bool_decide (p_query p = "") then url
             else url +:+ "?" +:+ p_query p in
  if bool_decide (p_fragment p = "") then url
  else url +:+ "#" +:+ p_fragment p.

(** [segments[1:-1] = filter(None, segments[1:-1])] *)
Definition drop_empty_middle (segments : list string) : list string :=
  match segments with
  | first :: (_ :: _) as rest =>
      first :: filter (λ s, s ≠ "") (removelast rest) ++ [List.last rest ""]
  | _ => segments
  end.

(** The loop that resolves [.] and [..] segments. *)
Definition resolve (segments : list string) : list string :=
  foldl (λ resolved_path seg,
           if bool_decide (seg = "..") then removelast resolved_path
           else if bool_decide (seg = ".") then resolved_path
           else resolved_path ++ [seg])
        [] segments.

Definition urljoin (base url : string) : option string :=
  if bool_decide (base = "") then Some url
  else if bool_decide (url = "") then Some base
  else
    b ← urlparse_with base "";
    u ← urlparse_with url (p_scheme b);
    if negb (bool_decide (p_scheme u = p_scheme b))
       || negb (bool_decide (p_scheme u ∈ uses_relative))
    then Some url
    else if bool_decide (p_scheme u ∈ uses_netloc)
            && negb (bool_decide (p_netloc u = ""))
    then Some (urlunparse u)
    else
      let netloc := if bool_decide (p_scheme u ∈ uses_netloc)
                    then p_netloc b else p_netloc u in
      if bool_decide (p_path u = "") && bool_decide (p_params u = "")
      then Some (urlunparse
                   (ParseResult (p_scheme u) netloc (p_path b) (p_params b)
                      (if bool_decide (p_query u = "") then p_query b
                       else p_query u)
                      (p_fragment u)))
      else
        let base_parts := split_on 47 (p_path b) in
        let base_parts :=
          if bool_decide (List.last base_parts "" = "") then base_parts
          else removelast base_parts in
        let segments :=
          if Str.startswith "/" (p_path u) then split_on 47 (p_path u)
          else drop_empty_middle (base_parts ++ split_on 47 (p_path u)) in
        let resolved_path := resolve segments in
        let resolved_path :=
          if bool_decide (List.last segments "" ∈ ["."; ".."])
          then resolved_path ++ [""] else resolved_path in
        let joined := Str.join "/" resolved_path in
        Some (urlunparse
                (ParseResult (p_scheme u) netloc
                   (if bool_decide (joined = "") then "/" else joined)
                   (p_params u) (p_query u) (p_fragment u))).

Definition urlparse (url : string) : option Scorer.parsed :=
  p ← urlparse_with url "";
  Some (Scorer.Parsed (p_scheme p) (p_netloc p) (p_path p)).

End Urllib.

(** *** Sample pages *)

Module Samples.
Import Scorer.

(** A decoder that rejects every text, for pages whose scripts, if any,
    hold no valid JSON. *)
Definition reject_all (text : string) : option json := None.

(** [<a href="/"><img src="/logo.png" alt="Acme logo"></a>] *)
Definition acme_page : list node :=
  [Tag "a" [("href", AttrStr "/")]
     [Tag "img" [("src", AttrStr "/logo.png"); ("alt", AttrStr "Acme logo")]
        []]].

(** [<footer><img src="/x.png"></footer>] *)
Definition footer_page : list node :=
  [Tag "footer" [] [Tag "img" [("src", AttrStr "/x.png")] []]].

(** [<footer><img src="/x.png"><img src="/x.png"></footer>] *)
Definition footer_twice_page : list node :=
  [Tag "footer" []
     [Tag "img" [("src", AttrStr "/x.png")] [];
      Tag "img" [("src", AttrStr "/x.png")] []]].

(** [<link rel="icon" href="/x.png">]
    [<meta property="og:image" content="/x.png">] *)
Definition icon_and_og_page : list node :=
  [Tag "link" [("rel", AttrList ["icon"]); ("href", AttrStr "/x.png")] [];
   Tag "meta" [("property", AttrStr "og:image"); ("content", AttrStr "/x.png")]
     []].

(** [<img src="/pic.png">] *)
Definition plain_image_page : list node :=
  [Tag "img" [("src", AttrStr "/pic.png")] []].

(** [<script type="application/ld+json">{oops</script><img src="/pic.png">] *)
Definition bad_script_page : list node :=
  [Tag "script" [("type", AttrStr "application/ld+json")] [Text "{oops"];
   Tag "img" [("src", AttrStr "/pic.png")] []].

Definition analyze (soup : list node) (base_url : string)
  : option (list (string * candidate)) :=
  analyze_html Urllib.urljoin Urllib.urlparse reject_all soup base_url.

End Samples.

(** ** The manifest, as both programs read it *)

Module Manifest.

(** A row of [csv.DictReader]: the columns of the header with the fields of
    the row; a field that a short row lacks is [None]. *)
Definition row : Type := list (string * option string).

(** The truth value of a field: the field itself unless it is missing or
    empty. *)
Definition filled (v : option string) : option string :=
  match v with
  | Some s => if decide (s = "") then None else Some s
  | None => None
  end.

(** [4-cluster-logos.py], lines 33-38. [None]: a [KeyError], the header
    lacks a column. *)
Definition read_entries (rows : list row) : option (list (string * string)) :=
  for_each rows []
    (λ entries row,
       local_path ← dict_get row "local_path";
       match filled local_path with
       | None => Some entries
       | Some local_path =>
           domain ← dict_get row "domain";
           match filled domain with
           | None => Some entries
           | Some domain => Some (entries ++ [(domain, local_path)])
           end
       end).

(** [5-visualize-clusters.py], lines 79-83. *)
Definition read_domain_to_path (rows : list row)
  : option (list (string * string)) :=
  for_each rows []
    (λ domain_to_path row,
       local_path ← dict_get row "local_path";
       match filled local_path with
       | None => Some domain_to_path
       | Some local_path =>
           domain ← dict_get row "domain";
           match filled domain with
           | None => Some domain_to_path
           | Some domain => Some (dict_set domain_to_path domain local_path)
           end
       end).

End Manifest.

(** ** 5-visualize-clusters.py *)

Module Visualize.

Definition lf : Ascii.ascii := Ascii.ascii_of_nat 10.
Definition cr : Ascii.ascii := Ascii.ascii_of_nat 13.

(** What [open(path)] hands to the program: in text mode a carriage
    return, alone or followed by a line feed, is read as one line feed. *)
Fixpoint universal_newlines (s : string) : string :=
  match s with
  | EmptyString => EmptyString
  | String c s' =>
      if decide (c = cr) then
        match s' with
        | String c' s'' =>
            if decide (c' = lf) then String lf (universal_newlines s'')
            else String lf (universal_newlines s')
        | EmptyString => String lf EmptyString
        end
      else String c (universal_newlines s')
  end.

(** [for line in f]: the lines of the text, each with its line feed; a last
    line without one is a line too, and an empty text has no line. *)
Fixpoint file_lines (s : string) : list string :=
  match s with
  | EmptyString => []
  | String c s' =>
      if decide (c = lf) then String c EmptyString :: file_lines s'
      else match file_lines s' with
           | [] => [String c EmptyString]
           | line :: rest => String c line :: rest
           end
  end.

(** The local variables of [parse_cluster_report]. *)
Record parse_state := ParseState {
  clusters : list (list string);
  singletons : list string;
  current_cluster : list string;
  in_singletons : bool;
}.

(** [if current_cluster: clusters.append(current_cluster)] *)
Definition flushed (st : parse_state) : list (list string) :=
  match current_cluster st with
  | [] => clusters st
  | _ :: _ => clusters st ++ [current_cluster st]
  end.

(** The body of the loop over the lines. *)
Definition parse_line (st : parse_state) (line : string) : parse_state :=
  let line := Str.strip line in
  if Str.startswith "=== Cluster" line then
    ParseState (flushed st) (singletons st) [] (in_singletons st)
  else if decide (line = "=== Singletons ===") then
    ParseState (flushed st) (singletons st) [] true
  else if negb (bool_decide (line = "")) && negb (Str.startswith "#" line) then
    if in_singletons st
    then ParseState (clusters st) (singletons st ++ [line])
           (current_cluster st) (in_singletons st)
    else ParseState (clusters st) (singletons st)
           (current_cluster st ++ [line]) (in_singletons st)
  else st.

(** [parse_cluster_report], on the contents of the file at [path]. *)
Definition parse_cluster_report (text : string)
  : list (list string) * list string :=
  let st := foldl parse_line (ParseState [] [] [] false)
                  (file_lines (universal_newlines text)) in
  (clusters st, singletons st).

End Visualize.

(** * Facts about the Python building blocks *)

Module PyFacts.

Lemma StronglySorted_impl {A} (R1 R2 : relation A) (l : list A) :
  (∀ x y, x ∈ l → y ∈ l → R1 x y → R2 x y) →
  StronglySorted R1 l → StronglySorted R2 l.
Proof.
  intros HR Hl. induction Hl as [|x l Hl IH Hx]; constructor.
  - apply IH. intros y z Hy Hz. apply HR; by right.
  - apply Forall_forall. intros y Hy. apply HR; [left|by right|].
    by eapply Forall_forall in Hx.
Qed.

Lemma StronglySorted_trivial {A} (l : list A) :
  StronglySorted (λ _ _, True) l.
Proof. induction l; constructor; [done|]. by apply Forall_forall. Qed.

Section sorted.
Context {A K : Type} (le : K → K → Prop) `{!RelDecision le}.
Context `{!Total le} `{!Transitive le} (key : A → K).

Lemma sorted_insert_perm x l : sorted_insert le key x l ≡ₚ x :: l.
Proof.
  induction l as [|y l IH]; simpl; [done|].
  case_decide; [done|]. rewrite IH. apply Permutation_swap.
Qed.

Lemma py_sorted_perm l : py_sorted le key l ≡ₚ l.
Proof.
  induction l as [|x l IH]; simpl; [done|].
  by rewrite sorted_insert_perm, IH.
Qed.

(** The order of a stable sort: keys ascend, and two elements whose keys
    tie stand as they stood ([R]) before sorting. *)
Definition stable_le (R : relation A) (x y : A) : Prop :=
  le (key x) (key y) ∧ (le (key y) (key x) → R x y).

Lemma sorted_insert_stable (R : relation A) x l :
  StronglySorted (stable_le R) l → Forall (R x) l →
  StronglySorted (stable_le R) (sorted_insert le key x l).
Proof.
  induction 1 as [|y l Hl IH Hy]; intros HR; simpl.
  - repeat constructor.
  - apply Forall_cons in HR as [HRy HRl]. case_decide as Hle.
    + constructor; [by constructor|]. constructor; [by split|].
      apply Forall_forall. intros z Hz.
      eapply Forall_forall in Hy as [Hyz _]; [|done].
      eapply Forall_forall in HRl; [|done].
      split; [by etrans|done].
    + constructor; [by apply IH|].
      rewrite sorted_insert_perm. constructor; [|done].
      split; [|done]. by destruct (total le (key x) (key y)).
Qed.

Lemma py_sorted_stable (R : relation A) l :
  StronglySorted R l → StronglySorted (stable_le R) (py_sorted le key l).
Proof.
  induction 1 as [|x l Hl IH Hx]; simpl; [constructor|].
  apply sorted_insert_stable; [done|]. by rewrite py_sorted_perm.
Qed.

Lemma py_sorted_sorted l :
  StronglySorted (λ x y, le (key x) (key y)) (py_sorted le key l).
Proof.
  eapply StronglySorted_impl;
    [|apply (py_sorted_stable (λ _ _, True)), StronglySorted_trivial].
  by intros x y _ _ [? _].
Qed.

End sorted.

Lemma for_each_inv {A S : Type} (I : S → Prop) (R : S → S → Prop)
    (Q : A → S → Prop) (xs : list A) (body : S → A → option S) :
  Reflexive R → Transitive R →
  (∀ x st, x ∈ xs → I st →
     ∃ st', body st x = Some st' ∧ I st' ∧ R st st' ∧ Q x st') →
  (∀ x st st', Q x st → R st st' → Q x st') →
  ∀ st, I st →
    ∃ st', for_each xs st body = Some st' ∧ I st' ∧ R st st' ∧
           ∀ x, x ∈ xs → Q x st'.
Proof.
  intros HRr HRt Hbody HQ. induction xs as [|x xs IH]; intros st HI.
  - exists st. split_and!; [done..|]. intros x Hx. by apply elem_of_nil in Hx.
  - destruct (Hbody x st) as (st1 & Hst1 & HI1 & HR1 & HQ1); [left|done|].
    destruct IH with (st := st1) as (st2 & Hst2 & HI2 & HR2 & HQ2); [|done|].
    { intros y st' Hy. apply Hbody. by right. }
    exists st2. simpl. rewrite Hst1. simpl. split_and!; [done..|by etrans|].
    intros y [->|Hy]%elem_of_cons; [by eapply HQ|by apply HQ2].
Qed.

Lemma elem_of_enumerate {A} (l : list A) (k i : nat) (x : A) :
  (i, x) ∈ enumerate k l ↔ (k ≤ i)%nat ∧ l !! (i - k)%nat = Some x.
Proof.
  revert k. induction l as [|a l IH]; intros k; simpl.
  - rewrite elem_of_nil. naive_solver.
  - rewrite elem_of_cons, IH. split.
    + intros [[= -> ->]|[Hle Hl]].
      * split; [lia|]. by replace (k - k)%nat with 0%nat by lia.
      * split; [lia|]. by replace (i - k)%nat with (S (i - S k)) by lia.
    + intros [Hle Hl]. destruct (decide (i = k)) as [->|Hik].
      * left. replace (k - k)%nat with 0%nat in Hl by lia. naive_solver.
      * right. split; [lia|].
        by replace (i - k)%nat with (S (i - S k)) in Hl by lia.
Qed.

Lemma dict_get_is_Some {V} (d : list (string * V)) k :
  is_Some (dict_get d k) ↔ k ∈ d.*1.
Proof.
  induction d as [|[k' v] d IH]; simpl.
  - rewrite elem_of_nil. split; [by intros [? ?]|done].
  - rewrite elem_of_cons. case_decide; naive_solver.
Qed.

(** [before l a b]: [a] stands at an earlier position of [l] than [b]. *)
Definition before (l : list string) (a b : string) : Prop :=
  ∃ i j, l !! i = Some a ∧ l !! j = Some b ∧ (i < j)%nat.

Lemma before_app_l l d a b : before l a b → before (l ++ [d]) a b.
Proof.
  intros (i & j & Hi & Hj & Hij). exists i, j.
  split_and!; [by apply lookup_app_l_Some..|done].
Qed.

Lemma before_last l d a : a ∈ l → before (l ++ [d]) a d.
Proof.
  intros [i Hi]%list_elem_of_lookup. exists i, (length l).
  split_and!; [by apply lookup_app_l_Some| |by eapply lookup_lt_Some].
  by rewrite lookup_app_r, Nat.sub_diag.
Qed.

Lemma elem_of_concat {A} (L : list (list A)) (d : A) :
  d ∈ concat L ↔ ∃ g, d ∈ g ∧ g ∈ L.
Proof.
  rewrite list_elem_of_In, in_concat.
  setoid_rewrite list_elem_of_In. naive_solver.
Qed.

Lemma dict_get_set {V} (d : list (string * V)) k v k' :
  dict_get (dict_set d k v) k'
  = if decide (k = k') then Some v else dict_get d k'.
Proof.
  induction d as [|[k0 v0] d IH]; simpl.
  - by destruct (decide (k = k')).
  - destruct (decide (k0 = k)) as [->|Hk0]; simpl.
    + by destruct (decide (k = k')).
    + rewrite IH. destruct (decide (k0 = k')) as [->|?]; [|done].
      by rewrite decide_False by done.
Qed.

Lemma dict_set_keys {V} (d : list (string * V)) k v :
  (dict_set d k v).*1 = if decide (k ∈ d.*1) then d.*1 else d.*1 ++ [k].
Proof.
  induction d as [|[k0 v0] d IH]; [done|].
  cbn [dict_set]. destruct (decide (k0 = k)) as [->|Hk0].
  - by rewrite !fmap_cons, decide_True by left.
  - rewrite !fmap_cons, IH. cbn [fst].
    destruct (decide (k ∈ d.*1)) as [Hk|Hk].
    + by rewrite decide_True by (by right).
    + rewrite decide_False; [done|]. rewrite elem_of_cons. naive_solver.
Qed.

Lemma dict_get_Some_keys {V} (d : list (string * V)) k v :
  dict_get d k = Some v → k ∈ d.*1.
Proof. intros Hk. apply dict_get_is_Some. eauto. Qed.

Lemma for_each_is_Some {A S} (xs : list A) (st : S) (body : S → A → option S) :
  (∀ st x, x ∈ xs → is_Some (body st x)) → is_Some (for_each xs st body).
Proof.
  revert st. induction xs as [|x xs IH]; intros st Hbody; [by eexists|].
  simpl. destruct (Hbody st x) as [st' ->]; [left|]. simpl.
  apply IH. intros st'' y Hy. apply Hbody. by right.
Qed.

End PyFacts.

(** * Properties of the clustering engine *)

Module ClusterFacts.
Import Cluster PyFacts.

(** ** Roots of the parent forest *)

(** [root_of parent x r]: following parent links from [x] ends at the
    self-parented node [r]. *)
Inductive root_of (parent : gmap string string) : string → string → Prop :=
  | root_here x : parent !! x = Some x → root_of parent x x
  | root_step x p r :
      parent !! x = Some p → p ≠ x → root_of parent p r → root_of parent x r.

Lemma root_of_is_root parent x r : root_of parent x r → parent !! r = Some r.
Proof. induction 1; auto. Qed.

Lemma root_of_fun parent x r1 r2 :
  root_of parent x r1 → root_of parent x r2 → r1 = r2.
Proof.
  intros H; revert r2; induction H as [x Hx|x p r Hx Hp _ IH]; intros r2 H2.
  - inversion H2; subst; congruence.
  - inversion H2; subst; [congruence|].
    apply IH. congruence.
Qed.

Lemma root_of_root parent r s :
  parent !! r = Some r → root_of parent r s → s = r.
Proof. intros Hr Hs. eapply root_of_fun; [exact Hs|by constructor]. Qed.

(** [compressed parent parent']: [parent'] redirects some non-root nodes of
    [parent] to their roots, which is all that path compression does. *)
Definition compressed (parent parent' : gmap string string) : Prop :=
  (∀ y, is_Some (parent' !! y) ↔ is_Some (parent !! y)) ∧
  (∀ y q, parent' !! y = Some q →
          parent !! y = Some q ∨
          (q ≠ y ∧ root_of parent y q ∧ parent !! y ≠ Some y)).

Lemma compressed_refl parent : compressed parent parent.
Proof. split; auto. Qed.

Lemma compressed_roots parent parent' y :
  compressed parent parent' → parent' !! y = Some y ↔ parent !! y = Some y.
Proof.
  intros [Hdom Hc]; split; intros Hy.
  - destruct (Hc _ _ Hy) as [?|(? & _)]; [done|congruence].
  - destruct (proj2 (Hdom y)) as [q Hq]; [eauto|].
    destruct (Hc _ _ Hq) as [?|(_ & _ & ?)]; [congruence|done].
Qed.

Lemma compressed_root_of parent parent' y s :
  compressed parent parent' → root_of parent' y s ↔ root_of parent y s.
Proof.
  intros Hcomp. pose proof Hcomp as [Hdom Hc]. split.
  - induction 1 as [y Hy|y q s Hy Hq _ IH].
    + constructor. by apply (compressed_roots _ _ _ Hcomp).
    + destruct (Hc _ _ Hy) as [?|(_ & Hr & _)]; [by eapply root_step|].
      by rewrite (root_of_root _ _ _ (root_of_is_root _ _ _ Hr) IH).
  - induction 1 as [y Hy|y q s Hy Hq Hs IH].
    + constructor. by apply (compressed_roots _ _ _ Hcomp).
    + destruct (proj2 (Hdom y)) as [q' Hq']; [eauto|].
      destruct (Hc _ _ Hq') as [?|(Hne & Hr & _)].
      * apply root_step with q; [congruence|done|done].
      * assert (q' = s) as ->.
        { eapply root_of_fun; [exact Hr|by eapply root_step]. }
        apply root_step with s; [done|done|]. constructor.
        by eapply root_of_is_root.
Qed.

Lemma compressed_trans p1 p2 p3 :
  compressed p1 p2 → compressed p2 p3 → compressed p1 p3.
Proof.
  intros H12 H23. pose proof H12 as [Hd12 Hc12]. pose proof H23 as [Hd23 Hc23].
  split; [intros y; by rewrite Hd23|].
  intros y q Hq. destruct (Hc23 _ _ Hq) as [?|(Hne & Hr & Hny)]; [auto|].
  right. split; [done|]. split; [by apply (compressed_root_of p1 p2)|].
  by rewrite <-(compressed_roots _ _ _ H12).
Qed.

(** [find_cluster] returns the root and only compresses. *)
Lemma find_cluster_spec fuel parent x parent' r :
  find_cluster fuel parent x = Some (parent', r) →
  root_of parent x r ∧ compressed parent parent'.
Proof.
  revert parent x parent' r.
  induction fuel as [|fuel IH]; intros parent x parent' r; [done|].
  simpl. destruct (parent !! x) as [px|] eqn:Hx; [simpl|done].
  case_decide as Hne.
  - destruct (find_cluster fuel parent px) as [[parent1 r1]|] eqn:Hfind;
      [simpl|done].
    rewrite lookup_insert_eq. simpl. intros [= <- <-].
    apply IH in Hfind as [Hroot Hcomp]. pose proof Hcomp as [Hdom Hc].
    assert (root_of parent x r1) as Hxr by (by eapply root_step).
    split; [done|]. split.
    + intros y. rewrite lookup_insert. case_decide; subst; [|auto].
      split; eauto.
    + intros y q. rewrite lookup_insert. case_decide as Hy; [|auto].
      subst y. intros [= <-]. right. split_and!; [|done|congruence].
      intros ->. apply root_of_is_root in Hxr. congruence.
  - subst px. intros [= <- <-].
    split; [by constructor|apply compressed_refl].
Qed.

(** ** The union-by-rank invariant *)

(** Number of domains that are not their own parent. *)
Definition nonroots (D : list string) (parent : gmap string string) : Z :=
  Z.of_nat (length (filter (λ x, parent !! x ≠ Some x) D)).

Record uf_inv (D : list string) (parent : gmap string string)
    (rank : gmap string Z) : Prop := {
  inv_parent : ∀ x, x ∈ D → ∃ p, parent !! x = Some p ∧ p ∈ D;
  inv_rank : ∀ x, x ∈ D → is_Some (rank !! x);
  inv_rank_lt : ∀ x p rx rp,
    x ∈ D → parent !! x = Some p → p ≠ x →
    rank !! x = Some rx → rank !! p = Some rp → rx < rp;
  inv_rank_le : ∀ x rx,
    x ∈ D → rank !! x = Some rx → 0 ≤ rx ≤ nonroots D parent;
}.

Lemma nonroots_le D parent : nonroots D parent ≤ Z.of_nat (length D).
Proof. unfold nonroots. pose proof (length_filter (λ x, parent !! x ≠ Some x) D). lia. Qed.

Lemma length_filter_mono {A} (P Q : A → Prop) `{!∀ x, Decision (P x)}
    `{!∀ x, Decision (Q x)} (l : list A) :
  (∀ x, x ∈ l → P x → Q x) →
  (length (filter P l) ≤ length (filter Q l))%nat.
Proof.
  induction l as [|a l IH]; intros HPQ; [done|].
  rewrite !filter_cons.
  assert (length (filter P l) ≤ length (filter Q l))%nat as Hl.
  { apply IH. intros x Hx. apply HPQ. by right. }
  destruct (decide (P a)) as [HP|HP].
  - rewrite decide_True by (apply HPQ; [left|done]). simpl. lia.
  - destruct (decide (Q a)); simpl; lia.
Qed.

Lemma length_filter_strict {A} (P Q : A → Prop) `{!∀ x, Decision (P x)}
    `{!∀ x, Decision (Q x)} (l : list A) z :
  (∀ x, x ∈ l → P x → Q x) → z ∈ l → ¬ P z → Q z →
  (S (length (filter P l)) ≤ length (filter Q l))%nat.
Proof.
  induction l as [|a l IH]; intros HPQ Hz HnP HQ; [by apply elem_of_nil in Hz|].
  rewrite !filter_cons.
  assert (∀ x, x ∈ l → P x → Q x) as HPQ' by (intros x Hx; apply HPQ; by right).
  pose proof (length_filter_mono P Q l HPQ') as Hl.
  apply elem_of_cons in Hz as [<-|Hz].
  - rewrite decide_False, decide_True by done. simpl. lia.
  - specialize (IH HPQ' Hz HnP HQ).
    destruct (decide (P a)) as [HP|HP].
    + rewrite decide_True by (apply HPQ; [left|done]). simpl. lia.
    + destruct (decide (Q a)); simpl; lia.
Qed.

Lemma root_of_in D parent rank x r :
  uf_inv D parent rank → x ∈ D → root_of parent x r → r ∈ D.
Proof.
  intros Hinv Hx Hr. induction Hr as [|x p r Hp _ _ IH]; [done|].
  apply IH. destruct (inv_parent _ _ _ Hinv x Hx) as (p' & ? & ?). congruence.
Qed.

Lemma root_of_rank D parent rank x r rx rr :
  uf_inv D parent rank → x ∈ D → root_of parent x r → r ≠ x →
  rank !! x = Some rx → rank !! r = Some rr → rx < rr.
Proof.
  intros Hinv Hx Hr. revert rx.
  induction Hr as [|x p r Hp Hne Hr IH]; intros rx Hxr Hrx Hrr; [done|].
  assert (p ∈ D) as HpD.
  { destruct (inv_parent _ _ _ Hinv x Hx) as (p' & ? & ?). congruence. }
  destruct (inv_rank _ _ _ Hinv p HpD) as [rp Hrp].
  pose proof (inv_rank_lt _ _ _ Hinv x p rx rp Hx Hp Hne Hrx Hrp).
  destruct (decide (r = p)) as [->|Hrp'].
  - congruence.
  - specialize (IH HpD rp Hrp' Hrp Hrr). lia.
Qed.

(** Path compression keeps the invariant. *)
Lemma compressed_inv D parent parent' rank :
  compressed parent parent' → uf_inv D parent rank → uf_inv D parent' rank.
Proof.
  intros Hcomp Hinv. pose proof Hcomp as [Hdom Hc].
  assert (nonroots D parent' = nonroots D parent) as Hnr.
  { unfold nonroots.
    rewrite (list_filter_iff _ (λ x, parent !! x ≠ Some x)); [done|].
    intros y. by rewrite (compressed_roots _ _ _ Hcomp). }
  split.
  - intros x Hx. destruct (inv_parent _ _ _ Hinv x Hx) as (p & Hp & HpD).
    destruct (proj2 (Hdom x)) as [q Hq]; [eauto|]. exists q. split; [done|].
    destruct (Hc _ _ Hq) as [?|(_ & Hr & _)]; [congruence|].
    exact (root_of_in D parent rank x q Hinv Hx Hr).
  - apply Hinv.
  - intros x q rx rq Hx Hq Hne Hrx Hrq.
    destruct (Hc _ _ Hq) as [?|(_ & Hr & _)].
    + by eapply (inv_rank_lt _ _ _ Hinv x q).
    + by eapply (root_of_rank D parent rank x q).
  - intros x rx Hx Hrx. rewrite Hnr. by eapply inv_rank_le.
Qed.


(** With the invariant, [find_cluster] succeeds once the fuel exceeds the
    room left above the rank of its argument. *)
Lemma find_cluster_total D parent rank fuel x rx :
  uf_inv D parent rank → x ∈ D → rank !! x = Some rx →
  (Z.to_nat (nonroots D parent - rx) < fuel)%nat →
  is_Some (find_cluster fuel parent x).
Proof.
  intros Hinv. revert x rx.
  induction fuel as [|fuel IH]; intros x rx Hx Hrx Hfuel; [lia|].
  simpl. destruct (inv_parent _ _ _ Hinv x Hx) as (p & Hp & HpD).
  rewrite Hp. simpl. case_decide as Hne; [|eauto].
  destruct (inv_rank _ _ _ Hinv p HpD) as [rp Hrp].
  pose proof (inv_rank_lt _ _ _ Hinv x p rx rp Hx Hp Hne Hrx Hrp).
  pose proof (inv_rank_le _ _ _ Hinv p rp HpD Hrp).
  destruct (IH p rp HpD Hrp) as [[parent1 r1] Hfind]; [lia|].
  rewrite Hfind. simpl. rewrite lookup_insert_eq. simpl. eauto.
Qed.

Lemma find_cluster_enough D parent rank x :
  uf_inv D parent rank → x ∈ D →
  is_Some (find_cluster (S (length D)) parent x).
Proof.
  intros Hinv Hx. destruct (inv_rank _ _ _ Hinv x Hx) as [rx Hrx].
  eapply find_cluster_total; [done..|].
  pose proof (nonroots_le D parent).
  pose proof (inv_rank_le _ _ _ Hinv x rx Hx Hrx). lia.
Qed.

Lemma has_root D parent rank x :
  uf_inv D parent rank → x ∈ D → ∃ r, root_of parent x r ∧ r ∈ D.
Proof.
  intros Hinv Hx.
  destruct (find_cluster_enough D parent rank x Hinv Hx) as [[parent' r] Hf].
  apply find_cluster_spec in Hf as [Hr _]. exists r. split; [done|].
  exact (root_of_in D parent rank x r Hinv Hx Hr).
Qed.

(** ** Linking one root under another *)

Lemma link_root_of parent l w a ra :
  parent !! l = Some l → parent !! w = Some w → l ≠ w →
  root_of parent a ra →
  root_of (<[l := w]> parent) a (if decide (ra = l) then w else ra).
Proof.
  intros Hl Hw Hlw. induction 1 as [a Ha|a q ra Ha Hq Hr IH].
  - case_decide as Hal.
    + subst a. apply root_step with w; [by rewrite lookup_insert_eq|done|].
      constructor. by rewrite lookup_insert_ne.
    + constructor. by rewrite lookup_insert_ne.
  - apply root_step with q; [|done|done].
    rewrite lookup_insert_ne; [done|]. intros <-. congruence.
Qed.

Lemma nonroots_link D parent l w :
  parent !! l = Some l → l ≠ w → l ∈ D →
  nonroots D parent + 1 ≤ nonroots D (<[l := w]> parent).
Proof.
  intros Hl Hlw HlD. unfold nonroots.
  pose proof (length_filter_strict (λ x, parent !! x ≠ Some x)
    (λ x, <[l := w]> parent !! x ≠ Some x) D l) as Hlen.
  cut (S (length (filter (λ x, parent !! x ≠ Some x) D))
       ≤ length (filter (λ x, <[l := w]> parent !! x ≠ Some x) D))%nat; [lia|].
  apply Hlen; [|done|naive_solver|].
  - intros x _ Hx. rewrite lookup_insert. case_decide; [|done].
    subst x. congruence.
  - rewrite lookup_insert_eq. congruence.
Qed.

Lemma link_inv D parent rank l w rl rw :
  uf_inv D parent rank → l ∈ D → w ∈ D →
  parent !! l = Some l → parent !! w = Some w → l ≠ w →
  rank !! l = Some rl → rank !! w = Some rw → rl < rw →
  uf_inv D (<[l := w]> parent) rank.
Proof.
  intros Hinv HlD HwD Hl Hw Hlw Hrl Hrw Hlt.
  pose proof (nonroots_link D parent l w Hl Hlw HlD) as Hnr.
  split.
  - intros x Hx. rewrite lookup_insert. case_decide; [eauto|].
    by apply (inv_parent _ _ _ Hinv).
  - apply Hinv.
  - intros x p rx rp Hx. rewrite lookup_insert. case_decide as Hxl.
    + subst x. intros [= <-] _ ? ?. congruence.
    + by apply (inv_rank_lt _ _ _ Hinv).
  - intros x rx Hx Hrx. pose proof (inv_rank_le _ _ _ Hinv x rx Hx Hrx). lia.
Qed.

Lemma link_inv_tie D parent rank l w r :
  uf_inv D parent rank → l ∈ D → w ∈ D →
  parent !! l = Some l → parent !! w = Some w → l ≠ w →
  rank !! l = Some r → rank !! w = Some r →
  uf_inv D (<[l := w]> parent) (<[w := r + 1]> rank).
Proof.
  intros Hinv HlD HwD Hl Hw Hlw Hrl Hrw.
  pose proof (nonroots_link D parent l w Hl Hlw HlD) as Hnr.
  split.
  - intros x Hx. rewrite lookup_insert. case_decide; [eauto|].
    by apply (inv_parent _ _ _ Hinv).
  - intros x Hx. rewrite lookup_insert. case_decide; [eauto|].
    by apply (inv_rank _ _ _ Hinv).
  - intros x p rx rp Hx. rewrite lookup_insert. case_decide as Hxl.
    + subst x. intros [= <-] _.
      rewrite lookup_insert_ne, lookup_insert_eq by done. intros; simplify_eq; lia.
    + intros Hp Hne. rewrite (lookup_insert_ne _ w x).
      2:{ intros <-. congruence. }
      intros Hrx. rewrite lookup_insert. case_decide as Hpw.
      * subst p. intros [= <-].
        pose proof (inv_rank_lt _ _ _ Hinv x w rx r Hx Hp Hne Hrx Hrw). lia.
      * intros Hrp. exact (inv_rank_lt _ _ _ Hinv x p rx rp Hx Hp Hne Hrx Hrp).
  - intros x rx Hx. rewrite lookup_insert. case_decide.
    + intros [= <-]. pose proof (inv_rank_le _ _ _ Hinv w r HwD Hrw). lia.
    + intros Hrx. pose proof (inv_rank_le _ _ _ Hinv x rx Hx Hrx). lia.
Qed.

(** ** Effect of one union *)

Local Arguments find_cluster : simpl never.

(** [merged parent parent' x y]: in [parent'] the trees of [x] and [y] have
    been joined and every other tree is as in [parent]. *)
Definition merged (parent parent' : gmap string string) (x y : string) : Prop :=
  ∃ rx ry w,
    root_of parent x rx ∧ root_of parent y ry ∧ (w = rx ∨ w = ry) ∧
    ∀ a ra, root_of parent a ra →
            root_of parent' a (if decide (ra = rx ∨ ra = ry) then w else ra).

Lemma union_clusters_step D parent rank x y :
  uf_inv D parent rank → x ∈ D → y ∈ D →
  ∃ parent' rank',
    union_clusters (S (length D)) parent rank x y = Some (parent', rank') ∧
    uf_inv D parent' rank' ∧ merged parent parent' x y.
Proof.
  intros Hinv Hx Hy. unfold union_clusters.
  destruct (find_cluster_enough D parent rank x Hinv Hx) as [[p1 rx] Hf1].
  rewrite Hf1. simpl.
  pose proof (find_cluster_spec _ _ _ _ _ Hf1) as [Hrx Hc1].
  pose proof (compressed_inv D _ _ rank Hc1 Hinv) as Hinv1.
  destruct (find_cluster_enough D p1 rank y Hinv1 Hy) as [[p2 ry] Hf2].
  rewrite Hf2. simpl.
  pose proof (find_cluster_spec _ _ _ _ _ Hf2) as [Hry Hc2].
  pose proof (compressed_inv D _ _ rank Hc2 Hinv1) as Hinv2.
  pose proof (compressed_trans _ _ _ Hc1 Hc2) as Hc.
  apply (compressed_root_of _ _ _ _ Hc1) in Hry.
  pose proof (root_of_in D parent rank x rx Hinv Hx Hrx) as HrxD.
  pose proof (root_of_in D parent rank y ry Hinv Hy Hry) as HryD.
  assert (p2 !! rx = Some rx) as Hprx.
  { apply (compressed_roots _ _ _ Hc). by eapply root_of_is_root. }
  assert (p2 !! ry = Some ry) as Hpry.
  { apply (compressed_roots _ _ _ Hc). by eapply root_of_is_root. }
  assert (∀ a ra, root_of parent a ra → root_of p2 a ra) as Hto.
  { intros a ra. by rewrite (compressed_root_of _ _ _ _ Hc). }
  case_decide as Hne.
  - destruct (inv_rank _ _ _ Hinv rx HrxD) as [kx Hkx].
    destruct (inv_rank _ _ _ Hinv ry HryD) as [ky Hky].
    rewrite Hkx, Hky. simpl.
    destruct (decide (kx < ky)) as [Hlt|Hnlt];
      [|destruct (decide (kx > ky)) as [Hgt|Hngt]].
    + eexists _, _. split; [done|]. split.
      { by eapply (link_inv D p2 rank rx ry kx ky). }
      exists rx, ry, ry. split_and!; [done|done|by right|].
      intros a ra Hra.
      pose proof (link_root_of p2 rx ry a ra Hprx Hpry Hne (Hto _ _ Hra)) as Hl.
      repeat case_decide; naive_solver.
    + eexists _, _. split; [done|]. split.
      { eapply (link_inv D p2 rank ry rx ky kx); [done..|lia]. }
      exists rx, ry, rx. split_and!; [done|done|by left|].
      intros a ra Hra.
      pose proof (link_root_of p2 ry rx a ra Hpry Hprx (not_eq_sym Hne)
                    (Hto _ _ Hra)) as Hl.
      repeat case_decide; naive_solver.
    + assert (ky = kx) as -> by lia.
      eexists _, _. split; [done|]. split.
      { by eapply (link_inv_tie D p2 rank ry rx kx). }
      exists rx, ry, rx. split_and!; [done|done|by left|].
      intros a ra Hra.
      pose proof (link_root_of p2 ry rx a ra Hpry Hprx (not_eq_sym Hne)
                    (Hto _ _ Hra)) as Hl.
      repeat case_decide; naive_solver.
  - subst ry. eexists _, _. split; [done|]. split; [done|].
    exists rx, rx, rx. split_and!; [done|done|by left|].
    intros a ra Hra. case_decide; [|by apply Hto].
    assert (ra = rx) as -> by naive_solver. by apply Hto.
Qed.

(** ** The pairwise pass *)

Definition same_root (parent : gmap string string) (a b : string) : Prop :=
  ∃ r, root_of parent a r ∧ root_of parent b r.

Lemma merged_same_root parent parent' x y a b :
  merged parent parent' x y → same_root parent a b → same_root parent' a b.
Proof.
  intros (rx & ry & w & _ & _ & _ & Hm) (r & Ha & Hb).
  eexists. split; by apply Hm.
Qed.

Lemma merged_joined parent parent' x y :
  merged parent parent' x y → same_root parent' x y.
Proof.
  intros (rx & ry & w & Hx & Hy & _ & Hm). exists w. split.
  - specialize (Hm _ _ Hx). by rewrite decide_True in Hm by auto.
  - specialize (Hm _ _ Hy). by rewrite decide_True in Hm by auto.
Qed.

Lemma initial_parent_lookup D x :
  initial_parent D !! x = if decide (x ∈ D) then Some x else None.
Proof.
  unfold initial_parent. induction D as [|d D IH].
  - done.
  - rewrite fmap_cons, list_to_map_cons, lookup_insert, IH.
    destruct (decide (d = x)) as [->|Hne].
    + by rewrite decide_True by left.
    + destruct (decide (x ∈ D)).
      * by rewrite decide_True by (by right).
      * rewrite decide_False; [done|]. rewrite elem_of_cons. naive_solver.
Qed.

Lemma initial_rank_lookup D x :
  initial_rank D !! x = if decide (x ∈ D) then Some 0 else None.
Proof.
  unfold initial_rank. induction D as [|d D IH].
  - done.
  - rewrite fmap_cons, list_to_map_cons, lookup_insert, IH.
    destruct (decide (d = x)) as [->|Hne].
    + by rewrite decide_True by left.
    + destruct (decide (x ∈ D)).
      * by rewrite decide_True by (by right).
      * rewrite decide_False; [done|]. rewrite elem_of_cons. naive_solver.
Qed.

Lemma initial_inv D : uf_inv D (initial_parent D) (initial_rank D).
Proof.
  split.
  - intros x Hx. exists x. by rewrite initial_parent_lookup, decide_True.
  - intros x Hx. by rewrite initial_rank_lookup, decide_True.
  - intros x p rx rp _. rewrite initial_parent_lookup.
    case_decide; [|done]. congruence.
  - intros x rx Hx. rewrite initial_rank_lookup, decide_True by done.
    intros [= <-]. unfold nonroots. lia.
Qed.

Lemma initial_root_of D a r : root_of (initial_parent D) a r → r = a.
Proof.
  destruct 1 as [|a p r Hp Hne _]; [done|].
  rewrite initial_parent_lookup in Hp. case_decide; congruence.
Qed.

Section pairwise.
Context {ImageHash : Type} (hash_sub : ImageHash → ImageHash → Z).
Context (hashes : list (string * ImageHash)).

(** [close a b]: both domains have a hash and the distance computed for the
    pair is within the threshold. *)
Definition close (a b : string) : Prop :=
  ∃ ha hb, dict_get hashes a = Some ha ∧ dict_get hashes b = Some hb ∧
           hash_sub ha hb ≤ HASH_THRESHOLD.

(** [edge a b]: the pairwise loop compares [a] with [b] (in this order)
    and finds them within the threshold. *)
Definition edge (a b : string) : Prop :=
  ∃ i j, hashes.*1 !! i = Some a ∧ hashes.*1 !! j = Some b ∧ (i < j)%nat ∧
         close a b.

(** The state is sound when every domain is tied to its root by a chain of
    edges. *)
Definition good (st : gmap string string * gmap string Z) : Prop :=
  uf_inv hashes.*1 st.1 st.2 ∧
  ∀ a r, a ∈ hashes.*1 → root_of st.1 a r → rtsc edge a r.

Definition grows (st st' : gmap string string * gmap string Z) : Prop :=
  ∀ a b, same_root st.1 a b → same_root st'.1 a b.

Local Instance grows_refl : Reflexive grows.
Proof. by intros st a b. Qed.

Local Instance grows_trans : Transitive grows.
Proof. intros s1 s2 s3 H12 H23 a b Hab. by apply H23, H12. Qed.

Lemma compare_pair_step d1 d2 st :
  d1 ∈ hashes.*1 → d2 ∈ hashes.*1 → (close d1 d2 → edge d1 d2) → good st →
  ∃ st', compare_pair hash_sub (S (length hashes.*1)) hashes d1 st d2 = Some st'
         ∧ good st' ∧ grows st st' ∧ (close d1 d2 → same_root st'.1 d1 d2).
Proof.
  intros Hd1 Hd2 Hedge [Hinv Hsound]. unfold compare_pair.
  destruct (proj2 (dict_get_is_Some hashes d1) Hd1) as [h1 Hh1].
  destruct (proj2 (dict_get_is_Some hashes d2) Hd2) as [h2 Hh2].
  rewrite Hh1, Hh2. simpl. case_decide as Hdist.
  - destruct (union_clusters_step _ _ _ d1 d2 Hinv Hd1 Hd2)
      as (parent' & rank' & -> & Hinv' & Hm).
    exists (parent', rank'). split_and!;
      [done| |intros a b; by eapply merged_same_root|].
    + split; [done|]. simpl. intros a r' Ha Hr'.
      destruct (has_root _ _ _ a Hinv Ha) as (ra & Hra & _).
      destruct Hm as (rx & ry & w & Hx & Hy & Hw & Hm).
      pose proof (root_of_fun _ _ _ _ Hr' (Hm _ _ Hra)) as ->.
      pose proof (Hsound _ _ Ha Hra) as Hca.
      case_decide as Hcase; [|done].
      assert (rtsc edge rx ry) as Hxy.
      { pose proof (Hsound _ _ Hd1 Hx) as H1.
        pose proof (Hsound _ _ Hd2 Hy) as H2.
        assert (rtsc edge d1 d2) as H12.
        { apply rtsc_lr, Hedge. by exists h1, h2. }
        symmetry in H1. by repeat (etrans; [eassumption|]). }
      destruct Hcase as [-> | ->], Hw as [-> | ->]; try done.
      * by etrans.
      * etrans; [done|]. by symmetry.
    + intros _. by eapply merged_joined.
  - exists st. split_and!; [done|done|done|].
    intros (ha & hb & ? & ? & ?). simplify_eq. lia.
Qed.

Lemma union_pass_spec :
  ∃ st, union_pass hash_sub (S (length hashes.*1)) hashes hashes.*1 = Some st
        ∧ good st
        ∧ ∀ d1 d2, edge d1 d2 → same_root st.1 d1 d2.
Proof.
  unfold union_pass.
  destruct (for_each_inv good grows
    (λ '(i, d1) st, ∀ d2, d2 ∈ drop (i + 1) hashes.*1 → close d1 d2 →
                          same_root st.1 d1 d2)
    (enumerate 0 hashes.*1)
    (λ st '(i, d1),
       for_each (drop (i + 1) hashes.*1) st
         (compare_pair hash_sub (S (length hashes.*1)) hashes d1))
    _ _) with (st := (initial_parent hashes.*1, initial_rank hashes.*1))
    as (st & Hst & Hgood & _ & Hall).
  - intros [i d1] st [_ Hi]%elem_of_enumerate Hgood.
    rewrite Nat.sub_0_r in Hi. pose proof (list_elem_of_lookup_2 _ _ _ Hi) as Hd1.
    destruct (for_each_inv good grows
      (λ d2 st, close d1 d2 → same_root st.1 d1 d2)
      (drop (i + 1) hashes.*1)
      (compare_pair hash_sub (S (length hashes.*1)) hashes d1) _ _)
      with (st := st) as (st' & Hst' & Hgood' & Hgrows & Hall); [| |done|].
    + intros d2 st1 Hd2 Hgood1.
      apply list_elem_of_lookup in Hd2 as [j Hj]. rewrite lookup_drop in Hj.
      apply compare_pair_step; [done|by eapply list_elem_of_lookup_2| |done].
      intros Hc. exists i, (i + 1 + j)%nat. split_and!; [done|done|lia|done].
    + intros d2 st1 st2 HQ Hg Hc. by apply Hg, HQ.
    + exists st'. split_and!; done.
  - intros [i d1] st1 st2 HQ Hg d2 Hd2 Hc. by apply Hg, HQ.
  - split; [apply initial_inv|]. simpl.
    intros a r _ ->%initial_root_of. done.
  - exists st. split_and!; [done..|].
    intros d1 d2 (i & j & Hi & Hj & Hij & Hc). apply (Hall (i, d1)); [| |done].
    + apply elem_of_enumerate. split; [lia|]. by rewrite Nat.sub_0_r.
    + apply list_elem_of_lookup. exists (j - (i + 1))%nat.
      rewrite lookup_drop. by replace (i + 1 + (j - (i + 1)))%nat with j by lia.
Qed.

End pairwise.

(** ** Grouping by root *)

(** What the grouping loop builds when [f] gives the root of each domain. *)
Definition group_by (f : string → string) (l : list string)
  : list (string * list string) :=
  foldl (λ cl d, clusters_append cl (f d) d) [] l.

(** [first_before l v1 v2]: some member of [v1] stands before every member
    of [v2], that is, [v1] is met first when [l] is traversed. *)
Definition first_before (l v1 v2 : list string) : Prop :=
  ∃ a, a ∈ v1 ∧ ∀ b, b ∈ v2 → before l a b.

Lemma clusters_append_keys G r d :
  (clusters_append G r d).*1 = if decide (r ∈ G.*1) then G.*1 else G.*1 ++ [r].
Proof.
  induction G as [|[k v] G IH]; [done|].
  cbn [clusters_append]. destruct (decide (k = r)) as [->|Hk].
  - by rewrite !fmap_cons, decide_True by left.
  - rewrite !fmap_cons, IH. cbn [fst].
    destruct (decide (r ∈ G.*1)) as [Hr|Hr].
    + by rewrite decide_True by (by right).
    + rewrite decide_False; [done|]. rewrite elem_of_cons. naive_solver.
Qed.

Lemma clusters_append_nodup G r d :
  NoDup G.*1 → NoDup (clusters_append G r d).*1.
Proof.
  intros HG. rewrite clusters_append_keys. case_decide; [done|].
  apply NoDup_app. split_and!; [done| |apply NoDup_singleton].
  intros x Hx ->%list_elem_of_singleton. done.
Qed.

Lemma elem_of_clusters_append G r d k v :
  NoDup G.*1 → (k, v) ∈ clusters_append G r d →
  ((k, v) ∈ G ∧ k ≠ r) ∨
  (k = r ∧ ((∃ v0, (r, v0) ∈ G ∧ v = v0 ++ [d]) ∨ ((r ∉ G.*1) ∧ v = [d]))).
Proof.
  induction G as [|[k0 v0] G IH]; simpl.
  - intros _ Hkv%list_elem_of_singleton. simplify_eq.
    right. split; [done|].
    right. split; [apply not_elem_of_nil|done].
  - intros [Hk0 HG]%NoDup_cons. case_decide as Hk.
    + subst k0. intros [?|Hin]%elem_of_cons; [simplify_eq|].
      * right. split; [done|]. left. exists v0. split; [left|done].
      * left. split; [by right|]. intros ->. apply Hk0.
        apply list_elem_of_fmap. by exists (r, v).
    + intros [?|Hin]%elem_of_cons; [simplify_eq|].
      * left. split; [left|done].
      * destruct (IH HG Hin) as [[? ?]|[-> [(v1 & ? & ->)|[Hr ->]]]].
        -- left. split; [by right|done].
        -- right. split; [done|]. left. exists v1. split; [by right|done].
        -- right. split; [done|]. right. split; [|done].
           rewrite elem_of_cons. naive_solver.
Qed.

Lemma elem_of_clusters_append_weak G r d kv :
  kv ∈ clusters_append G r d →
  kv ∈ G ∨ (∃ v0, (r, v0) ∈ G ∧ kv = (r, v0 ++ [d])) ∨ kv = (r, [d]).
Proof.
  induction G as [|[k0 v0] G IH]; simpl.
  - intros ->%list_elem_of_singleton. by right; right.
  - case_decide as Hk.
    + subst k0. intros [->|Hin]%elem_of_cons.
      * right; left. exists v0. split; [left|done].
      * left. by right.
    + intros [->|Hin]%elem_of_cons; [left; left|].
      destruct (IH Hin) as [?|[(v1 & ? & ->)| ->]].
      * left. by right.
      * right; left. exists v1. split; [by right|done].
      * by right; right.
Qed.

Lemma clusters_append_concat G r d :
  concat (clusters_append G r d).*2 ≡ₚ concat G.*2 ++ [d].
Proof.
  induction G as [|[k v] G IH]; simpl; [done|].
  case_decide; simpl.
  - rewrite <-!(assoc_L (++)). f_equiv. apply Permutation_app_comm.
  - by rewrite IH, (assoc_L (++)).
Qed.

Lemma group_by_snoc f l d :
  group_by f (l ++ [d]) = clusters_append (group_by f l) (f d) d.
Proof. unfold group_by. by rewrite foldl_app. Qed.

Lemma group_by_concat f l : concat (group_by f l).*2 ≡ₚ l.
Proof.
  induction l as [|d l IH] using rev_ind; [done|].
  by rewrite group_by_snoc, clusters_append_concat, IH.
Qed.

Record grouped (f : string → string) (l : list string)
    (G : list (string * list string)) : Prop := {
  grouped_nodup : NoDup G.*1;
  grouped_members : ∀ k v,
    (k, v) ∈ G → v ≠ [] ∧ v = filter (λ d, f d = k) l;
  grouped_keys : ∀ d, d ∈ l → f d ∈ G.*1;
  grouped_order :
    StronglySorted (λ kv1 kv2, first_before l kv1.2 kv2.2) G;
}.

Lemma clusters_append_order l G r d :
  (∀ kv, kv ∈ G → kv.2 ≠ [] ∧ ∀ a, a ∈ kv.2 → a ∈ l) →
  StronglySorted (λ kv1 kv2, first_before l kv1.2 kv2.2) G →
  StronglySorted (λ kv1 kv2, first_before (l ++ [d]) kv1.2 kv2.2)
    (clusters_append G r d).
Proof.
  intros Hmem HG. induction HG as [|[k0 v0] G HG IH Hall]; simpl.
  - repeat constructor.
  - assert (∀ kv, kv ∈ G → kv.2 ≠ [] ∧ ∀ a, a ∈ kv.2 → a ∈ l) as Hmem'.
    { intros kv Hkv. apply Hmem. by right. }
    destruct (Hmem (k0, v0)) as [Hne Hsub]; [left|]. simpl in *.
    case_decide as Hk.
    + constructor.
      * eapply StronglySorted_impl; [|exact HG].
        intros x y _ _ (a & Ha & Hb). exists a. split; [done|].
        intros b Hb'. by apply before_app_l, Hb.
      * apply Forall_forall. intros kv Hkv.
        eapply Forall_forall in Hall as (a & Ha & Hb); [|done].
        exists a. split; [apply elem_of_app; by left|].
        intros b Hb'. by apply before_app_l, Hb.
    + constructor; [by apply IH|].
      apply Forall_forall. intros [k v] Hkv. simpl.
      assert (∀ a b, a ∈ v0 → b = d → before (l ++ [d]) a b) as Hlast.
      { intros a b Ha ->. by apply before_last, Hsub. }
      assert (∀ kv, kv ∈ G → first_before (l ++ [d]) v0 kv.2) as Hold.
      { intros kv Hkv'. eapply Forall_forall in Hall as (a & Ha & Hb); [|done].
        exists a. split; [done|]. intros b Hb'. by apply before_app_l, Hb. }
      destruct (elem_of_clusters_append_weak _ _ _ _ Hkv)
        as [Hin|[(v1 & Hin & [= -> ->])|[= -> ->]]].
      * by apply (Hold (k, v)).
      * destruct (Hold (r, v1)) as (a & Ha & Hb); [done|].
        exists a. split; [done|]. simpl in Hb.
        intros b [Hb'| ->%list_elem_of_singleton]%elem_of_app;
          [by apply Hb|by apply Hlast].
      * destruct v0 as [|a v0]; [done|]. exists a. split; [left|].
        intros b ->%list_elem_of_singleton. apply Hlast; [left|done].
Qed.

Lemma grouped_nil f : grouped f [] [].
Proof.
  split; [constructor| | |constructor].
  - intros k v Hkv. by apply elem_of_nil in Hkv.
  - intros d Hd. by apply elem_of_nil in Hd.
Qed.

Lemma grouped_snoc f l G d :
  grouped f l G → grouped f (l ++ [d]) (clusters_append G (f d) d).
Proof.
  intros [Hnd Hmem Hkeys Hord]. split.
  - by apply clusters_append_nodup.
  - intros k v Hkv. rewrite filter_app, filter_cons, filter_nil.
    destruct (elem_of_clusters_append _ _ _ _ _ Hnd Hkv)
      as [[Hin Hk]|[-> [(v0 & Hin & ->)|[Hr ->]]]].
    + destruct (Hmem _ _ Hin) as [Hne Hv].
      rewrite decide_False by done. by rewrite app_nil_r.
    + destruct (Hmem _ _ Hin) as [Hne Hv].
      rewrite decide_True by done. split; [by destruct v0|by rewrite <-Hv].
    + rewrite decide_True by done. split; [done|].
      assert (filter (λ x, f x = f d) l = []) as ->; [|done].
      apply elem_of_nil_inv. intros x [Hfx Hx]%list_elem_of_filter.
      apply Hr. rewrite <-Hfx. by apply Hkeys.
  - intros x Hx. rewrite clusters_append_keys.
    apply elem_of_app in Hx as [Hx| ->%list_elem_of_singleton].
    + case_decide; [by apply Hkeys|]. apply elem_of_app. left. by apply Hkeys.
    + case_decide; [done|]. apply elem_of_app. right. by left.
  - apply clusters_append_order; [|done].
    intros [k v] Hkv. destruct (Hmem _ _ Hkv) as [Hne Hv]. split; [done|].
    simpl. intros a. rewrite Hv at 1. by intros [_ ?]%list_elem_of_filter.
Qed.

Lemma group_by_grouped f l : grouped f l (group_by f l).
Proof.
  induction l as [|d l IH] using rev_ind; [apply grouped_nil|].
  rewrite group_by_snoc. by apply grouped_snoc.
Qed.

(** ** The grouping pass *)

(** The root of a domain in a given forest, as [find_cluster] computes it. *)
Definition root_fn (D : list string) (parent : gmap string string)
    (d : string) : string :=
  match find_cluster (S (length D)) parent d with
  | Some (_, r) => r
  | None => d
  end.

Lemma root_fn_spec D parent rank d :
  uf_inv D parent rank → d ∈ D → root_of parent d (root_fn D parent d).
Proof.
  intros Hinv Hd. unfold root_fn.
  destruct (find_cluster_enough D parent rank d Hinv Hd) as [[p r] Hf].
  rewrite Hf. by apply find_cluster_spec in Hf as [? _].
Qed.

Lemma group_loop D parent0 rank root l :
  uf_inv D parent0 rank →
  (∀ d, d ∈ D → root_of parent0 d (root d)) →
  (∀ d, d ∈ l → d ∈ D) →
  ∀ parent cl, compressed parent0 parent →
    ∃ parent',
      for_each l (parent, cl)
        (λ '(parent, clusters) domain,
           '(parent, root) ← find_cluster (S (length D)) parent domain;
           Some (parent, clusters_append clusters root domain))
      = Some (parent', foldl (λ cl d, clusters_append cl (root d) d) cl l)
      ∧ compressed parent0 parent'.
Proof.
  intros Hinv Hroot. induction l as [|d l IH]; intros Hl parent cl Hc.
  - by exists parent.
  - pose proof (compressed_inv D _ _ rank Hc Hinv) as Hinv'.
    assert (d ∈ D) as Hd by (apply Hl; left).
    destruct (find_cluster_enough D parent rank d Hinv' Hd) as [[p r] Hf].
    pose proof (find_cluster_spec _ _ _ _ _ Hf) as [Hr Hc'].
    apply (compressed_root_of _ _ _ _ Hc) in Hr.
    pose proof (root_of_fun _ _ _ _ Hr (Hroot d Hd)) as ->.
    destruct (IH (λ x Hx, Hl x (list_elem_of_further _ _ _ Hx)) p
                (clusters_append cl (root d) d)) as (p' & Hp' & Hc'').
    { by eapply compressed_trans. }
    exists p'. split; [|done]. simpl. rewrite Hf. simpl. exact Hp'.
Qed.

Lemma group_pass_spec D parent rank :
  uf_inv D parent rank →
  ∃ parent', group_pass (S (length D)) parent D
             = Some (parent', group_by (root_fn D parent) D).
Proof.
  intros Hinv.
  destruct (group_loop D parent rank (root_fn D parent) D Hinv) with
    (parent := parent) (cl := @nil (string * list string))
    as (p' & Hp' & _); [|done|apply compressed_refl|by exists p'].
  intros d Hd. by eapply root_fn_spec.
Qed.

(** ** The report *)

Definition report_of (n : nat) (G : list (string * list string)) : report :=
  {| total_logos := n;
     report_clusters :=
       (λ kv, py_sorted String.le id kv.2) <$> sorted_clusters (multi_clusters G);
     report_singletons := py_sorted String.le id (singletons G) |}.

(** The output groups: the clusters, then each singleton as a group of one. *)
Definition groups (r : report) : list (list string) :=
  report_clusters r ++ ((λ d, [d]) <$> report_singletons r).

Lemma concat_fmap_perm {A B} (f g : A → list B) (l l' : list A) :
  l ≡ₚ l' → (∀ x, f x ≡ₚ g x) → concat (f <$> l) ≡ₚ concat (g <$> l').
Proof.
  intros Hl Hfg. induction Hl as [|x l l' _ IH|x y l|l l' l'' _ IH1 _ IH2].
  - done.
  - simpl. by rewrite IH, Hfg.
  - simpl. rewrite !(assoc (++)), (Hfg x), (Hfg y).
    rewrite (comm (++) (g y)). f_equiv.
    clear -Hfg. induction l as [|z l IH]; simpl; [done|]. by rewrite IH, Hfg.
  - etrans; [exact IH1|]. etrans; [|exact IH2].
    clear -Hfg. induction l' as [|z l IH]; simpl; [done|]. by rewrite IH, Hfg.
Qed.

Lemma concat_singletons {A} (l : list A) : concat ((λ d, [d]) <$> l) = l.
Proof. induction l as [|x l IH]; simpl; [done|]. by f_equal. Qed.

Section report.
Context (root : string → string) (D : list string) (n : nat).
Hypothesis root_closed : ∀ d, d ∈ D → root d ∈ D ∧ root (root d) = root d.

Lemma group_key_member k v : (k, v) ∈ group_by root D → k ∈ v.
Proof.
  intros Hkv.
  destruct (grouped_members _ _ _ (group_by_grouped root D) k v Hkv) as [Hne Hv].
  destruct v as [|d v']; [done|].
  assert (d ∈ filter (λ d, root d = k) D) as [Hd HdD]%list_elem_of_filter.
  { rewrite <-Hv. left. }
  destruct (root_closed d HdD) as [HkD Hkk]. rewrite Hd in HkD, Hkk.
  rewrite Hv. by apply list_elem_of_filter.
Qed.

Lemma group_singleton k v :
  (k, v) ∈ group_by root D → length v = 1%nat → v = [k].
Proof.
  intros Hkv Hlen. pose proof (group_key_member k v Hkv) as Hk.
  destruct v as [|d [|??]]; simplify_eq/=.
  by apply list_elem_of_singleton in Hk as ->.
Qed.

Lemma elem_of_report_clusters g :
  g ∈ report_clusters (report_of n (group_by root D)) ↔
  ∃ k v, (k, v) ∈ group_by root D ∧ (1 < length v)%nat ∧
         g = py_sorted String.le id v.
Proof.
  simpl. rewrite list_elem_of_fmap. unfold sorted_clusters, multi_clusters.
  split.
  - intros ([k v] & -> & Hin). rewrite py_sorted_perm in Hin.
    apply list_elem_of_filter in Hin as [Hlen Hin]. by exists k, v.
  - intros (k & v & Hin & Hlen & ->). exists (k, v). split; [done|].
    rewrite py_sorted_perm. by apply list_elem_of_filter.
Qed.

Lemma elem_of_report_singletons d :
  d ∈ report_singletons (report_of n (group_by root D)) ↔
  (d, [d]) ∈ group_by root D.
Proof.
  simpl. rewrite py_sorted_perm. unfold singletons.
  rewrite list_elem_of_fmap. split.
  - intros ([k v] & -> & [Hlen Hin]%list_elem_of_filter). simpl in *.
    by rewrite <-(group_singleton k v).
  - intros Hin. exists (d, [d]). split; [done|].
    by apply list_elem_of_filter.
Qed.

Lemma elem_of_groups g :
  g ∈ groups (report_of n (group_by root D)) ↔
  ∃ k v, (k, v) ∈ group_by root D ∧ g = py_sorted String.le id v.
Proof.
  unfold groups. rewrite elem_of_app, elem_of_report_clusters, list_elem_of_fmap.
  split.
  - intros [(k & v & Hin & _ & ->)|(d & -> & Hd)].
    + by exists k, v.
    + apply elem_of_report_singletons in Hd. by exists d, [d].
  - intros (k & v & Hin & ->).
    destruct (grouped_members _ _ _ (group_by_grouped root D) k v Hin)
      as [Hne _].
    destruct (decide (length v = 1%nat)) as [Hlen|Hlen].
    + right. exists k. rewrite (group_singleton k v Hin Hlen) in Hin |- *.
      split; [done|]. by apply elem_of_report_singletons.
    + left. exists k, v. split; [done|]. split; [|done].
      destruct v; simpl in *; [done|lia].
Qed.

Lemma same_group_root a b :
  a ∈ D → b ∈ D →
  (∃ g, g ∈ groups (report_of n (group_by root D)) ∧ a ∈ g ∧ b ∈ g) ↔
  root a = root b.
Proof.
  intros Ha Hb. pose proof (group_by_grouped root D) as HG. split.
  - intros (g & (k & v & Hin & ->)%elem_of_groups & Hag & Hbg).
    rewrite py_sorted_perm in Hag, Hbg.
    destruct (grouped_members _ _ _ HG k v Hin) as [_ Hv].
    rewrite Hv in Hag, Hbg.
    apply list_elem_of_filter in Hag as [-> _].
    by apply list_elem_of_filter in Hbg as [-> _].
  - intros Hab. pose proof (grouped_keys _ _ _ HG a Ha) as Hk.
    apply list_elem_of_fmap in Hk as ([k v] & Hk & Hin). simpl in Hk. subst k.
    exists (py_sorted String.le id v). split; [apply elem_of_groups; eauto|].
    destruct (grouped_members _ _ _ HG _ v Hin) as [_ Hv].
    rewrite !py_sorted_perm, Hv. split; by apply list_elem_of_filter.
Qed.

Lemma groups_perm : concat (groups (report_of n (group_by root D))) ≡ₚ D.
Proof.
  pose proof (group_by_grouped root D) as HG.
  unfold groups. rewrite concat_app, concat_singletons. simpl.
  rewrite py_sorted_perm.
  rewrite (concat_fmap_perm _ snd _ (multi_clusters (group_by root D))).
  2: apply py_sorted_perm.
  2: { intros [k v]. exact (py_sorted_perm String.le id v). }
  rewrite <-(group_by_concat root D) at 3.
  assert (∀ kv, kv ∈ group_by root D →
            (length kv.2 = 1%nat → kv.2 = [kv.1]) ∧ kv.2 ≠ []) as Hall.
  { intros [k v] Hin. split; [by apply group_singleton|].
    by destruct (grouped_members _ _ _ HG k v Hin). }
  unfold multi_clusters, singletons. revert Hall. clear HG.
  generalize (group_by root D). intros G.
  induction G as [|[k v] G IH]; intros Hall; [done|].
  rewrite !filter_cons. simpl.
  destruct (Hall (k, v)) as [H1 Hne]; [left|]. simpl in *.
  assert (concat (filter (λ kv, (1 < length kv.2)%nat) G).*2
          ++ (filter (λ kv, length kv.2 = 1%nat) G).*1 ≡ₚ concat G.*2) as IH'.
  { apply IH. intros kv Hkv. apply Hall. by right. }
  destruct (decide (1 < length v)%nat) as [Hlen|Hlen].
  - rewrite decide_False by lia. simpl. by rewrite <-(assoc (++)), IH'.
  - assert (length v = 1%nat) as Hlen' by (destruct v; simpl in *; [done|lia]).
    rewrite decide_True by done. simpl. rewrite H1 by done. simpl.
    by rewrite <-Permutation_middle, IH'.
Qed.

End report.

(** ** The whole run *)

Section run.
Context {ImageHash : Type} (hash_sub : ImageHash → ImageHash → Z).
Context (hashes : list (string * ImageHash)).

Lemma edge_in a b :
  edge hash_sub hashes a b → a ∈ hashes.*1 ∧ b ∈ hashes.*1.
Proof.
  intros (i & j & Hi & Hj & _). split; by eapply list_elem_of_lookup_2.
Qed.

(** [cluster] always returns, and its report is the grouping of the domains
    by a root function whose fibres are the components of [edge]. *)
Lemma cluster_spec :
  ∃ root,
    cluster hash_sub hashes
      = Some (report_of (length hashes) (group_by root hashes.*1)) ∧
    (∀ d, d ∈ hashes.*1 → root d ∈ hashes.*1 ∧ root (root d) = root d) ∧
    (∀ a b, a ∈ hashes.*1 → b ∈ hashes.*1 →
            root a = root b ↔ rtsc (edge hash_sub hashes) a b).
Proof.
  destruct (union_pass_spec hash_sub hashes)
    as ([parent rank] & Hpass & [Hinv Hsound] & Hcomplete).
  simpl in *. exists (root_fn hashes.*1 parent).
  destruct (group_pass_spec hashes.*1 parent rank Hinv) as [parent' Hgroup].
  assert (∀ d, d ∈ hashes.*1 →
            root_of parent d (root_fn hashes.*1 parent d)) as Hroot.
  { intros d Hd. by eapply root_fn_spec. }
  split_and!.
  - unfold cluster. rewrite Hpass. simpl. by rewrite Hgroup.
  - intros d Hd. pose proof (Hroot d Hd) as Hr.
    pose proof (root_of_in _ _ _ _ _ Hinv Hd Hr) as HrD. split; [done|].
    eapply root_of_fun; [by apply Hroot|].
    constructor. by eapply root_of_is_root.
  - intros a b Ha Hb. split.
    + intros Hab. etrans; [by apply Hsound, Hroot|].
      rewrite Hab. symmetry. by apply Hsound, Hroot.
    + intros Hab. induction Hab as [a|a y b Hay Hyb IH]; [done|].
      assert (y ∈ hashes.*1) as Hy.
      { destruct Hay as [?%edge_in|?%edge_in]; tauto. }
      rewrite <-IH by done.
      assert (same_root parent a y) as (r & Har & Hyr).
      { destruct Hay as [Hay|Hay]; [by apply Hcomplete|].
        destruct (Hcomplete _ _ Hay) as (r & ? & ?). by exists r. }
      rewrite (root_of_fun _ _ _ _ (Hroot a Ha) Har).
      by rewrite (root_of_fun _ _ _ _ (Hroot y Hy) Hyr).
Qed.

End run.

(** ** Chains of similar domains *)

Definition same_group (r : report) (a b : string) : Prop :=
  ∃ g, g ∈ groups r ∧ a ∈ g ∧ b ∈ g.

Section chains.
Context {ImageHash : Type} (hash_sub : ImageHash → ImageHash → Z).
Context (hashes : list (string * ImageHash)).
Hypothesis hash_sub_sym : ∀ h1 h2, hash_sub h1 h2 = hash_sub h2 h1.

Lemma close_sym a b : close hash_sub hashes a b → close hash_sub hashes b a.
Proof.
  intros (ha & hb & Ha & Hb & Hd). exists hb, ha. by rewrite hash_sub_sym.
Qed.

Lemma close_in a b :
  close hash_sub hashes a b → a ∈ hashes.*1 ∧ b ∈ hashes.*1.
Proof.
  intros (ha & hb & Ha & Hb & _). split; apply dict_get_is_Some; eauto.
Qed.

Lemma rtsc_edge_rtc_close a b :
  rtsc (edge hash_sub hashes) a b ↔ rtc (close hash_sub hashes) a b.
Proof.
  split.
  - induction 1 as [a|a y b Hay _ IH]; [done|].
    apply rtc_l with y; [|done].
    destruct Hay as [(_ & _ & _ & _ & _ & Hc)|(_ & _ & _ & _ & _ & Hc)];
      [done|by apply close_sym].
  - induction 1 as [a|a y b Hay _ IH]; [done|].
    etrans; [|exact IH].
    destruct (close_in _ _ Hay) as
      [[i Hi]%list_elem_of_lookup [j Hj]%list_elem_of_lookup].
    destruct (Nat.lt_total i j) as [Hij|[->|Hij]].
    + apply rtsc_lr. by exists i, j.
    + by simplify_eq.
    + apply rtsc_rl. exists j, i. split_and!; [done..|by apply close_sym].
Qed.

End chains.

(** ** Claims about the clustering engine *)

(** C1. For every mapping from domains to hashes (distinct keys, symmetric
    distance), the run returns a report in which two domains share an output
    group exactly when a chain of domains joins them whose consecutive
    distances are at most [HASH_THRESHOLD]. The bound is inclusive: a pair at
    distance exactly [HASH_THRESHOLD] shares a group. Three domains at
    distances A-B = 5, B-C = 6, A-C = 15 form the one cluster [{A, B, C}]
    and leave no singleton. *)
Theorem cluster_connectivity {ImageHash : Type}
    (hash_sub : ImageHash → ImageHash → Z)
    (hashes : list (string * ImageHash)) :
  (∀ h1 h2, hash_sub h1 h2 = hash_sub h2 h1) →
  NoDup hashes.*1 →
  ∃ r, cluster hash_sub hashes = Some r ∧
    (∀ a b, a ∈ hashes.*1 → b ∈ hashes.*1 →
       same_group r a b ↔ rtc (close hash_sub hashes) a b) ∧
    (∀ a b ha hb,
       dict_get hashes a = Some ha → dict_get hashes b = Some hb →
       hash_sub ha hb = HASH_THRESHOLD → same_group r a b) ∧
    (∀ A B C hA hB hC,
       hashes = [(A, hA); (B, hB); (C, hC)] →
       hash_sub hA hB = 5 → hash_sub hB hC = 6 → hash_sub hA hC = 15 →
       report_clusters r = [py_sorted String.le id [A; B; C]] ∧
       report_singletons r = []).
Proof.
  intros Hsym Hnd.
  destruct (cluster_spec hash_sub hashes) as (root & Hrun & Hclosed & Hroot).
  eexists. split; [exact Hrun|].
  assert (∀ a b, a ∈ hashes.*1 → b ∈ hashes.*1 →
            same_group (report_of (length hashes) (group_by root hashes.*1)) a b
            ↔ rtc (close hash_sub hashes) a b) as Hiff.
  { intros a b Ha Hb. unfold same_group.
    rewrite (same_group_root root hashes.*1 _ Hclosed a b Ha Hb).
    rewrite (Hroot a b Ha Hb). by apply rtsc_edge_rtc_close. }
  split_and!; [done| |].
  - intros a b ha hb Ha Hb Hd.
    assert (close hash_sub hashes a b) as Hc.
    { exists ha, hb. split_and!; [done..|]. rewrite Hd. done. }
    destruct (close_in _ _ _ _ Hc). apply Hiff; [done..|]. by apply rtc_once.
  - intros A B C hA hB hC -> HAB HBC HAC.
    apply NoDup_cons in Hnd as [HA [HB _]%NoDup_cons].
    apply not_elem_of_cons in HA as [HAB' [HAC' _]%not_elem_of_cons].
    apply not_elem_of_cons in HB as [HBC' _].
    assert (root A = root B) as HrAB.
    { apply Hroot; [set_solver..|]. apply rtsc_lr. exists 0%nat, 1%nat.
      split_and!; [done|done|lia|]. exists hA, hB. simpl.
      rewrite !decide_True, !decide_False by done.
      rewrite decide_True by done. split_and!; [done..|].
      rewrite HAB. unfold HASH_THRESHOLD. lia. }
    assert (root B = root C) as HrBC.
    { apply Hroot; [set_solver..|]. apply rtsc_lr. exists 1%nat, 2%nat.
      split_and!; [done|done|lia|]. exists hB, hC. simpl.
      rewrite !decide_False by done. rewrite !decide_True by done.
      rewrite !decide_False by done. rewrite !decide_True by done.
      split_and!; [done..|].
      rewrite HBC. unfold HASH_THRESHOLD. lia. }
    assert (group_by root [A; B; C] = [(root A, [A; B; C])]) as HG.
    { unfold group_by. simpl. rewrite <-HrBC, <-HrAB.
      rewrite decide_True by done. simpl. by rewrite decide_True. }
    change ([(A, hA); (B, hB); (C, hC)].*1) with [A; B; C]. by rewrite HG.
Qed.

Lemma NoDup_concat_lookup {A} (L : list (list A)) i j g g' d :
  NoDup (concat L) → L !! i = Some g → L !! j = Some g' →
  d ∈ g → d ∈ g' → i = j.
Proof.
  revert i j. induction L as [|g0 L IH]; intros i j Hnd Hi Hj Hd Hd'; [done|].
  simpl in Hnd. apply NoDup_app in Hnd as (_ & Hdisj & HL).
  assert (∀ k h, L !! k = Some h → d ∈ h → d ∈ concat L) as Hin.
  { intros k h Hk Hh. apply elem_of_concat. exists h. split; [done|].
    by eapply list_elem_of_lookup_2. }
  destruct i as [|i], j as [|j]; simplify_eq/=; [done| | |].
  - destruct (Hdisj d); eauto.
  - destruct (Hdisj d); eauto.
  - f_equal. by eapply IH.
Qed.

(** C5. For every mapping from domains to hashes, the output groups (the
    clusters followed by the singletons) are a partition of the input
    domains: listed together they are a rearrangement of the duplicate-free
    domain list, so each domain with a hash is in exactly one group, none is
    repeated or dropped, and a domain without a hash is in no group. *)
Theorem cluster_partition {ImageHash : Type}
    (hash_sub : ImageHash → ImageHash → Z)
    (hashes : list (string * ImageHash)) :
  NoDup hashes.*1 →
  ∃ r, cluster hash_sub hashes = Some r ∧
    concat (groups r) ≡ₚ hashes.*1 ∧
    NoDup (concat (groups r)) ∧
    (∀ d, d ∈ hashes.*1 →
       ∃ i g, groups r !! i = Some g ∧ d ∈ g ∧
              ∀ j g', groups r !! j = Some g' → d ∈ g' → j = i) ∧
    (∀ d g, d ∉ hashes.*1 → g ∈ groups r → d ∉ g) ∧
    (∀ g, g ∈ report_clusters r → (2 ≤ length g)%nat).
Proof.
  intros Hnd.
  destruct (cluster_spec hash_sub hashes) as (root & Hrun & Hclosed & _).
  eexists. split; [exact Hrun|].
  pose proof (groups_perm root hashes.*1 (length hashes) Hclosed) as Hperm.
  assert (NoDup (concat (groups (report_of (length hashes)
            (group_by root hashes.*1))))) as Hnd' by (by rewrite Hperm).
  split_and!; [done|done| | |].
  - intros d Hd. rewrite <-Hperm in Hd.
    apply elem_of_concat in Hd as (g & Hdg & [i Hi]%list_elem_of_lookup).
    exists i, g. split_and!; [done..|].
    intros j g' Hj Hdg'. by eapply NoDup_concat_lookup.
  - intros d g Hd Hg Hdg. apply Hd. rewrite <-Hperm.
    apply elem_of_concat. eauto.
  - intros g (k & v & _ & Hlen & ->)%elem_of_report_clusters.
    rewrite py_sorted_perm. lia.
Qed.

Lemma rtsc_leave {A} (R : relation A) `{!EqDecision A} (a b : A) :
  rtsc R a b → a ≠ b → ∃ e, e ≠ a ∧ sc R a e ∧ rtsc R e b.
Proof.
  induction 1 as [a|a y b Hay Hyb IH]; intros Hab; [done|].
  destruct (decide (y = a)) as [->|Hya]; [by apply IH|].
  by exists y.
Qed.

(** C10. In every clustering report, each member of a cluster of two or
    more domains has another member of the same cluster whose compared
    distance to it is at most [HASH_THRESHOLD]. *)
Theorem cluster_member_has_neighbour {ImageHash : Type}
    (hash_sub : ImageHash → ImageHash → Z)
    (hashes : list (string * ImageHash)) :
  NoDup hashes.*1 →
  ∃ r, cluster hash_sub hashes = Some r ∧
    ∀ g a, g ∈ report_clusters r → a ∈ g →
      ∃ b, b ∈ g ∧ b ≠ a ∧
           (close hash_sub hashes a b ∨ close hash_sub hashes b a).
Proof.
  intros Hnd.
  destruct (cluster_spec hash_sub hashes) as (root & Hrun & Hclosed & Hroot).
  eexists. split; [exact Hrun|].
  intros g a (k & v & Hin & Hlen & ->)%elem_of_report_clusters Ha.
  rewrite py_sorted_perm in Ha.
  destruct (grouped_members _ _ _ (group_by_grouped root hashes.*1) k v Hin)
    as [_ Hv].
  assert (NoDup v) as Hndv by (rewrite Hv; by apply NoDup_filter).
  assert (∃ b, b ∈ v ∧ b ≠ a) as (b & Hb & Hba).
  { destruct v as [|x [|y v']]; simpl in Hlen; [lia..|].
    destruct (decide (x = a)) as [->|Hxa].
    - exists y. split; [set_solver|]. intros ->.
      apply NoDup_cons in Hndv as [Hx _]. apply Hx. left.
    - exists x. split; [left|done]. }
  assert (∀ x, x ∈ v ↔ root x = k ∧ x ∈ hashes.*1) as Hmem.
  { intros x. rewrite Hv at 1.
    exact (list_elem_of_filter (λ d, root d = k) _ x). }
  apply Hmem in Ha as [Hak HaD]. apply Hmem in Hb as [Hbk HbD].
  assert (rtsc (edge hash_sub hashes) a b) as Hab.
  { apply Hroot; [done..|congruence]. }
  destruct (rtsc_leave _ a b Hab) as (e & Hea & Hae & _); [done|].
  assert (e ∈ hashes.*1) as HeD.
  { destruct Hae as [?%edge_in|?%edge_in]; tauto. }
  exists e. split_and!; [|done|].
  - rewrite py_sorted_perm. apply Hmem. split; [|done].
    rewrite <-Hak. symmetry. apply Hroot; [done..|].
    by apply rtc_once.
  - destruct Hae as [(_ & _ & _ & _ & _ & Hc)|(_ & _ & _ & _ & _ & Hc)]; auto.
Qed.

Lemma StronglySorted_filter {A} (R : relation A) (P : A → Prop)
    `{!∀ x, Decision (P x)} (l : list A) :
  StronglySorted R l → StronglySorted R (filter P l).
Proof.
  induction 1 as [|x l Hl IH Hx]; [constructor|].
  rewrite filter_cons. case_decide; [|done].
  constructor; [done|]. apply Forall_forall.
  intros y [_ Hy]%list_elem_of_filter. by eapply Forall_forall in Hx.
Qed.

Lemma first_before_perm l v1 v1' v2 v2' :
  v1 ≡ₚ v1' → v2 ≡ₚ v2' → first_before l v1 v2 → first_before l v1' v2'.
Proof.
  intros H1 H2 (a & Ha & Hb). exists a. split; [by rewrite <-H1|].
  intros b Hb'. apply Hb. by rewrite H2.
Qed.

(** The order in which the clusters are written: larger clusters first,
    and of two clusters of one size the one met first in the input. *)
Definition cluster_order (domains : list string) (c1 c2 : list string) : Prop :=
  (length c2 < length c1)%nat ∨
  (length c1 = length c2 ∧ first_before domains c1 c2).

Lemma report_of_sorted root D n :
  StronglySorted (cluster_order D)
    (report_clusters (report_of n (group_by root D))) ∧
  Forall (StronglySorted String.le)
    (report_clusters (report_of n (group_by root D))) ∧
  StronglySorted String.le (report_singletons (report_of n (group_by root D))).
Proof.
  simpl. split_and!.
  - eapply StronglySorted_fmap;
      [|apply (py_sorted_stable Z.le _
                 (λ kv1 kv2, first_before D kv1.2 kv2.2)),
         StronglySorted_filter,
         (grouped_order _ _ _ (group_by_grouped root D))].
    intros [k1 v1] [k2 v2] [Hle Htie]. simpl in *. unfold cluster_order.
    rewrite !(Permutation_length (py_sorted_perm String.le id _)).
    destruct (decide (length v1 = length v2)) as [Heq|Hne]; [|left; lia].
    right. split; [done|].
    eapply first_before_perm; [symmetry; apply py_sorted_perm..|].
    apply Htie. lia.
  - apply Forall_fmap, Forall_forall. intros [k v] _. simpl.
    apply (py_sorted_sorted String.le id).
  - apply (py_sorted_sorted String.le id).
Qed.

(** ** Iteration order of the input mapping *)

Lemma dict_get_Some_elem {V} (d : list (string * V)) k v :
  NoDup d.*1 → dict_get d k = Some v ↔ (k, v) ∈ d.
Proof.
  induction d as [|[k0 v0] d IH]; simpl.
  - intros _. split; [done|]. by intros ?%elem_of_nil.
  - intros [Hk0 Hd]%NoDup_cons. rewrite elem_of_cons, <-IH by done.
    destruct (decide (k0 = k)) as [->|Hne].
    + split; [intros [= ->]; by left|].
      intros [[= ->]|Hget]; [done|].
      destruct Hk0. apply dict_get_is_Some. eauto.
    + split; [by right|]. intros [[= -> ->]|?]; done.
Qed.

Lemma dict_get_perm {V} (d d' : list (string * V)) k :
  NoDup d.*1 → d ≡ₚ d' → dict_get d k = dict_get d' k.
Proof.
  intros Hnd Hperm.
  assert (NoDup d'.*1) as Hnd' by (by rewrite <-Hperm).
  destruct (dict_get d k) as [v|] eqn:Hv.
  - symmetry. apply dict_get_Some_elem; [done|]. rewrite <-Hperm.
    by apply dict_get_Some_elem.
  - destruct (dict_get d' k) as [v'|] eqn:Hv'; [|done].
    apply dict_get_Some_elem in Hv'; [|done]. rewrite <-Hperm in Hv'.
    apply dict_get_Some_elem in Hv'; [|done]. congruence.
Qed.

Lemma NoDup_concat_members {A} (L : list (list A)) :
  NoDup (concat L) → (∀ g, g ∈ L → g ≠ []) → NoDup L.
Proof.
  induction L as [|g L IH]; intros Hnd Hne; [constructor|].
  simpl in Hnd. apply NoDup_app in Hnd as (_ & Hdisj & HL).
  constructor.
  - intros Hg. destruct g as [|x g]; [destruct (Hne []); [left|done]|].
    apply (Hdisj x); [left|]. apply elem_of_concat. exists (x :: g).
    split; [left|done].
  - apply IH; [done|]. intros g' Hg'. apply Hne. by right.
Qed.

Lemma StronglySorted_strict_sizes domains (l : list (list string)) :
  StronglySorted (cluster_order domains) l → NoDup (length <$> l) →
  StronglySorted (λ c1 c2, (length c2 < length c1)%nat) l.
Proof.
  induction 1 as [|c l Hl IH Hc]; intros Hnd; [constructor|].
  rewrite fmap_cons in Hnd. apply NoDup_cons in Hnd as [Hlen Hnd].
  constructor; [by apply IH|]. apply Forall_forall. intros c' Hc'.
  eapply Forall_forall in Hc as [?|[Heq _]]; [done| |done].
  destruct Hlen. rewrite Heq. apply list_elem_of_fmap. by exists c'.
Qed.

Section components.
Context (root : string → string) (D : list string) (n : nat).
Hypothesis root_closed : ∀ d, d ∈ D → root d ∈ D ∧ root (root d) = root d.

(** The domains that share the root of [a]. *)
Definition component (a : string) : list string :=
  filter (λ x, root x = root a) D.

Lemma group_component a :
  a ∈ D → (root a, component a) ∈ group_by root D.
Proof.
  intros Ha. pose proof (group_by_grouped root D) as HG.
  pose proof (grouped_keys _ _ _ HG a Ha) as Hk.
  apply list_elem_of_fmap in Hk as ([k v] & Hk & Hin). simpl in Hk. subst k.
  by destruct (grouped_members _ _ _ HG _ v Hin) as [_ ->].
Qed.

Lemma group_is_component k v :
  (k, v) ∈ group_by root D → k ∈ D ∧ v = component k.
Proof.
  intros Hin. pose proof (group_key_member root D root_closed k v Hin) as Hk.
  destruct (grouped_members _ _ _ (group_by_grouped root D) k v Hin)
    as [_ Hv].
  rewrite Hv in Hk. apply list_elem_of_filter in Hk as [Hkk HkD].
  split; [done|]. unfold component. by rewrite Hkk.
Qed.

Lemma report_clusters_components g :
  g ∈ report_clusters (report_of n (group_by root D)) ↔
  ∃ a, a ∈ D ∧ (1 < length (component a))%nat ∧
       g = py_sorted String.le id (component a).
Proof.
  rewrite elem_of_report_clusters. split.
  - intros (k & v & Hin & Hlen & ->).
    destruct (group_is_component k v Hin) as [HkD ->]. by exists k.
  - intros (a & Ha & Hlen & ->). exists (root a), (component a).
    split; [by apply group_component|done].
Qed.

Lemma report_singletons_components d :
  d ∈ report_singletons (report_of n (group_by root D)) ↔
  d ∈ D ∧ length (component d) = 1%nat.
Proof.
  rewrite (elem_of_report_singletons root D n root_closed). split.
  - intros Hin. destruct (group_is_component d [d] Hin) as [HdD Hc].
    split; [done|]. by rewrite <-Hc.
  - intros [Hd Hlen]. pose proof (group_component d Hd) as Hin.
    pose proof (group_singleton root D root_closed _ _ Hin Hlen) as Hc.
    assert (d ∈ component d) as Hdc by (by apply list_elem_of_filter).
    rewrite Hc in Hdc. apply list_elem_of_singleton in Hdc as ->.
    by rewrite Hc in Hin.
Qed.

End components.

Lemma report_clusters_nodup root D n :
  (∀ d, d ∈ D → root d ∈ D ∧ root (root d) = root d) → NoDup D →
  NoDup (report_clusters (report_of n (group_by root D))) ∧
  NoDup (report_singletons (report_of n (group_by root D))).
Proof.
  intros Hclosed Hnd.
  pose proof (groups_perm root D n Hclosed) as Hperm.
  rewrite <-Hperm in Hnd. unfold groups in Hnd.
  rewrite concat_app, concat_singletons in Hnd.
  apply NoDup_app in Hnd as (Hc & _ & Hs). split; [|done].
  apply NoDup_concat_members; [done|].
  intros g (k & v & _ & Hlen & ->)%elem_of_report_clusters Hnil.
  apply (f_equal length) in Hnil.
  rewrite (Permutation_length (py_sorted_perm String.le id v)) in Hnil.
  simpl in Hnil. lia.
Qed.

Section reorder.
Context {ImageHash : Type} (hash_sub : ImageHash → ImageHash → Z).
Context (hashes hashes' : list (string * ImageHash)).
Hypothesis hash_sub_sym : ∀ h1 h2, hash_sub h1 h2 = hash_sub h2 h1.
Hypothesis keys_nodup : NoDup hashes.*1.
Hypothesis reordered : hashes ≡ₚ hashes'.

Lemma close_reordered a b :
  close hash_sub hashes a b ↔ close hash_sub hashes' a b.
Proof.
  unfold close.
  by setoid_rewrite (dict_get_perm hashes hashes' _ keys_nodup reordered).
Qed.

Lemma chain_reordered a b :
  rtc (close hash_sub hashes) a b ↔ rtc (close hash_sub hashes') a b.
Proof.
  split; apply rtc_subrel; intros x y; by rewrite close_reordered.
Qed.

(** Reading the same mapping in another order gives the same singletons
    and the same clusters, up to the order of the clusters; the reports
    are equal when no two clusters have the same size. *)
Lemma report_reordered root root' :
  (∀ d, d ∈ hashes.*1 → root d ∈ hashes.*1 ∧ root (root d) = root d) →
  (∀ a b, a ∈ hashes.*1 → b ∈ hashes.*1 →
          root a = root b ↔ rtsc (edge hash_sub hashes) a b) →
  (∀ d, d ∈ hashes'.*1 → root' d ∈ hashes'.*1 ∧ root' (root' d) = root' d) →
  (∀ a b, a ∈ hashes'.*1 → b ∈ hashes'.*1 →
          root' a = root' b ↔ rtsc (edge hash_sub hashes') a b) →
  let r := report_of (length hashes) (group_by root hashes.*1) in
  let r' := report_of (length hashes') (group_by root' hashes'.*1) in
  report_clusters r ≡ₚ report_clusters r' ∧
  report_singletons r = report_singletons r' ∧
  (NoDup (length <$> report_clusters r) → r = r').
Proof.
  intros Hclosed Hroot Hclosed' Hroot' r r'.
  assert (hashes.*1 ≡ₚ hashes'.*1) as HD by (by rewrite reordered).
  assert (NoDup hashes'.*1) as keys_nodup' by (by rewrite <-HD).
  assert (∀ x, x ∈ hashes.*1 ↔ x ∈ hashes'.*1) as HinD
    by (intros x; by rewrite HD).
  assert (∀ a b, a ∈ hashes.*1 → b ∈ hashes.*1 →
            root a = root b ↔ root' a = root' b) as Hsame.
  { intros a b Ha Hb.
    rewrite (Hroot a b Ha Hb), (Hroot' a b) by (by apply HinD).
    rewrite !rtsc_edge_rtc_close by done. apply chain_reordered. }
  assert (∀ a, a ∈ hashes.*1 →
            component root hashes.*1 a ≡ₚ component root' hashes'.*1 a)
    as Hcomp.
  { intros a Ha. apply NoDup_Permutation; [by apply NoDup_filter..|].
    intros x. unfold component. rewrite !list_elem_of_filter, <-HinD.
    split; intros [Hx HxD]; (split; [|done]); by apply (Hsame x a). }
  assert (∀ a, a ∈ hashes.*1 →
            py_sorted String.le id (component root hashes.*1 a)
            = py_sorted String.le id (component root' hashes'.*1 a))
    as Hsorted.
  { intros a Ha. apply (StronglySorted_unique String.le);
      [apply (py_sorted_sorted String.le id)..|].
    by rewrite !py_sorted_perm, Hcomp. }
  destruct (report_clusters_nodup root hashes.*1 (length hashes)
              Hclosed keys_nodup) as [Hndc Hnds].
  destruct (report_clusters_nodup root' hashes'.*1 (length hashes')
              Hclosed' keys_nodup') as [Hndc' Hnds'].
  assert (report_clusters r ≡ₚ report_clusters r') as Hclusters.
  { apply NoDup_Permutation; [done..|]. intros g. unfold r, r'.
    rewrite !report_clusters_components by done. split.
    - intros (a & Ha & Hlen & ->). exists a.
      rewrite <-(Permutation_length (Hcomp a Ha)).
      split_and!; [by apply HinD|done|]. by apply Hsorted.
    - intros (a & Ha & Hlen & ->). apply HinD in Ha. exists a.
      rewrite (Permutation_length (Hcomp a Ha)).
      split_and!; [done..|]. symmetry. by apply Hsorted. }
  assert (report_singletons r = report_singletons r') as Hsingles.
  { apply (StronglySorted_unique String.le);
      [apply (py_sorted_sorted String.le id)..|].
    apply NoDup_Permutation; [done..|]. intros d. unfold r, r'.
    rewrite !report_singletons_components by done. rewrite <-HinD.
    split; intros [Hd Hlen]; (split; [done|]).
    - by rewrite <-(Permutation_length (Hcomp d Hd)).
    - by rewrite (Permutation_length (Hcomp d Hd)). }
  split_and!; [done..|]. intros Hsizes.
  assert (report_clusters r = report_clusters r') as Heq.
  { apply (StronglySorted_unique_strong
             (λ c1 c2 : list string, (length c2 < length c1)%nat));
      [intros; lia| | |done].
    - eapply StronglySorted_strict_sizes; [|done].
      apply report_of_sorted.
    - eapply StronglySorted_strict_sizes; [apply report_of_sorted|].
      by rewrite <-Hclusters. }
  unfold r, r', report_of in *. simpl in *.
  by rewrite Heq, Hsingles, (Permutation_length reordered).
Qed.

End reorder.

(** C6, as amended. In the clustering report the clusters are written by
    descending member count; clusters of equal size keep the order in which
    they are first met when the input mapping is iterated (the sort is
    stable and breaks no tie lexicographically); each member list is sorted
    lexicographically, and so is the list of singletons. Reading the same
    mapping in another iteration order gives the same singleton list and the
    same clusters, in an order that can differ only among clusters of equal
    size: the two reports are equal when no two clusters have the same
    size. *)
Theorem report_order {ImageHash : Type}
    (hash_sub : ImageHash → ImageHash → Z)
    (hashes hashes' : list (string * ImageHash)) :
  (∀ h1 h2, hash_sub h1 h2 = hash_sub h2 h1) →
  NoDup hashes.*1 →
  hashes ≡ₚ hashes' →
  ∃ r r',
    cluster hash_sub hashes = Some r ∧ cluster hash_sub hashes' = Some r' ∧
    StronglySorted (cluster_order hashes.*1) (report_clusters r) ∧
    Forall (StronglySorted String.le) (report_clusters r) ∧
    StronglySorted String.le (report_singletons r) ∧
    report_clusters r ≡ₚ report_clusters r' ∧
    report_singletons r = report_singletons r' ∧
    (NoDup (length <$> report_clusters r) → r = r' ∧ render r = render r').
Proof.
  intros Hsym Hnd Hperm.
  destruct (cluster_spec hash_sub hashes) as (root & Hrun & Hclosed & Hroot).
  destruct (cluster_spec hash_sub hashes')
    as (root' & Hrun' & Hclosed' & Hroot').
  eexists _, _. split; [exact Hrun|]. split; [exact Hrun'|].
  destruct (report_of_sorted root hashes.*1 (length hashes))
    as (Horder & Hmembers & Hsingles).
  destruct (report_reordered hash_sub hashes hashes' Hsym Hnd Hperm
              root root' Hclosed Hroot Hclosed' Hroot')
    as (Hclusters & Hsame & Hequal).
  split_and!; [done..|]. intros Hsizes.
  specialize (Hequal Hsizes). split; [done|]. by rewrite Hequal.
Qed.


(** The mapping that [main] builds has distinct keys. *)
Lemma hashes_of_entries_nodup {H} (hash_of : string → option H) entries :
  NoDup (hashes_of_entries hash_of entries).*1.
Proof.
  unfold hashes_of_entries.
  assert (∀ init : list (string * H), NoDup init.*1 →
            NoDup (foldl (λ hashes '(domain, file_path),
                            match hash_of file_path with
                            | Some h => dict_set hashes domain h
                            | None => hashes
                            end) init entries).*1) as Hgen.
  { induction entries as [|[domain file_path] entries IH]; intros init Hinit;
      [done|].
    simpl. apply IH. destruct (hash_of file_path); [|done].
    rewrite dict_set_keys. case_decide; [done|].
    apply NoDup_app. split_and!; [done| |apply NoDup_singleton].
    by intros x Hx ->%list_elem_of_singleton. }
  apply Hgen. constructor.
Qed.

(** ** Sample runs *)

Example sample_run :
  cluster phash_sub sample_hashes
  = Some {| total_logos := 4;
            report_clusters := [["a.com"; "b.com"; "c.com"]];
            report_singletons := ["d.com"] |}.
Proof. vm_compute. reflexivity. Qed.

Example table_run :
  cluster table_sub abc_by_table
  = Some {| total_logos := 3;
            report_clusters := [["a.com"; "b.com"; "c.com"]];
            report_singletons := [] |}.
Proof. vm_compute. reflexivity. Qed.

Lemma phash_sub_sym a b : phash_sub a b = phash_sub b a.
Proof. unfold phash_sub. by rewrite Z.lxor_comm. Qed.

Lemma table_sub_sym h1 h2 : table_sub h1 h2 = table_sub h2 h1.
Proof.
  unfold table_sub. rewrite (Nat.min_comm h2), (Nat.max_comm h2).
  destruct (decide (h1 = h2)), (decide (h2 = h1)); congruence.
Qed.

Lemma cluster_connectivity_witness :
  ∃ r, cluster table_sub abc_by_table = Some r ∧
       report_clusters r = [["a.com"; "b.com"; "c.com"]] ∧
       report_singletons r = [] ∧
       same_group r "a.com" "c.com".
Proof.
  assert (NoDup abc_by_table.*1) as Hnd
    by (apply (bool_decide_unpack _); vm_compute; exact I).
  destruct (cluster_connectivity table_sub abc_by_table table_sub_sym Hnd)
    as (r & Hr & Hiff & _ & Habc).
  destruct (Habc "a.com" "b.com" "c.com" 0%nat 1%nat 2%nat)
    as [Hc Hs]; [reflexivity..|].
  exists r. split_and!; [done..|].
  apply Hiff; [set_solver..|].
  apply rtc_l with "b.com"; [|apply rtc_once];
    eexists _, _; (split_and!; [reflexivity..|]); vm_compute; discriminate.
Defined.

Lemma cluster_partition_witness :
  ∃ r, cluster phash_sub sample_hashes = Some r ∧
       concat (groups r) ≡ₚ ["a.com"; "b.com"; "c.com"; "d.com"].
Proof.
  assert (NoDup sample_hashes.*1) as Hnd
    by (apply (bool_decide_unpack _); vm_compute; exact I).
  destruct (cluster_partition phash_sub sample_hashes Hnd)
    as (r & Hr & Hperm & _).
  by exists r.
Defined.

Lemma cluster_member_has_neighbour_witness :
  ∃ r, cluster phash_sub sample_hashes = Some r ∧
    ∀ g a, g ∈ report_clusters r → a ∈ g →
      ∃ b, b ∈ g ∧ b ≠ a ∧
           (close phash_sub sample_hashes a b ∨
            close phash_sub sample_hashes b a).
Proof.
  apply (cluster_member_has_neighbour phash_sub sample_hashes).
  apply (bool_decide_unpack _); vm_compute; exact I.
Defined.

Lemma report_order_witness :
  ∃ r r',
    cluster phash_sub pairs_ab_first = Some r ∧
    cluster phash_sub pairs_cd_first = Some r' ∧
    report_clusters r ≡ₚ report_clusters r' ∧
    report_singletons r = report_singletons r'.
Proof.
  assert (NoDup pairs_ab_first.*1) as Hnd
    by (apply (bool_decide_unpack _); vm_compute; exact I).
  assert (pairs_ab_first ≡ₚ pairs_cd_first) as Hperm.
  { apply (Permutation_app_comm
             [("a.com", 0); ("b.com", 1)]
             [("c.com", 4294967295); ("d.com", 4294967294)]). }
  destruct (report_order phash_sub pairs_ab_first pairs_cd_first
              phash_sub_sym Hnd Hperm)
    as (r & r' & Hr & Hr' & _ & _ & _ & Hclusters & Hsingles & _).
  by exists r, r'.
Defined.

(** C6, counterexample. The same mapping in two iteration orders: both
    reports hold the clusters [{a.com, b.com}] and [{c.com, d.com}], of equal
    size, but the second report writes [{c.com, d.com}] first, so the tie
    is not broken lexicographically and the two report texts differ. *)
Lemma report_order_counterexample :
  pairs_ab_first ≡ₚ pairs_cd_first ∧
  ∃ r1 r2,
    cluster phash_sub pairs_ab_first = Some r1 ∧
    cluster phash_sub pairs_cd_first = Some r2 ∧
    report_clusters r1 = [["a.com"; "b.com"]; ["c.com"; "d.com"]] ∧
    report_clusters r2 = [["c.com"; "d.com"]; ["a.com"; "b.com"]] ∧
    render r1 ≠ render r2.
Proof.
  split.
  - apply (Permutation_app_comm
             [("a.com", 0); ("b.com", 1)]
             [("c.com", 4294967295); ("d.com", 4294967294)]).
  - eexists _, _. split_and!; [vm_compute; reflexivity..|].
    vm_compute. discriminate.
Qed.

End ClusterFacts.

(** * Properties of the candidate scorer *)

Module ScorerFacts.
Import Scorer PyFacts.

(** ** Merging detections *)

(** One call of [update_candidate]: the URL as found, the score, the reason. *)
Definition call : Type := string * Z * string.

(** What a call does to the record of its URL. *)
Definition merge (c : candidate) (d : call) : candidate :=
  Candidate (if decide (d.1.2 > score c) then d.1.2 else score c)
            (set_add (reasons c) d.2).

Definition fresh : candidate := Candidate 0 [].

Section merging.
Variable urljoin : string → string → option string.
Variable base_url : string.

Definition apply_call (candidates : list (string * candidate)) (d : call)
  : list (string * candidate) :=
  update_candidate urljoin base_url candidates d.1.1 d.1.2 d.2.

Definition apply_calls (candidates : list (string * candidate))
    (calls : list call) : list (string * candidate) :=
  foldl apply_call candidates calls.

(** The calls whose URL normalises to [u]. *)
Definition hits (u : string) (calls : list call) : list call :=
  filter (λ d, normalize_url urljoin base_url d.1.1 = Some u) calls.

Lemma apply_call_lookup candidates d u :
  dict_get (apply_call candidates d) u
  = if decide (normalize_url urljoin base_url d.1.1 = Some u)
    then Some (merge (default fresh (dict_get candidates u)) d)
    else dict_get candidates u.
Proof.
  unfold apply_call, update_candidate.
  destruct (normalize_url urljoin base_url d.1.1) as [v|] eqn:Hv.
  - rewrite dict_get_set.
    destruct (decide (v = u)) as [->|Hvu];
      destruct (decide (Some _ = Some u)); by simplify_eq.
  - by destruct (decide (None = Some u)).
Qed.

Lemma apply_calls_lookup calls candidates u :
  dict_get (apply_calls candidates calls) u
  = match hits u calls with
    | [] => dict_get candidates u
    | hs => Some (foldl merge (default fresh (dict_get candidates u)) hs)
    end.
Proof.
  unfold apply_calls, hits. revert candidates.
  induction calls as [|d calls IH]; intros candidates; [done|].
  simpl. rewrite IH, filter_cons, apply_call_lookup.
  destruct (decide (normalize_url urljoin base_url d.1.1 = Some u)); [|done].
  assert (∀ (hs : list call) c,
            match hs with
            | [] => Some c
            | h :: l => Some (foldl merge (default fresh (Some c)) (h :: l))
            end = Some (foldl merge c hs)) as Hhs by (by intros []).
  apply Hhs.
Qed.

Lemma apply_calls_keys calls candidates u :
  u ∈ (apply_calls candidates calls).*1 ↔ u ∈ candidates.*1 ∨ hits u calls ≠ [].
Proof.
  rewrite <-!dict_get_is_Some, apply_calls_lookup.
  destruct (hits u calls); [|split; eauto].
  split; [auto|]. by intros [?|?].
Qed.

End merging.

Lemma merge_all_score c hs :
  score c ≤ score (foldl merge c hs) ∧
  (∀ d, d ∈ hs → d.1.2 ≤ score (foldl merge c hs)) ∧
  (score (foldl merge c hs) = score c ∨
   ∃ d, d ∈ hs ∧ score (foldl merge c hs) = d.1.2).
Proof.
  revert c. induction hs as [|d hs IH]; intros c; simpl.
  - split_and!; [lia| |by left]. intros d Hd. by apply elem_of_nil in Hd.
  - destruct (IH (merge c d)) as (Hle & Hall & Hex).
    assert (score c ≤ score (merge c d) ∧ d.1.2 ≤ score (merge c d)
            ∧ (score (merge c d) = score c ∨ score (merge c d) = d.1.2))
      as (H1 & H2 & H3).
    { unfold merge. simpl. case_decide; lia. }
    split_and!.
    + lia.
    + intros d' [->|Hd']%elem_of_cons; [lia|by apply Hall].
    + destruct Hex as [Heq|(d' & Hd' & Heq)].
      * rewrite Heq. destruct H3 as [?|?]; [by left|].
        right. exists d. split; [left|done].
      * right. exists d'. split; [by right|done].
Qed.

Lemma set_add_elem s x y : y ∈ set_add s x ↔ y ∈ s ∨ y = x.
Proof.
  unfold set_add. case_decide.
  - split; [auto|]. by intros [?| ->].
  - rewrite elem_of_app, list_elem_of_singleton. done.
Qed.

Lemma set_add_nodup s x : NoDup s → NoDup (set_add s x).
Proof.
  intros Hs. unfold set_add. case_decide; [done|].
  apply NoDup_app. split_and!; [done| |apply NoDup_singleton].
  by intros y Hy ->%list_elem_of_singleton.
Qed.

Lemma merge_all_reasons c hs r :
  r ∈ reasons (foldl merge c hs) ↔ r ∈ reasons c ∨ ∃ d, d ∈ hs ∧ d.2 = r.
Proof.
  revert c. induction hs as [|d hs IH]; intros c; simpl.
  - split; [auto|]. intros [?|(d & Hd & _)]; [done|].
    by apply elem_of_nil in Hd.
  - rewrite IH. simpl. rewrite set_add_elem. split.
    + intros [[?| ->]|(d' & Hd' & <-)]; [by left| |].
      * right. exists d. split; [left|done].
      * right. exists d'. split; [by right|done].
    + intros [?|(d' & [->|Hd']%elem_of_cons & <-)].
      * by left; left.
      * by left; right.
      * right. by exists d'.
Qed.


(** ** The calls made by one pass over a page *)

Section trace.
Variable urljoin : string → string → option string.
Variable urlparse : string → option parsed.
Variable json_loads : string → option json.

(** The calls of the loop over [logos], up to the value that raises. *)
Fixpoint logo_calls (logos : list json) : list call :=
  match logos with
  | [] => []
  | JStr s :: logos => (s, 60, "Schema.org Organization") :: logo_calls logos
  | v :: logos => if truthy v then [] else logo_calls logos
  end.

Definition script_calls (script : element) : list call :=
  match tag_string (el_contents script) with
  | Some text =>
      if decide (text = "") then []
      else match json_loads text with
           | Some data => logo_calls (find_logo data)
           | None => []
           end
  | None => []
  end.

Definition link_calls (link : element) : list call :=
  match get_str_attr (el_attrs link) "href" with
  | Some href =>
      if decide (href = "") then [] else [(href, 10, "Favicon/Touch Icon")]
  | None => []
  end.

Definition og_image_calls (soup : list node) : list call :=
  match find_all_attr soup "meta" "property"
          (λ v, bool_decide (v = "og:image")) with
  | og_image :: _ =>
      match get_str_attr (el_attrs og_image) "content" with
      | Some content =>
          if decide (content = "") then []
          else [(content, 5, "OpenGraph Image")]
      | None => []
      end
  | [] => []
  end.

Definition image_calls (base_url domain_stem : string) (img : element)
  : option (list call) :=
  match get (el_attrs img) "src" with
  | Some (AttrStr src) =>
      if decide (src = "") then Some []
      else
        '(score, reasons) ← score_image urljoin urlparse base_url domain_stem
                               img src;
        Some [(src, score, Str.join ", " reasons)]
  | _ => Some []
  end.

(** Every call of [update_candidate] that [analyze_html] makes, in order;
    [None] when an image makes [is_home_link] raise. *)
Definition detections (scripts : list element) (soup : list node)
    (base_url : string) : option (list call) :=
  imgs ← mapM (image_calls base_url (extract_domain_stem urlparse base_url))
              (find_all soup "img");
  Some (flat_map script_calls scripts
        ++ flat_map link_calls (find_all_attr soup "link" "rel" rel_is_icon)
        ++ og_image_calls soup
        ++ concat imgs).

Lemma apply_calls_app base_url candidates l1 l2 :
  apply_calls urljoin base_url candidates (l1 ++ l2)
  = apply_calls urljoin base_url (apply_calls urljoin base_url candidates l1) l2.
Proof. apply foldl_app. Qed.

Lemma update_logos_calls base_url candidates logos :
  update_logos urljoin base_url candidates logos
  = apply_calls urljoin base_url candidates (logo_calls logos).
Proof.
  revert candidates. induction logos as [|v logos IH]; intros candidates; [done|].
  destruct v; cbn [update_logos update_logo logo_calls];
    try (destruct (truthy _); [done|apply IH]).
  simpl. apply IH.
Qed.

Lemma scan_script_calls base_url candidates script :
  scan_script urljoin json_loads base_url candidates script
  = apply_calls urljoin base_url candidates (script_calls script).
Proof.
  unfold scan_script, script_calls.
  destruct (tag_string _) as [text|]; [|done].
  case_decide; [done|]. destruct (json_loads text); [|done].
  apply update_logos_calls.
Qed.

Lemma foldl_calls {A} (step : list (string * candidate) → A →
                              list (string * candidate))
    (calls : A → list call) base_url (l : list A) candidates :
  (∀ c x, step c x = apply_calls urljoin base_url c (calls x)) →
  foldl step candidates l
  = apply_calls urljoin base_url candidates (flat_map calls l).
Proof.
  intros Hstep. revert candidates.
  induction l as [|x l IH]; intros candidates; [done|].
  simpl. by rewrite apply_calls_app, IH, Hstep.
Qed.

Lemma scan_link_calls base_url candidates link :
  scan_link urljoin base_url candidates link
  = apply_calls urljoin base_url candidates (link_calls link).
Proof.
  unfold scan_link, link_calls.
  destruct (get_str_attr _ _); [|done]. by case_decide.
Qed.

Lemma scan_og_image_calls base_url soup candidates :
  scan_og_image urljoin base_url soup candidates
  = apply_calls urljoin base_url candidates (og_image_calls soup).
Proof.
  unfold scan_og_image, og_image_calls.
  destruct (find_all_attr _ _ _ _); [done|].
  destruct (get_str_attr _ _); [|done]. by case_decide.
Qed.

Lemma scan_image_calls base_url stem candidates img :
  scan_image urljoin urlparse base_url stem candidates img
  = apply_calls urljoin base_url candidates <$> image_calls base_url stem img.
Proof.
  unfold scan_image, image_calls.
  destruct (get _ _) as [[src|]|]; [|done..].
  case_decide; [done|].
  by destruct (score_image _ _ _ _ _ _) as [[s rs]|].
Qed.

Lemma scan_images_calls base_url stem imgs candidates :
  for_each imgs candidates (scan_image urljoin urlparse base_url stem)
  = (λ l, apply_calls urljoin base_url candidates (concat l))
    <$> mapM (image_calls base_url stem) imgs.
Proof.
  revert candidates. induction imgs as [|img imgs IH]; intros candidates; [done|].
  cbn [for_each]. rewrite scan_image_calls. csimpl.
  destruct (image_calls base_url stem img) as [l|]; [|done]. simpl.
  rewrite IH. destruct (mapM _ imgs) as [ls|]; [|done]. simpl.
  by rewrite apply_calls_app.
Qed.

(** [analyze_html] is the replay of its calls from the empty dictionary. *)
Lemma analyze_detections scripts soup base_url :
  analyze_scripts urljoin urlparse json_loads scripts soup base_url
  = apply_calls urljoin base_url [] <$> detections scripts soup base_url.
Proof.
  unfold analyze_scripts, detections, scan_images, scan_links, scan_scripts.
  rewrite scan_images_calls, scan_og_image_calls.
  rewrite (foldl_calls _ link_calls base_url) by apply scan_link_calls.
  rewrite (foldl_calls _ script_calls base_url) by apply scan_script_calls.
  destruct (mapM _ _) as [ls|]; [|done]. simpl.
  by rewrite !apply_calls_app.
Qed.

End trace.

(** ** Claims about the candidate scorer *)

Lemma analyze_html_replay urljoin urlparse json_loads soup base_url candidates :
  analyze_html urljoin urlparse json_loads soup base_url = Some candidates →
  ∃ calls,
    detections urljoin urlparse json_loads (ld_json_scripts soup) soup base_url
      = Some calls ∧
    candidates = apply_calls urljoin base_url [] calls.
Proof.
  unfold analyze_html. rewrite analyze_detections.
  destruct (detections _ _ _ _ _ _) as [calls|]; [|done].
  intros [= <-]. by exists calls.
Qed.

Lemma score_image_is_Some urljoin urlparse base_url stem img src :
  (∀ href, is_Some (is_home_link urljoin urlparse base_url href)) →
  is_Some (score_image urljoin urlparse base_url stem img src).
Proof.
  intros Hhome. unfold score_image.
  destruct (match filter _ _ with [] => _ | _ => _ end) as [home|] eqn:Heq.
  - simpl. repeat case_match; by eexists.
  - exfalso. destruct (filter _ _) as [|a ?]; [done|].
    destruct (get _ _) as [[h|]|]; [|done..].
    destruct (Hhome h) as [? ?]. congruence.
Qed.

(** [analyze_html] returns whenever [urlparse] raises on no URL. *)
Lemma analyze_html_returns urljoin urlparse json_loads soup base_url :
  (∀ u, is_Some (urlparse u)) →
  is_Some (analyze_html urljoin urlparse json_loads soup base_url).
Proof.
  intros Hparse. unfold analyze_html, analyze_scripts, scan_images.
  apply for_each_is_Some. intros candidates img _. unfold scan_image.
  destruct (get _ _) as [[src|]|]; [|by eexists..].
  case_decide; [by eexists|].
  destruct (score_image_is_Some urljoin urlparse base_url
              (extract_domain_stem urlparse base_url) img src)
    as [[s rs] ->]; [|by eexists].
  intros href. unfold is_home_link. case_decide; [by eexists|].
  destruct (normalize_url _ _ _) as [abs_href|]; [|by eexists].
  destruct (Hparse base_url) as [? ->], (Hparse abs_href) as [? ->].
  by eexists.
Qed.

(** The model of [urllib.parse] on the URLs of the sample pages, as
    CPython 3.11 answers on them. *)
Example urljoin_samples :
  Urllib.urljoin "https://acme.com" "/" = Some "https://acme.com/" ∧
  Urllib.urljoin "https://acme.com" "/logo.png"
    = Some "https://acme.com/logo.png" ∧
  Urllib.urljoin "https://www.acme.com/a/b/c.html" "../x/y.png"
    = Some "https://www.acme.com/a/x/y.png" ∧
  Urllib.urljoin "https://acme.com" "//cdn.acme.com/l.png"
    = Some "https://cdn.acme.com/l.png" ∧
  Urllib.urljoin "https://acme.com" "data:image/png;base64,AAA"
    = Some "data:image/png;base64,AAA" ∧
  Urllib.urljoin "http://x.org/a/b/?q=1#f" "a/./b/../c"
    = Some "http://x.org/a/b/a/c".
Proof. vm_compute. repeat split. Qed.

Example urlparse_samples :
  Urllib.urlparse "https://acme.com" = Some (Parsed "https" "acme.com" "") ∧
  Urllib.urlparse "https://acme.com/" = Some (Parsed "https" "acme.com" "/") ∧
  Urllib.urlparse "acme.com" = Some (Parsed "" "" "acme.com") ∧
  Urllib.urlparse "https://acme.com/x;y?q#f"
    = Some (Parsed "https" "acme.com" "/x").
Proof. vm_compute. repeat split. Qed.

(** No record of the scorer holds a negative score: a record starts at 0
    and its score is only ever raised. *)
Lemma scores_never_negative urljoin urlparse json_loads soup base_url
    candidates u c :
  analyze_html urljoin urlparse json_loads soup base_url = Some candidates →
  dict_get candidates u = Some c → 0 ≤ score c.
Proof.
  intros (calls & _ & ->)%analyze_html_replay.
  rewrite apply_calls_lookup. destruct (hits _ _ _ _) as [|h hs]; [done|].
  intros [= <-]. apply (merge_all_score fresh (h :: hs)).
Qed.

(** The greatest of the scores of the calls [hs]; there is none when no
    call was made. *)
Definition max_score (hs : list call) : option Z :=
  match hs with
  | [] => None
  | h :: hs => Some (foldl (λ m (d : call), Z.max m d.1.2) h.1.2 hs)
  end.

Lemma merge_all_max c hs :
  score (foldl merge c hs)
  = foldl (λ m (d : call), Z.max m d.1.2) (score c) hs.
Proof.
  revert c. induction hs as [|d hs IH]; intros c; [done|].
  simpl. rewrite IH. f_equal. unfold merge. simpl. case_decide; lia.
Qed.

Lemma max_score_from a (h : call) hs :
  foldl (λ m (d : call), Z.max m d.1.2) (Z.max a h.1.2) hs
  = Z.max a (foldl (λ m (d : call), Z.max m d.1.2) h.1.2 hs).
Proof.
  generalize (h.1.2) as b. induction hs as [|d hs IH]; intros b; [done|].
  simpl. by rewrite <-Z.max_assoc, IH.
Qed.

(** What the code does when detections meet on one URL: the record holds
    the labels of the detections, all of them and no other, and the greatest
    of their scores raised to 0, the score a record starts with. The score
    is the greatest of the contributing scores exactly when one of them is
    not negative. *)
Lemma upsert_max_with_zero urljoin urlparse json_loads soup base_url
    candidates u c :
  analyze_html urljoin urlparse json_loads soup base_url = Some candidates →
  dict_get candidates u = Some c →
  ∃ calls m,
    detections urljoin urlparse json_loads (ld_json_scripts soup) soup base_url
      = Some calls ∧
    max_score (hits urljoin base_url u calls) = Some m ∧
    score c = Z.max 0 m ∧
    ∀ r, r ∈ reasons c ↔ ∃ d, d ∈ hits urljoin base_url u calls ∧ d.2 = r.
Proof.
  intros (calls & Hcalls & ->)%analyze_html_replay.
  rewrite apply_calls_lookup.
  destruct (hits urljoin base_url u calls) as [|h hs] eqn:Hhits; [done|].
  intros [= <-]. eexists calls, _. rewrite Hhits.
  split_and!; [done|done| |].
  - rewrite <-max_score_from.
    change (foldl merge fresh (h :: hs)) with (foldl merge (merge fresh h) hs).
    rewrite merge_all_max. f_equal. unfold merge, fresh. simpl.
    case_decide; lia.
  - intros r. rewrite (merge_all_reasons fresh (h :: hs)). simpl.
    split; [|auto]. intros [Hr|?]; [|done]. by apply elem_of_nil in Hr.
Qed.

Import Samples.

(** [<link rel="icon" href="/logo.png"><img src="/logo.png">]: the icon link
    carries 10 and the image, by its keyword, 20. *)
Definition icon_and_image_page : list node :=
  [Tag "link" [("rel", AttrList ["icon"]); ("href", AttrStr "/logo.png")] [];
   Tag "img" [("src", AttrStr "/logo.png")] []].

(** A URL detected with the scores 10 and 20 ends with the score 20 and
    both labels. *)
Example ten_and_twenty :
  detections Urllib.urljoin Urllib.urlparse reject_all
    (ld_json_scripts icon_and_image_page) icon_and_image_page
    "https://acme.com"
  = Some [("/logo.png", 10, "Favicon/Touch Icon");
          ("/logo.png", 20, "Keyword Match (logo/brand)")] ∧
  analyze icon_and_image_page "https://acme.com"
  = Some [("https://acme.com/logo.png",
           Candidate 20 ["Favicon/Touch Icon"; "Keyword Match (logo/brand)"])].
Proof. split; vm_compute; reflexivity. Qed.

(** C2, the failing input. Two images of one URL in a footer: both
    detections carry the score -30 and both reach the URL, so the greatest
    of the contributing scores is -30; the record written for the URL holds
    the label of the detections and the score 0, with which
    [update_candidate] starts a record and which it only ever raises. *)
Theorem footer_twice_scores_zero :
  detections Urllib.urljoin Urllib.urlparse reject_all
    (ld_json_scripts footer_twice_page) footer_twice_page "https://acme.com"
  = Some [("/x.png", -30, "In Footer"); ("/x.png", -30, "In Footer")] ∧
  hits Urllib.urljoin "https://acme.com" "https://acme.com/x.png"
    [("/x.png", -30, "In Footer"); ("/x.png", -30, "In Footer")]
  = [("/x.png", -30, "In Footer"); ("/x.png", -30, "In Footer")] ∧
  max_score [("/x.png", -30, "In Footer"); ("/x.png", -30, "In Footer")]
  = Some (-30) ∧
  analyze footer_twice_page "https://acme.com"
  = Some [("https://acme.com/x.png", Candidate 0 ["In Footer"])].
Proof. split_and!; vm_compute; reflexivity. Qed.

(** C3, the failing input. An image that only earns the footer penalty is
    scored -30 by the image pass, and the record written for it holds 0. *)
Theorem footer_only_scores_zero :
  detections Urllib.urljoin Urllib.urlparse reject_all
    (ld_json_scripts footer_page) footer_page "https://acme.com"
  = Some [("/x.png", -30, "In Footer")] ∧
  analyze footer_page "https://acme.com"
  = Some [("https://acme.com/x.png", Candidate 0 ["In Footer"])].
Proof. split; vm_compute; reflexivity. Qed.

Lemma acme_home_link urljoin urlparse :
  urljoin "https://acme.com" "/" = Some "https://acme.com/" →
  urlparse "https://acme.com" = Some (Parsed "https" "acme.com" "") →
  urlparse "https://acme.com/" = Some (Parsed "https" "acme.com" "/") →
  is_home_link urljoin urlparse "https://acme.com" "/" = Some true.
Proof.
  intros Hj1 Hp1 Hp2. unfold is_home_link, normalize_url.
  rewrite !decide_False by done.
  replace (Str.strip "/") with "/" by reflexivity.
  rewrite Hj1.
  replace (Str.lower "https://acme.com/") with "https://acme.com/"
    by reflexivity.
  replace (Str.startswith "http://" "https://acme.com/"
           || Str.startswith "https://" "https://acme.com/") with true
    by reflexivity.
  rewrite Hp1. simpl. rewrite Hp2. reflexivity.
Qed.

Lemma acme_normalize urljoin :
  urljoin "https://acme.com" "/logo.png" = Some "https://acme.com/logo.png" →
  normalize_url urljoin "https://acme.com" "/logo.png"
  = Some "https://acme.com/logo.png".
Proof.
  intros Hj2. unfold normalize_url. rewrite decide_False by done.
  replace (Str.strip "/logo.png") with "/logo.png" by reflexivity.
  rewrite Hj2. reflexivity.
Qed.

Lemma acme_stem urlparse :
  urlparse "https://acme.com" = Some (Parsed "https" "acme.com" "") →
  extract_domain_stem urlparse "https://acme.com" = "acme".
Proof. intros Hp1. unfold extract_domain_stem. rewrite Hp1. reflexivity. Qed.

(** The image of the sample page, as [find_all] returns it. *)
Definition acme_img : element :=
  Element "img" [("src", AttrStr "/logo.png"); ("alt", AttrStr "Acme logo")] []
    [Ancestor "a" [("href", AttrStr "/")]; document].

Lemma acme_score urljoin urlparse :
  is_home_link urljoin urlparse "https://acme.com" "/" = Some true →
  score_image urljoin urlparse "https://acme.com" "acme" acme_img "/logo.png"
  = Some (80, ["Linked to Home"; "Keyword Match (logo/brand)";
               "Alt text contains 'logo'"]).
Proof.
  intros Hhome. unfold score_image.
  replace (filter (λ p, anc_name p = "a") (el_parents acme_img))
    with [Ancestor "a" [("href", AttrStr "/")]] by reflexivity.
  replace (get (anc_attrs (Ancestor "a" [("href", AttrStr "/")])) "href")
    with (Some (AttrStr "/")) by reflexivity.
  rewrite Hhome. reflexivity.
Qed.

(** C4, as amended. For the page [<a href="/"><img src="/logo.png"
    alt="Acme logo"></a>] and the base URL [https://acme.com], the scorer
    outputs the one candidate [https://acme.com/logo.png] with score exactly
    80 (50 home link + 20 keyword + 10 alt text; the domain-stem rule does
    not fire, since [/logo.png] does not contain [acme]) and with one signal
    label, the reasons joined by commas. The four hypotheses state what
    [urllib.parse] returns on the URLs of the scenario. *)
Theorem acme_scenario urljoin urlparse json_loads :
  urljoin "https://acme.com" "/" = Some "https://acme.com/" →
  urljoin "https://acme.com" "/logo.png" = Some "https://acme.com/logo.png" →
  urlparse "https://acme.com" = Some (Parsed "https" "acme.com" "") →
  urlparse "https://acme.com/" = Some (Parsed "https" "acme.com" "/") →
  analyze_html urljoin urlparse json_loads acme_page "https://acme.com"
  = Some [("https://acme.com/logo.png",
           Candidate 80
             ["Linked to Home, Keyword Match (logo/brand), Alt text contains 'logo'"])].
Proof.
  intros Hj1 Hj2 Hp1 Hp2.
  unfold analyze_html, analyze_scripts, scan_images, scan_og_image,
    scan_links, scan_scripts.
  replace (ld_json_scripts acme_page) with (@nil element) by reflexivity.
  replace (find_all_attr acme_page "link" "rel" rel_is_icon)
    with (@nil element) by reflexivity.
  replace (find_all_attr acme_page "meta" "property"
             (λ v, bool_decide (v = "og:image")))
    with (@nil element) by reflexivity.
  replace (find_all acme_page "img") with [acme_img] by reflexivity.
  rewrite (acme_stem urlparse Hp1).
  cbn [foldl for_each]. unfold scan_image.
  replace (get (el_attrs acme_img) "src") with (Some (AttrStr "/logo.png"))
    by reflexivity.
  rewrite decide_False by done.
  rewrite (acme_score urljoin urlparse (acme_home_link _ _ Hj1 Hp1 Hp2)).
  cbn [mbind option_bind]. unfold update_candidate.
  rewrite (acme_normalize urljoin Hj2). reflexivity.
Qed.

Lemma acme_scenario_witness :
  analyze acme_page "https://acme.com"
  = Some [("https://acme.com/logo.png",
           Candidate 80
             ["Linked to Home, Keyword Match (logo/brand), Alt text contains 'logo'"])].
Proof.
  apply (acme_scenario Urllib.urljoin Urllib.urlparse reject_all);
    vm_compute; reflexivity.
Defined.

(** C4, counterexample. On the scenario of the claim the candidate scores
    80, not 100; its signal set has one label, not four, and the label
    [Filename matches domain 'acme'] is not in it. *)
Lemma acme_scenario_counterexample :
  ∃ c, analyze acme_page "https://acme.com"
       = Some [("https://acme.com/logo.png", c)] ∧
       score c ≠ 100 ∧
       length (reasons c) ≠ 4%nat ∧
       "Filename matches domain 'acme'" ∉ reasons c.
Proof.
  eexists. split; [vm_compute; reflexivity|]. simpl.
  split_and!; [lia|lia|]. by intros ?%list_elem_of_singleton.
Qed.

(** C8. A JSON-LD block whose text fails to decode is skipped: its
    iteration leaves the candidates as they were, and the result of the
    whole pass is the result of the pass over the other blocks and the rest
    of the page. *)
Theorem malformed_block_skipped urljoin urlparse json_loads soup base_url
    pre bad post text :
  ld_json_scripts soup = pre ++ bad :: post →
  tag_string (el_contents bad) = Some text →
  json_loads text = None →
  (∀ candidates,
     scan_script urljoin json_loads base_url candidates bad = candidates) ∧
  analyze_html urljoin urlparse json_loads soup base_url
  = analyze_scripts urljoin urlparse json_loads (pre ++ post) soup base_url.
Proof.
  intros Hscripts Htext Hfail.
  assert (∀ candidates,
            scan_script urljoin json_loads base_url candidates bad = candidates)
    as Hskip.
  { intros candidates. unfold scan_script. rewrite Htext.
    case_decide; [done|]. by rewrite Hfail. }
  split; [done|]. unfold analyze_html, analyze_scripts, scan_scripts.
  rewrite Hscripts, !foldl_app. simpl. by rewrite Hskip.
Qed.

Lemma malformed_block_skipped_witness :
  analyze bad_script_page "https://acme.com"
  = analyze_scripts Urllib.urljoin Urllib.urlparse reject_all []
      bad_script_page "https://acme.com".
Proof.
  apply (malformed_block_skipped Urllib.urljoin Urllib.urlparse reject_all
           bad_script_page "https://acme.com" []
           (Element "script" [("type", AttrStr "application/ld+json")]
              [Text "{oops"] [document])
           [] "{oops"); reflexivity.
Defined.

Lemma score_image_no_reason urljoin urlparse base_url stem img src s :
  score_image urljoin urlparse base_url stem img src = Some (s, []) → s = 0.
Proof.
  unfold score_image.
  destruct (match filter _ _ with [] => _ | _ => _ end) as [home|];
    [|done].
  simpl. intros Heq.
  repeat (case_match; simplify_eq/=); try done;
    match goal with H : _ ++ [_] = [] |- _ => by destruct (app_cons_not_nil _ _ _ (eq_sym H)) end.
Qed.

Lemma merge_again c d : merge (merge c d) d = merge c d.
Proof.
  unfold merge. simpl. f_equal.
  - repeat case_decide; lia.
  - unfold set_add at 1. rewrite decide_True; [done|].
    apply set_add_elem. by right.
Qed.

Lemma merge_all_same c d hs :
  (∀ d', d' ∈ hs → d' = d) → foldl merge (merge c d) hs = merge c d.
Proof.
  induction hs as [|d' hs IH]; intros Hall; [done|].
  simpl. rewrite (Hall d') by left. rewrite merge_again.
  apply IH. intros d'' Hd''. apply Hall. by right.
Qed.

(** What the image pass promises for one image whose source resolves to
    [u]: its score [s] and reasons [rs] reach the record of [u]. *)
Definition image_recorded (urljoin : string → string → option string)
    (base_url u src : string) (s : Z) (rs : list string)
    (calls : list call) (candidates : list (string * candidate)) : Prop :=
  ∃ c, dict_get candidates u = Some c ∧
       Str.join ", " rs ∈ reasons c ∧ 0 ≤ score c ∧ s ≤ score c ∧
       (rs = [] → s = 0 ∧ Str.join ", " rs = "") ∧
       ((∀ d, d ∈ hits urljoin base_url u calls → d = (src, s, Str.join ", " rs))
        → c = Candidate (Z.max 0 s) [Str.join ", " rs]).

(** C9. Every [<img>] whose [src] resolves against the base URL to an
    http(s) URL has a candidate in the output, whatever its score: the
    record holds the comma-joined (possibly empty) string of the image's
    reasons as a label, and when nothing else detects that URL it is the
    record with that single label and the score of the image raised to 0;
    so an image on which no rule fires appears with score 0 and the empty
    label. *)
Theorem image_always_candidate urljoin urlparse json_loads soup base_url
    candidates img src u :
  analyze_html urljoin urlparse json_loads soup base_url = Some candidates →
  img ∈ find_all soup "img" →
  get (el_attrs img) "src" = Some (AttrStr src) →
  normalize_url urljoin base_url src = Some u →
  ∃ s rs calls,
    score_image urljoin urlparse base_url
      (extract_domain_stem urlparse base_url) img src = Some (s, rs) ∧
    detections urljoin urlparse json_loads (ld_json_scripts soup) soup base_url
      = Some calls ∧
    image_recorded urljoin base_url u src s rs calls candidates.
Proof.
  intros (calls & Hcalls & ->)%analyze_html_replay Himg Hsrc Hu.
  assert (src ≠ "") as Hne.
  { intros ->. by unfold normalize_url in Hu. }
  pose proof Hcalls as Hcalls0. unfold detections in Hcalls.
  destruct (mapM _ _) as [ls|] eqn:Hls; [|done].
  simpl in Hcalls. injection Hcalls as Hcalls.
  apply mapM_Some in Hls.
  apply list_elem_of_lookup in Himg as [i Hi].
  destruct (Forall2_lookup_l _ _ _ _ _ Hls Hi) as (l & Hl & Himage).
  unfold image_calls in Himage. rewrite Hsrc, decide_False in Himage by done.
  destruct (score_image _ _ _ _ _ _) as [[s rs]|] eqn:Hscore; [|done].
  simpl in Himage. injection Himage as <-.
  exists s, rs, calls. split_and!; [done..|].
  set (d := (src, s, Str.join ", " rs)).
  assert (d ∈ hits urljoin base_url u calls) as Hd.
  { apply list_elem_of_filter. split; [done|].
    rewrite <-Hcalls, !elem_of_app. do 3 right.
    apply elem_of_concat. exists [d]. split; [left|].
    by eapply list_elem_of_lookup_2. }
  unfold image_recorded. rewrite apply_calls_lookup.
  destruct (hits urljoin base_url u calls) as [|h hs] eqn:Hhits.
  { by apply elem_of_nil in Hd. }
  eexists. split; [done|].
  pose proof (merge_all_score fresh (h :: hs)) as (Hge & Hall & _).
  simpl default. split_and!.
  - apply merge_all_reasons. right. by exists d.
  - done.
  - by apply (Hall d).
  - intros ->. split; [by eapply score_image_no_reason|done].
  - intros Hsame. simpl. rewrite (Hsame h) by left.
    rewrite merge_all_same.
    + unfold merge, fresh, d. simpl. f_equal. case_decide; lia.
    + intros d' Hd'. apply Hsame. by right.
Qed.

Lemma image_always_candidate_witness :
  ∃ s rs calls,
    score_image Urllib.urljoin Urllib.urlparse "https://acme.com"
      (extract_domain_stem Urllib.urlparse "https://acme.com")
      (Element "img" [("src", AttrStr "/pic.png")] [] [document]) "/pic.png"
      = Some (s, rs) ∧
    detections Urllib.urljoin Urllib.urlparse reject_all
      (ld_json_scripts plain_image_page) plain_image_page "https://acme.com"
      = Some calls ∧
    image_recorded Urllib.urljoin "https://acme.com"
      "https://acme.com/pic.png" "/pic.png" s rs calls
      [("https://acme.com/pic.png", Candidate 0 [""])].
Proof.
  apply (image_always_candidate Urllib.urljoin Urllib.urlparse reject_all
           plain_image_page "https://acme.com").
  - vm_compute. reflexivity.
  - vm_compute. left.
  - reflexivity.
  - vm_compute. reflexivity.
Defined.

(** ** The ranked output *)

Lemma StronglySorted_before_keys {V} (pre l : list (string * V)) :
  StronglySorted (λ kv1 kv2, before (pre ++ l).*1 kv1.1 kv2.1) l.
Proof.
  revert pre. induction l as [|[k v] l IH]; intros pre; constructor.
  - specialize (IH (pre ++ [(k, v)])). by rewrite <-(assoc_L (++)) in IH.
  - apply Forall_forall. intros [k' v'] [j Hj]%list_elem_of_lookup. simpl.
    exists (length pre), (length pre + S j)%nat. split_and!; [| |lia].
    + rewrite list_lookup_fmap, lookup_app_r, Nat.sub_diag by done. done.
    + rewrite list_lookup_fmap, lookup_app_r by lia.
      replace (length pre + S j - length pre)%nat with (S j) by lia.
      simpl. by rewrite Hj.
Qed.

Lemma StronglySorted_enumerate {A} (R : relation A) (k : nat) (l : list A) :
  StronglySorted R l →
  StronglySorted (λ a b, R a.2 b.2) (enumerate k l).
Proof.
  intros Hl. revert k. induction Hl as [|x l Hl IH Hx]; intros k; simpl.
  - constructor.
  - constructor; [apply IH|]. apply Forall_forall.
    intros [i y] [_ Hy]%elem_of_enumerate. simpl.
    eapply Forall_forall in Hx; [done|]. by eapply list_elem_of_lookup_2.
Qed.

Lemma enumerate_lookup {A} (k i : nat) (l : list A) :
  enumerate k l !! i = (λ x, ((k + i)%nat, x)) <$> l !! i.
Proof.
  revert k i. induction l as [|x l IH]; intros k [|i]; simpl; try done.
  - by rewrite Nat.add_0_r.
  - rewrite IH. by replace (S k + i)%nat with (k + S i)%nat by lia.
Qed.

Local Instance flip_le_total : Total (flip Z.le).
Proof. intros x y. unfold flip. lia. Qed.

Local Instance flip_le_trans : Transitive (flip Z.le).
Proof. intros x y z. unfold flip. lia. Qed.

(** Two entries of two runs agree but for the order of their labels. *)
Definition same_up_to_label_order (r1 r2 : result) : Prop :=
  rank r1 = rank r2 ∧ result_score r1 = result_score r2 ∧
  result_url r1 = result_url r2 ∧ signals r1 ≡ₚ signals r2.

(** The order of the ranked entries: higher scores first, and of two equal
    scores the URL that entered the candidates first. *)
Definition ranked_before (keys : list string) (r1 r2 : result) : Prop :=
  result_score r2 < result_score r1 ∨
  (result_score r1 = result_score r2 ∧
   before keys (result_url r1) (result_url r2)).

(** C7, as amended. Two runs of the scorer on the same page and base URL,
    each with its own enumeration order of Python sets, both fail or both
    return; their outputs have the same entries in the same order, with the
    same rank, score and URL and the same set of labels, the labels of an
    entry possibly in a different order; they are identical when no entry
    has more than one label. The entries are ranked 1, 2, ... by descending
    score, ties in the order in which the URLs were first detected. *)
Theorem ranked_output_up_to_label_order urljoin urlparse json_loads
    (order1 order2 : list string → list string) url soup :
  (∀ s, order1 s ≡ₚ s) → (∀ s, order2 s ≡ₚ s) →
  option_Forall2 (Forall2 same_up_to_label_order)
    (main urljoin urlparse json_loads order1 url soup)
    (main urljoin urlparse json_loads order2 url soup) ∧
  ∀ out, main urljoin urlparse json_loads order1 url soup = Some out →
    (∀ i r, out !! i = Some r → rank r = S i) ∧
    (∃ base_url candidates,
       analyze_html urljoin urlparse json_loads soup base_url = Some candidates
       ∧ StronglySorted (ranked_before candidates.*1) out) ∧
    ((∀ r, r ∈ out → (length (signals r) ≤ 1)%nat) →
     main urljoin urlparse json_loads order2 url soup = Some out).
Proof.
  intros Ho1 Ho2. unfold main.
  destruct (urlparse (Str.strip url)) as [p|]; simpl; [|by split; [constructor|]].
  set (base_url := if decide (scheme p = "") then _ else _).
  destruct (analyze_html urljoin urlparse json_loads soup base_url)
    as [candidates|] eqn:Hrun; simpl; [|by split; [constructor|]].
  set (ranked := py_sorted (flip Z.le) (λ x, score x.2) candidates).
  split.
  - constructor. apply Forall2_fmap, Forall_Forall2_diag, Forall_forall.
    intros [i [u c]] _. unfold same_up_to_label_order. simpl.
    split_and!; [done..|]. by rewrite Ho1, Ho2.
  - intros out [= <-]. split_and!.
    + intros i r. rewrite list_lookup_fmap, enumerate_lookup.
      destruct (ranked !! i) as [[u c]|]; [|done]. simpl.
      intros [= <-]. simpl. lia.
    + exists base_url, candidates. split; [done|].
      eapply StronglySorted_fmap;
        [|apply StronglySorted_enumerate,
           (py_sorted_stable (flip Z.le) _
              (λ kv1 kv2, before candidates.*1 kv1.1 kv2.1)),
           (StronglySorted_before_keys [] candidates)].
      intros [i [u1 c1]] [j [u2 c2]] [Hle Htie]. unfold ranked_before, flip in *.
      simpl in *. destruct (decide (score c1 = score c2)) as [Heq|Hne].
      * right. split; [done|]. apply Htie. lia.
      * left. lia.
    + intros Hone. f_equal. apply list_fmap_ext.
      intros k [i [u c]] Hic. f_equal.
      assert (length (order1 (reasons c)) ≤ 1)%nat as Hlen.
      { apply (Hone (Result (i + 1) (score c) u (order1 (reasons c)))).
        apply list_elem_of_fmap. exists (i, (u, c)). split; [done|].
        by eapply list_elem_of_lookup_2. }
      assert (order2 (reasons c) ≡ₚ order1 (reasons c)) as Hperm
        by (by rewrite Ho1, Ho2).
      destruct (order1 (reasons c)) as [|x [|??]]; simpl in Hlen; [| |lia].
      * by apply Permutation_nil_r in Hperm.
      * by apply Permutation_singleton_r in Hperm.
Qed.

Lemma ranked_output_up_to_label_order_witness :
  option_Forall2 (Forall2 same_up_to_label_order)
    (main Urllib.urljoin Urllib.urlparse reject_all id "acme.com"
       icon_and_og_page)
    (main Urllib.urljoin Urllib.urlparse reject_all reverse "acme.com"
       icon_and_og_page).
Proof.
  apply (ranked_output_up_to_label_order Urllib.urljoin Urllib.urlparse
           reject_all id reverse "acme.com" icon_and_og_page).
  - done.
  - apply reverse_Permutation.
Defined.

(** C7, counterexample. One page, one base URL, two enumeration orders of
    the label set of its candidate: the two outputs differ in the order of
    the serialised labels. *)
Lemma ranked_output_counterexample :
  (∀ s : list string, id s ≡ₚ s) ∧ (∀ s : list string, reverse s ≡ₚ s) ∧
  main Urllib.urljoin Urllib.urlparse reject_all id "acme.com" icon_and_og_page
  = Some [Result 1 10 "https://acme.com/x.png"
            ["Favicon/Touch Icon"; "OpenGraph Image"]] ∧
  main Urllib.urljoin Urllib.urlparse reject_all reverse "acme.com"
    icon_and_og_page
  = Some [Result 1 10 "https://acme.com/x.png"
            ["OpenGraph Image"; "Favicon/Touch Icon"]] ∧
  main Urllib.urljoin Urllib.urlparse reject_all id "acme.com" icon_and_og_page
  ≠ main Urllib.urljoin Urllib.urlparse reject_all reverse "acme.com"
      icon_and_og_page.
Proof.
  split_and!; [done|apply reverse_Permutation|vm_compute; reflexivity..|].
  vm_compute. discriminate.
Qed.

End ScorerFacts.

(** * Further properties of the programs *)

(** ** Strings *)

Module StrFacts.

Lemma app_cons c s t : String c s +:+ t = String c (s +:+ t).
Proof. done. Qed.

Lemma app_nil_r s : s +:+ "" = s.
Proof. induction s as [|c s IH]; [done|]. by rewrite app_cons, IH. Qed.

Lemma app_assoc a b c : (a +:+ b) +:+ c = a +:+ b +:+ c.
Proof. induction a as [|x a IH]; [done|]. by rewrite !app_cons, IH. Qed.

Lemma rev_app_spec s t : String.rev_app s t = String.rev s +:+ t.
Proof.
  unfold String.rev. revert t.
  induction s as [|c s IH]; intros t; [done|].
  simpl. rewrite (IH (String c t)), (IH (String c "")).
  by rewrite app_assoc.
Qed.

Lemma rev_cons c s : String.rev (String c s) = String.rev s +:+ String c "".
Proof. unfold String.rev at 1. simpl. apply rev_app_spec. Qed.

Lemma rev_app_distr a b : String.rev (a +:+ b) = String.rev b +:+ String.rev a.
Proof.
  induction a as [|c a IH]; [by rewrite app_nil_r|].
  by rewrite app_cons, !rev_cons, IH, app_assoc.
Qed.

Lemma rev_involutive s : String.rev (String.rev s) = s.
Proof.
  induction s as [|c s IH]; [done|].
  by rewrite rev_cons, rev_app_distr, IH.
Qed.

(** *** [strip] *)

Lemma lstrip_app s t :
  Str.lstrip (s +:+ t)
  = if decide (Str.lstrip s = "") then Str.lstrip t else Str.lstrip s +:+ t.
Proof.
  induction s as [|c s IH]; [done|].
  rewrite app_cons. simpl. destruct (Str.is_space c); [done|].
  by rewrite decide_False.
Qed.

Lemma strip_cons_space c s :
  Str.is_space c = true → Str.strip (String c s) = Str.strip s.
Proof. intros Hc. unfold Str.strip. simpl. by rewrite Hc. Qed.

Lemma strip_snoc_space c s :
  Str.is_space c = true → Str.strip (s +:+ String c "") = Str.strip s.
Proof.
  intros Hc. unfold Str.strip. rewrite lstrip_app.
  case_decide as Hs.
  - rewrite Hs. simpl. by rewrite Hc.
  - rewrite rev_app_distr. change (String.rev (String c "")) with (String c "").
    rewrite app_cons. simpl. by rewrite Hc.
Qed.

(** A string that begins and ends with a character that is not white space
    is left as it is. *)
Lemma strip_between c s c' :
  Str.is_space c = false → Str.is_space c' = false →
  Str.strip (String c (s +:+ String c' "")) = String c (s +:+ String c' "").
Proof.
  intros Hc Hc'. unfold Str.strip. simpl Str.lstrip at 2. rewrite Hc.
  rewrite <-app_cons, rev_app_distr.
  change (String.rev (String c' "")) with (String c' "").
  rewrite app_cons. simpl Str.lstrip. rewrite Hc'.
  rewrite <-(app_cons c' "" (String.rev (String c s))).
  rewrite rev_app_distr, rev_involutive. done.
Qed.

(** The first character of a string survives when it is not white space. *)
Lemma strip_head c s :
  Str.is_space c = false → ∃ s', Str.strip (String c s) = String c s'.
Proof.
  intros Hc. unfold Str.strip. simpl Str.lstrip at 2. rewrite Hc.
  rewrite rev_cons, lstrip_app.
  assert (Str.lstrip (String c "") = String c "") as Hl by (simpl; by rewrite Hc).
  case_decide.
  - rewrite Hl. by exists "".
  - rewrite rev_app_distr. by eexists.
Qed.

(** *** Prefixes and substrings *)

Lemma prefix_spec p s : String.prefix p s = true ↔ ∃ t, s = p +:+ t.
Proof.
  revert s. induction p as [|a p IH]; intros s.
  - split; [by exists s|]. by destruct s.
  - destruct s as [|b s]; simpl.
    + split; [done|]. by intros [t Ht].
    + destruct (Ascii.ascii_dec a b) as [->|Hab].
      * rewrite IH. split; intros [t Ht]; exists t.
        -- by rewrite app_cons, Ht.
        -- rewrite app_cons in Ht. by simplify_eq.
      * split; [done|]. intros [t Ht]. rewrite app_cons in Ht. by simplify_eq.
Qed.

Lemma contains_spec n h :
  Str.contains n h = true ↔ ∃ a b, h = a +:+ n +:+ b.
Proof.
  induction h as [|c h IH]; cbn [Str.contains].
  - rewrite orb_false_r, prefix_spec. split.
    + intros [t Ht]. by exists "", t.
    + intros (a & b & Hab). destruct a; [by exists b|done].
  - rewrite orb_true_iff, prefix_spec, IH. split.
    + intros [[t Ht]|(a & b & Hab)].
      * by exists "", t.
      * exists (String c a), b. by rewrite Hab.
    + intros (a & b & Hab). destruct a as [|c' a].
      * left. by exists b.
      * right. rewrite app_cons in Hab. simplify_eq. by exists a, b.
Qed.

Lemma contains_trans a b c :
  Str.contains a b = true → Str.contains b c = true → Str.contains a c = true.
Proof.
  rewrite !contains_spec. intros (x & y & ->) (x' & y' & ->).
  exists (x' +:+ x), (y +:+ y'). by rewrite !app_assoc.
Qed.

End StrFacts.

(** ** The union-find structure and the report *)

Module ClusterMore.
Import Cluster PyFacts ClusterFacts.

(** ** States of the union-find structure *)

(** The forests that the program can hold for the domain list [D]: the
    initial one, and those that a [union_clusters] or a [find_cluster] on
    known domains leaves behind. *)
Inductive reachable (D : list string)
  : gmap string string → gmap string Z → Prop :=
  | reach_init : reachable D (initial_parent D) (initial_rank D)
  | reach_union parent rank x y parent' rank' :
      reachable D parent rank → x ∈ D → y ∈ D →
      union_clusters (S (length D)) parent rank x y = Some (parent', rank') →
      reachable D parent' rank'
  | reach_find parent rank x parent' r :
      reachable D parent rank → x ∈ D →
      find_cluster (S (length D)) parent x = Some (parent', r) →
      reachable D parent' rank.

Lemma reachable_inv D parent rank : reachable D parent rank → uf_inv D parent rank.
Proof.
  induction 1 as [|parent rank x y parent' rank' _ IH Hx Hy Hu
                  |parent rank x parent' r _ IH Hx Hf].
  - apply initial_inv.
  - destruct (union_clusters_step D parent rank x y IH Hx Hy)
      as (p & k & Hu' & Hinv & _). congruence.
  - apply find_cluster_spec in Hf as [_ Hc]. by eapply compressed_inv.
Qed.

(** [on_path parent x y]: [y] is met when parent links are followed from
    [x] ([x] itself included). *)
Definition on_path (parent : gmap string string) : relation string :=
  rtc (λ a b, parent !! a = Some b).

Lemma on_path_root parent x y :
  parent !! x = Some x → on_path parent x y → y = x.
Proof.
  intros Hx Hp. induction Hp as [|a b c Hab _ IH]; [done|].
  assert (b = a) as -> by congruence. by apply IH.
Qed.

Lemma find_cluster_path fuel parent x parent' r :
  find_cluster fuel parent x = Some (parent', r) →
  (∀ y, on_path parent x y → parent' !! y = Some r) ∧
  (∀ y, ¬ on_path parent x y → parent' !! y = parent !! y).
Proof.
  revert parent x parent' r.
  induction fuel as [|fuel IH]; intros parent x parent' r; [done|].
  simpl. destruct (parent !! x) as [px|] eqn:Hx; [simpl|done].
  case_decide as Hne.
  - destruct (find_cluster fuel parent px) as [[parent1 r1]|] eqn:Hfind;
      [simpl|done].
    rewrite lookup_insert_eq. simpl. intros [= <- <-].
    apply IH in Hfind as [Hon Hoff]. split.
    + intros y Hy. rewrite lookup_insert. case_decide; [done|].
      apply Hon. inversion Hy as [|a b c Hab Hbc]; subst; [done|].
      by assert (b = px) as -> by congruence.
    + intros y Hy. rewrite lookup_insert. case_decide as Hxy.
      { subst y. destruct Hy. apply rtc_refl. }
      apply Hoff. intros Hp. apply Hy. by eapply rtc_l.
  - subst px. intros [= <- <-]. split; [|done].
    by intros y ->%on_path_root.
Qed.

(** X1. On every forest that the program can hold and every known domain
    [x], [find_cluster] returns the representative [r] of [x]; afterwards
    every node on the path from [x] to [r] points to [r] directly, every other
    node keeps its parent, every domain keeps its representative, and a
    second call returns [r] again and changes nothing. *)
Theorem find_cluster_compresses D parent rank x :
  reachable D parent rank → x ∈ D →
  ∃ parent' r,
    find_cluster (S (length D)) parent x = Some (parent', r) ∧
    r ∈ D ∧ root_of parent x r ∧
    (∀ y, on_path parent x y → parent' !! y = Some r) ∧
    (∀ y, ¬ on_path parent x y → parent' !! y = parent !! y) ∧
    (∀ y s, root_of parent' y s ↔ root_of parent y s) ∧
    find_cluster (S (length D)) parent' x = Some (parent', r).
Proof.
  intros Hinv%reachable_inv Hx.
  destruct (find_cluster_enough D parent rank x Hinv Hx) as [[parent' r] Hf].
  exists parent', r.
  pose proof (find_cluster_spec _ _ _ _ _ Hf) as [Hr Hc].
  pose proof (find_cluster_path _ _ _ _ _ Hf) as [Hon Hoff].
  split_and!; [done|by eapply root_of_in|done|done|done| |].
  - intros y s. by apply compressed_root_of.
  - assert (parent' !! x = Some r) as Hxr by apply Hon, rtc_refl.
    assert (parent' !! r = Some r) as Hrr.
    { apply (compressed_roots _ _ _ Hc). by eapply root_of_is_root. }
    unfold find_cluster. rewrite Hxr. simpl. case_decide as Hne; [|done].
    fold find_cluster. destruct (length D) as [|n] eqn:HD.
    { destruct D; [by apply elem_of_nil in Hx|done]. }
    simpl. rewrite Hrr. simpl. rewrite decide_False by (by intros []).
    simpl. rewrite lookup_insert_eq. simpl. by rewrite insert_id.
Qed.

Local Arguments find_cluster : simpl never.

(** A forest with a path of two links: [d.com] under [c.com] under [a.com]. *)
Definition four_domains : list string := ["a.com"; "b.com"; "c.com"; "d.com"].

Definition chain_parent : gmap string string :=
  <["c.com" := "a.com"]> (<["d.com" := "c.com"]> (<["b.com" := "a.com"]>
    (initial_parent four_domains))).

Definition chain_rank : gmap string Z :=
  <["a.com" := 2]> (<["c.com" := 1]> (initial_rank four_domains)).

Lemma chain_reachable : reachable four_domains chain_parent chain_rank.
Proof.
  eapply (reach_union _ _ _ "b.com" "d.com");
    [eapply (reach_union _ _ _ "c.com" "d.com");
      [eapply (reach_union _ _ _ "a.com" "b.com"); [apply reach_init|..]|..]|..];
    try (unfold four_domains; set_solver); vm_compute; reflexivity.
Qed.

Lemma find_cluster_compresses_witness :
  ∃ parent' r,
    find_cluster (S (length four_domains)) chain_parent "d.com"
      = Some (parent', r) ∧
    r ∈ four_domains ∧ root_of chain_parent "d.com" r ∧
    (∀ y, on_path chain_parent "d.com" y → parent' !! y = Some r) ∧
    (∀ y, ¬ on_path chain_parent "d.com" y → parent' !! y = chain_parent !! y) ∧
    (∀ y s, root_of parent' y s ↔ root_of chain_parent y s) ∧
    find_cluster (S (length four_domains)) parent' "d.com" = Some (parent', r).
Proof.
  apply (find_cluster_compresses four_domains chain_parent chain_rank "d.com").
  - apply chain_reachable.
  - unfold four_domains. set_solver.
Defined.

Example chain_find :
  find_cluster 5 chain_parent "d.com"
  = Some (<["d.com" := "a.com"]> chain_parent, "a.com").
Proof. vm_compute. reflexivity. Qed.

(** ** Unions *)

Lemma same_root_of D parent rank a b ra rb :
  uf_inv D parent rank → root_of parent a ra → root_of parent b rb →
  same_root parent a b ↔ ra = rb.
Proof.
  intros Hinv Ha Hb. split.
  - intros (r & Ha' & Hb').
    by rewrite (root_of_fun _ _ _ _ Ha Ha'), (root_of_fun _ _ _ _ Hb Hb').
  - intros ->. by exists rb.
Qed.

(** X2. On every forest that the program can hold, [union_clusters] on two
    known domains returns; afterwards the two share a representative, and
    two known domains share a representative exactly when they did before
    or one was with [x] and the other with [y]. When [x] and [y] were
    together already, the ranks are left as they were. *)
Theorem union_clusters_joins D parent rank x y :
  reachable D parent rank → x ∈ D → y ∈ D →
  ∃ parent' rank',
    union_clusters (S (length D)) parent rank x y = Some (parent', rank') ∧
    same_root parent' x y ∧
    (∀ a b, a ∈ D → b ∈ D →
       same_root parent' a b ↔
       same_root parent a b ∨
       (same_root parent a x ∧ same_root parent b y) ∨
       (same_root parent a y ∧ same_root parent b x)) ∧
    (same_root parent x y → rank' = rank).
Proof.
  intros Hinv%reachable_inv Hx Hy.
  destruct (union_clusters_step D parent rank x y Hinv Hx Hy)
    as (parent' & rank' & Hu & Hinv' & Hm).
  exists parent', rank'. split_and!; [done|by eapply merged_joined| |].
  - intros a b Ha Hb.
    destruct Hm as (rx & ry & w & Hrx & Hry & Hw & Hm).
    destruct (has_root D parent rank a Hinv Ha) as (ra & Hra & _).
    destruct (has_root D parent rank b Hinv Hb) as (rb & Hrb & _).
    rewrite (same_root_of D parent' rank' a b _ _ Hinv' (Hm _ _ Hra) (Hm _ _ Hrb)).
    rewrite (same_root_of D parent rank a b _ _ Hinv Hra Hrb).
    rewrite (same_root_of D parent rank a x _ _ Hinv Hra Hrx).
    rewrite (same_root_of D parent rank b y _ _ Hinv Hrb Hry).
    rewrite (same_root_of D parent rank a y _ _ Hinv Hra Hry).
    rewrite (same_root_of D parent rank b x _ _ Hinv Hrb Hrx).
    repeat case_decide; naive_solver.
  - intros (r & Hxr & Hyr). revert Hu. unfold union_clusters.
    destruct (find_cluster _ parent x) as [[p1 r1]|] eqn:Hf1; [simpl|done].
    destruct (find_cluster _ p1 y) as [[p2 r2]|] eqn:Hf2; [simpl|done].
    apply find_cluster_spec in Hf1 as [Hr1 Hc1].
    apply find_cluster_spec in Hf2 as [Hr2 Hc2].
    apply (compressed_root_of _ _ _ _ Hc1) in Hr2.
    rewrite (root_of_fun _ _ _ _ Hr1 Hxr), (root_of_fun _ _ _ _ Hr2 Hyr).
    rewrite decide_False by (by intros []). by intros [= _ <-].
Qed.

Lemma union_clusters_joins_witness :
  ∃ parent' rank',
    union_clusters (S (length four_domains)) chain_parent chain_rank
      "b.com" "d.com" = Some (parent', rank') ∧
    same_root parent' "b.com" "d.com" ∧
    (∀ a b, a ∈ four_domains → b ∈ four_domains →
       same_root parent' a b ↔
       same_root chain_parent a b ∨
       (same_root chain_parent a "b.com" ∧ same_root chain_parent b "d.com") ∨
       (same_root chain_parent a "d.com" ∧ same_root chain_parent b "b.com")) ∧
    (same_root chain_parent "b.com" "d.com" → rank' = chain_rank).
Proof.
  apply (union_clusters_joins four_domains chain_parent chain_rank).
  - apply chain_reachable.
  - unfold four_domains. set_solver.
  - unfold four_domains. set_solver.
Defined.

(** ** Singletons and the two extreme reports *)

Lemma filter_only {A} (P : A → Prop) `{!∀ x, Decision (P x)} (l : list A) d :
  NoDup l → d ∈ l → P d → (∀ b, b ∈ l → P b → b = d) → filter P l = [d].
Proof.
  induction l as [|a l IH]; intros Hnd Hd HP Honly; [by apply elem_of_nil in Hd|].
  apply NoDup_cons in Hnd as [Ha Hnd]. rewrite filter_cons.
  destruct (decide (P a)) as [HPa|HPa].
  - assert (a = d) as -> by (apply Honly; [left|done]). f_equal.
    apply elem_of_nil_inv. intros b [Hb Hbl]%list_elem_of_filter.
    rewrite (Honly b) in Hbl; [done|by right|done].
  - apply IH; [done| |done|].
    + apply elem_of_cons in Hd as [->|]; done.
    + intros b Hb. apply Honly. by right.
Qed.

Lemma group_by_const f k l :
  l ≠ [] → (∀ d, d ∈ l → f d = k) → group_by f l = [(k, l)].
Proof.
  induction l as [|d l IH] using rev_ind; intros Hne Hall; [done|].
  rewrite group_by_snoc, (Hall d) by (apply elem_of_app; right; left).
  destruct (decide (l = [])) as [->|Hl]; [done|].
  rewrite IH; [|done|].
  - simpl. by rewrite decide_True.
  - intros x Hx. apply Hall, elem_of_app. by left.
Qed.

Section isolated.
Context {ImageHash : Type} (hash_sub : ImageHash → ImageHash → Z).
Context (hashes : list (string * ImageHash)).
Hypothesis hash_sub_sym : ∀ h1 h2, hash_sub h1 h2 = hash_sub h2 h1.
Hypothesis keys_nodup : NoDup hashes.*1.

(** No other domain is within the threshold of [d]. *)
Definition isolated (d : string) : Prop :=
  ∀ b, b ∈ hashes.*1 → b ≠ d → ¬ close hash_sub hashes d b.

Lemma isolated_chain d b :
  isolated d → rtsc (edge hash_sub hashes) d b → b = d.
Proof.
  intros Hiso Hdb. destruct (decide (d = b)) as [->|Hne]; [done|].
  destruct (rtsc_leave _ d b Hdb Hne) as (e & Hed & Hde & _).
  assert (close hash_sub hashes d e) as Hc.
  { destruct Hde as [(_ & _ & _ & _ & _ & Hc)|(_ & _ & _ & _ & _ & Hc)];
      [done|by apply close_sym]. }
  destruct (close_in hash_sub hashes _ _ Hc) as [_ He]. by destruct (Hiso e).
Qed.

Lemma singleton_isolated root d :
  (∀ d, d ∈ hashes.*1 → root d ∈ hashes.*1 ∧ root (root d) = root d) →
  (∀ a b, a ∈ hashes.*1 → b ∈ hashes.*1 →
          root a = root b ↔ rtsc (edge hash_sub hashes) a b) →
  d ∈ report_singletons (report_of (length hashes) (group_by root hashes.*1))
  ↔ d ∈ hashes.*1 ∧ isolated d.
Proof.
  intros Hclosed Hroot.
  rewrite (report_singletons_components root hashes.*1 _ Hclosed). split.
  - intros [Hd Hlen]. split; [done|]. intros b Hb Hbd Hc.
    assert (root b = root d) as Hbr.
    { apply Hroot; [done..|]. apply rtsc_edge_rtc_close; [done|].
      apply rtc_once. by apply close_sym. }
    assert (d ∈ component root hashes.*1 d) as H1 by (by apply list_elem_of_filter).
    assert (b ∈ component root hashes.*1 d) as H2 by (by apply list_elem_of_filter).
    destruct (component root hashes.*1 d) as [|z [|??]]; simplify_eq/=.
    apply list_elem_of_singleton in H1, H2. congruence.
  - intros [Hd Hiso]. split; [done|]. unfold component.
    rewrite (filter_only _ _ d); [done..|].
    intros b Hb Hbr. apply isolated_chain; [done|].
    apply Hroot; [done..|]. by symmetry.
Qed.

End isolated.

(** X3. In the report of a run (distinct domains, symmetric distance) the
    singletons are exactly the domains that have no other domain within the
    threshold. So when no two domains are within the threshold, the report
    has no cluster and lists every domain, sorted, as a singleton. *)
Theorem singleton_iff_isolated {ImageHash : Type}
    (hash_sub : ImageHash → ImageHash → Z)
    (hashes : list (string * ImageHash)) :
  (∀ h1 h2, hash_sub h1 h2 = hash_sub h2 h1) → NoDup hashes.*1 →
  ∃ r, cluster hash_sub hashes = Some r ∧
    (∀ d, d ∈ report_singletons r ↔
          d ∈ hashes.*1 ∧ isolated hash_sub hashes d) ∧
    ((∀ d, d ∈ hashes.*1 → isolated hash_sub hashes d) →
     report_clusters r = [] ∧
     report_singletons r = py_sorted String.le id hashes.*1).
Proof.
  intros Hsym Hnd.
  destruct (cluster_spec hash_sub hashes) as (root & Hrun & Hclosed & Hroot).
  eexists. split; [exact Hrun|].
  pose proof (λ d, singleton_isolated hash_sub hashes Hsym Hnd root d
                     Hclosed Hroot) as Hiff.
  split; [done|]. intros Hall.
  set (r := report_of (length hashes) (group_by root hashes.*1)).
  assert (report_singletons r ≡ₚ hashes.*1) as Hsingles.
  { apply NoDup_Permutation;
      [by apply (report_clusters_nodup root hashes.*1 _ Hclosed Hnd)|done|].
    intros d. unfold r. rewrite Hiff. naive_solver. }
  split.
  - pose proof (groups_perm root hashes.*1 (length hashes) Hclosed) as Hperm.
    fold r in Hperm. unfold groups in Hperm.
    rewrite concat_app, concat_singletons, Hsingles in Hperm.
    apply Permutation_length in Hperm. rewrite length_app in Hperm.
    destruct (report_clusters r) as [|g gs] eqn:Hg; [done|exfalso].
    assert (g ∈ report_clusters r) as Hin by (rewrite Hg; left).
    apply (elem_of_report_clusters root hashes.*1) in Hin
      as (k & v & _ & Hlen & ->).
    simpl in Hperm. rewrite length_app in Hperm.
    rewrite (Permutation_length (py_sorted_perm String.le id v)) in Hperm. lia.
  - eapply (StronglySorted_unique String.le).
    + apply (py_sorted_sorted String.le id).
    + apply (py_sorted_sorted String.le id).
    + by rewrite py_sorted_perm.
Qed.

(** X4. When every two domains of a run of at least two domains are joined
    by a chain of pairs within the threshold, the report is the one cluster
    of all domains, sorted, and no singleton. *)
Theorem connected_one_cluster {ImageHash : Type}
    (hash_sub : ImageHash → ImageHash → Z)
    (hashes : list (string * ImageHash)) :
  (∀ h1 h2, hash_sub h1 h2 = hash_sub h2 h1) →
  (2 ≤ length hashes)%nat →
  (∀ a b, a ∈ hashes.*1 → b ∈ hashes.*1 → rtc (close hash_sub hashes) a b) →
  cluster hash_sub hashes
  = Some (Report (length hashes) [py_sorted String.le id hashes.*1] []).
Proof.
  intros Hsym Hlen Hconn.
  destruct (cluster_spec hash_sub hashes) as (root & Hrun & Hclosed & Hroot).
  rewrite Hrun. f_equal.
  destruct hashes as [|[d0 h0] hs] eqn:Hh; [simpl in Hlen; lia|].
  rewrite <-Hh in *.
  assert (d0 ∈ hashes.*1) as Hd0 by (rewrite Hh; left).
  rewrite (group_by_const root (root d0)).
  - unfold report_of, multi_clusters, singletons, sorted_clusters.
    rewrite filter_cons, decide_True, filter_nil
      by (simpl; rewrite length_fmap; lia).
    rewrite filter_cons, decide_False, filter_nil
      by (simpl; rewrite length_fmap; lia).
    done.
  - rewrite Hh. done.
  - intros d Hd. apply Hroot; [done..|].
    apply rtsc_edge_rtc_close; [done|]. by apply Hconn.
Qed.

Lemma singleton_iff_isolated_witness :
  ∃ r, cluster phash_sub sample_hashes = Some r ∧
    (∀ d, d ∈ report_singletons r ↔
          d ∈ sample_hashes.*1 ∧ isolated phash_sub sample_hashes d) ∧
    ((∀ d, d ∈ sample_hashes.*1 → isolated phash_sub sample_hashes d) →
     report_clusters r = [] ∧
     report_singletons r = py_sorted String.le id sample_hashes.*1).
Proof.
  apply (singleton_iff_isolated phash_sub sample_hashes phash_sub_sym).
  apply (bool_decide_unpack _); vm_compute; exact I.
Defined.

(** Two logos one bit apart. *)
Definition near_pair : list (string * Z) := [("a.com", 0); ("b.com", 1)].

Lemma connected_one_cluster_witness :
  cluster phash_sub near_pair
  = Some (Report 2 [py_sorted String.le id ["a.com"; "b.com"]] []).
Proof.
  apply (connected_one_cluster phash_sub near_pair phash_sub_sym).
  - simpl. lia.
  - assert (close phash_sub near_pair "a.com" "b.com") as Hab.
    { exists 0, 1. split_and!; [reflexivity..|]. vm_compute. discriminate. }
    assert (close phash_sub near_pair "b.com" "a.com") as Hba.
    { exists 1, 0. split_and!; [reflexivity..|]. vm_compute. discriminate. }
    intros a b Ha Hb. unfold near_pair in Ha, Hb. simpl in Ha, Hb.
    apply elem_of_cons in Ha as [->|Ha%list_elem_of_singleton];
      apply elem_of_cons in Hb as [->|Hb%list_elem_of_singleton]; subst;
      first [apply rtc_refl|by apply rtc_once].
Defined.

(** ** Depth of the recursion *)

(** The number of known domains whose representative is [r]. *)
Definition tree_size (D : list string) (parent : gmap string string)
    (r : string) : Z :=
  Z.of_nat (length (filter (λ y, root_fn D parent y = r) D)).

(** Union by rank keeps the trees large: a root of rank [k] stands for at
    least [2 ^ k] domains. *)
Definition size_inv (D : list string) (parent : gmap string string)
    (rank : gmap string Z) : Prop :=
  ∀ r k, r ∈ D → parent !! r = Some r → rank !! r = Some k →
         2 ^ k ≤ tree_size D parent r.

Lemma filter_ext_elem {A} (P Q : A → Prop) `{!∀ x, Decision (P x)}
    `{!∀ x, Decision (Q x)} (l : list A) :
  (∀ x, x ∈ l → P x ↔ Q x) → filter P l = filter Q l.
Proof.
  induction l as [|a l IH]; intros HPQ; [done|].
  rewrite !filter_cons, IH by (intros x Hx; apply HPQ; by right).
  destruct (decide (P a)) as [HP|HP].
  - by rewrite decide_True by (apply HPQ; [left|done]).
  - rewrite decide_False; [done|]. intros HQ. apply HP, HPQ; [left|done].
Qed.

Lemma length_filter_or {A} (P Q R : A → Prop) `{!∀ x, Decision (P x)}
    `{!∀ x, Decision (Q x)} `{!∀ x, Decision (R x)} (l : list A) :
  (∀ x, x ∈ l → R x ↔ P x ∨ Q x) → (∀ x, x ∈ l → P x → Q x → False) →
  length (filter R l) = (length (filter P l) + length (filter Q l))%nat.
Proof.
  induction l as [|a l IH]; intros HR Hdisj; [done|].
  rewrite !filter_cons.
  assert (length (filter R l)
          = (length (filter P l) + length (filter Q l))%nat) as IH'.
  { apply IH; intros x Hx; [apply HR|apply Hdisj]; by right. }
  pose proof (HR a ltac:(left)) as Ha. pose proof (Hdisj a ltac:(left)) as Hd.
  destruct (decide (P a)), (decide (Q a)), (decide (R a)); simpl;
    try lia; tauto.
Qed.

Lemma root_fn_root_of D parent rank y r :
  uf_inv D parent rank → y ∈ D →
  root_fn D parent y = r ↔ root_of parent y r.
Proof.
  intros Hinv Hy. pose proof (root_fn_spec D parent rank y Hinv Hy) as Hr.
  split; [by intros <-|]. intros Hr'. by eapply root_of_fun.
Qed.

Lemma tree_size_compressed D parent parent' rank r :
  uf_inv D parent rank → compressed parent parent' →
  tree_size D parent' r = tree_size D parent r.
Proof.
  intros Hinv Hc. unfold tree_size. f_equal. f_equal.
  apply filter_ext_elem. intros y Hy.
  rewrite (root_fn_root_of D parent' rank) by (by eapply compressed_inv || done).
  rewrite (root_fn_root_of D parent rank) by done.
  by apply compressed_root_of.
Qed.

Lemma size_inv_compressed D parent parent' rank :
  uf_inv D parent rank → compressed parent parent' →
  size_inv D parent rank → size_inv D parent' rank.
Proof.
  intros Hinv Hc Hsize r k Hr Hroot Hk.
  rewrite (tree_size_compressed D parent parent' rank) by done.
  apply Hsize; [done| |done]. by apply (compressed_roots _ _ _ Hc).
Qed.

(** The trees after the root [l] is put under the root [w]. *)
Lemma tree_size_link D parent rank rank' l w r :
  uf_inv D parent rank → uf_inv D (<[l := w]> parent) rank' →
  parent !! l = Some l → parent !! w = Some w → l ≠ w → r ≠ l →
  tree_size D (<[l := w]> parent) r
  = if decide (r = w) then tree_size D parent w + tree_size D parent l
    else tree_size D parent r.
Proof.
  intros Hinv Hinv' Hl Hw Hlw Hrl. unfold tree_size.
  assert (∀ y, y ∈ D →
            root_fn D (<[l := w]> parent) y
            = if decide (root_fn D parent y = l) then w
              else root_fn D parent y) as Hroot.
  { intros y Hy. apply (root_fn_root_of D _ rank'); [done..|].
    apply link_root_of; [done..|]. by eapply root_fn_spec. }
  case_decide as Hrw.
  - subst r. rewrite <-Nat2Z.inj_add. f_equal.
    apply length_filter_or.
    + intros y Hy. rewrite Hroot by done. case_decide; naive_solver.
    + intros y _ H1 H2. congruence.
  - f_equal. f_equal. apply filter_ext_elem. intros y Hy.
    rewrite Hroot by done. case_decide; naive_solver.
Qed.

Lemma tree_size_pos D parent rank r :
  uf_inv D parent rank → r ∈ D → parent !! r = Some r →
  1 ≤ tree_size D parent r.
Proof.
  intros Hinv Hr Hroot. unfold tree_size.
  assert (r ∈ filter (λ y, root_fn D parent y = r) D) as Hin.
  { apply list_elem_of_filter. split; [|done].
    apply (root_fn_root_of D parent rank); [done..|]. by constructor. }
  destruct (filter _ D); [by apply elem_of_nil in Hin|]. simpl. lia.
Qed.

Lemma size_inv_initial D : size_inv D (initial_parent D) (initial_rank D).
Proof.
  intros r k Hr Hroot. rewrite initial_rank_lookup, decide_True by done.
  intros [= <-]. by eapply tree_size_pos; [apply initial_inv|..].
Qed.

Lemma size_inv_link D parent rank l w rl rw :
  uf_inv D parent rank → size_inv D parent rank → l ∈ D → w ∈ D →
  parent !! l = Some l → parent !! w = Some w → l ≠ w →
  rank !! l = Some rl → rank !! w = Some rw → rl < rw →
  size_inv D (<[l := w]> parent) rank.
Proof.
  intros Hinv Hsize HlD HwD Hl Hw Hlw Hrl Hrw Hlt.
  pose proof (link_inv D parent rank l w rl rw Hinv HlD HwD Hl Hw Hlw Hrl Hrw
                Hlt) as Hinv'.
  intros r k Hr Hroot Hk.
  assert (r ≠ l) as Hne.
  { intros ->. rewrite lookup_insert_eq in Hroot. congruence. }
  rewrite lookup_insert_ne in Hroot by done.
  rewrite (tree_size_link D parent rank rank l w r) by done.
  pose proof (Hsize r k Hr Hroot Hk).
  pose proof (tree_size_pos D parent rank l Hinv HlD Hl).
  case_decide; [subst r|]; lia.
Qed.

Lemma size_inv_link_tie D parent rank l w k :
  uf_inv D parent rank → size_inv D parent rank → l ∈ D → w ∈ D →
  parent !! l = Some l → parent !! w = Some w → l ≠ w →
  rank !! l = Some k → rank !! w = Some k →
  size_inv D (<[l := w]> parent) (<[w := k + 1]> rank).
Proof.
  intros Hinv Hsize HlD HwD Hl Hw Hlw Hrl Hrw.
  pose proof (link_inv_tie D parent rank l w k Hinv HlD HwD Hl Hw Hlw Hrl Hrw)
    as Hinv'.
  intros r j Hr Hroot Hj.
  assert (r ≠ l) as Hne.
  { intros ->. rewrite lookup_insert_eq in Hroot. congruence. }
  rewrite lookup_insert_ne in Hroot by done.
  rewrite (tree_size_link D parent rank (<[w := k + 1]> rank) l w r) by done.
  pose proof (Hsize l k HlD Hl Hrl) as Hsl.
  pose proof (Hsize w k HwD Hw Hrw) as Hsw.
  pose proof (inv_rank_le _ _ _ Hinv w k HwD Hrw) as [Hk0 _].
  case_decide as Hrw'.
  - subst r. rewrite lookup_insert_eq in Hj. injection Hj as <-.
    rewrite Z.pow_add_r by lia. lia.
  - rewrite lookup_insert_ne in Hj by done. by apply Hsize.
Qed.

(** What one union does to a forest: it compresses, and then it leaves the
    forest as it is or puts one root under another, by rank. *)
Lemma union_clusters_cases D parent rank x y parent' rank' :
  uf_inv D parent rank → x ∈ D → y ∈ D →
  union_clusters (S (length D)) parent rank x y = Some (parent', rank') →
  ∃ p2, compressed parent p2 ∧
    ((parent' = p2 ∧ rank' = rank) ∨
     ∃ l w rl rw, l ∈ D ∧ w ∈ D ∧ l ≠ w ∧
       p2 !! l = Some l ∧ p2 !! w = Some w ∧
       rank !! l = Some rl ∧ rank !! w = Some rw ∧
       parent' = <[l := w]> p2 ∧
       ((rl < rw ∧ rank' = rank) ∨ (rl = rw ∧ rank' = <[w := rl + 1]> rank))).
Proof.
  intros Hinv Hx Hy. unfold union_clusters.
  destruct (find_cluster_enough D parent rank x Hinv Hx) as [[p1 rx] Hf1].
  rewrite Hf1. simpl.
  pose proof (find_cluster_spec _ _ _ _ _ Hf1) as [Hrx Hc1].
  pose proof (compressed_inv D _ _ rank Hc1 Hinv) as Hinv1.
  destruct (find_cluster_enough D p1 rank y Hinv1 Hy) as [[p2 ry] Hf2].
  rewrite Hf2. simpl.
  pose proof (find_cluster_spec _ _ _ _ _ Hf2) as [Hry Hc2].
  pose proof (compressed_trans _ _ _ Hc1 Hc2) as Hc.
  apply (compressed_root_of _ _ _ _ Hc1) in Hry.
  pose proof (root_of_in D parent rank x rx Hinv Hx Hrx) as HrxD.
  pose proof (root_of_in D parent rank y ry Hinv Hy Hry) as HryD.
  assert (p2 !! rx = Some rx) as Hprx.
  { apply (compressed_roots _ _ _ Hc). by eapply root_of_is_root. }
  assert (p2 !! ry = Some ry) as Hpry.
  { apply (compressed_roots _ _ _ Hc). by eapply root_of_is_root. }
  intros Hu. exists p2. split; [done|].
  case_decide as Hne; [|left; by simplify_eq].
  destruct (inv_rank _ _ _ Hinv rx HrxD) as [kx Hkx].
  destruct (inv_rank _ _ _ Hinv ry HryD) as [ky Hky].
  rewrite Hkx, Hky in Hu. simpl in Hu. right.
  destruct (decide (kx < ky)) as [Hlt|Hnlt];
    [|destruct (decide (kx > ky)) as [Hgt|Hngt]]; simplify_eq.
  - exists rx, ry, kx, ky. split_and!; [done..|]. by left.
  - exists ry, rx, ky, kx. split_and!; [done|done|done|done|done|done|done|done|].
    left. split; [lia|done].
  - assert (ky = kx) as -> by lia.
    exists ry, rx, kx, kx. split_and!; [done|done|done|done|done|done|done|done|].
    by right.
Qed.

Lemma reachable_size_inv D parent rank :
  reachable D parent rank → size_inv D parent rank.
Proof.
  induction 1 as [|parent rank x y parent' rank' Hreach IH Hx Hy Hu
                  |parent rank x parent' r Hreach IH Hx Hf].
  - apply size_inv_initial.
  - pose proof (reachable_inv _ _ _ Hreach) as Hinv.
    destruct (union_clusters_cases D parent rank x y parent' rank' Hinv Hx Hy Hu)
      as (p2 & Hc & Hcases).
    pose proof (compressed_inv D _ _ rank Hc Hinv) as Hinv2.
    pose proof (size_inv_compressed D _ _ rank Hinv Hc IH) as Hsize2.
    destruct Hcases as [[-> ->]|(l & w & rl & rw & Hl & Hw & Hlw & Hpl & Hpw
                                 & Hrl & Hrw & -> & Hrank)]; [done|].
    destruct Hrank as [[Hlt ->]|[-> ->]].
    + by eapply size_inv_link.
    + by eapply size_inv_link_tie.
  - pose proof (reachable_inv _ _ _ Hreach) as Hinv.
    apply find_cluster_spec in Hf as [_ Hc].
    by eapply size_inv_compressed.
Qed.

(** The finds need as many nested calls as the ranks leave room between
    a node and its root, and one more. *)
Lemma find_cluster_by_rank D parent rank fuel x rx r rr :
  uf_inv D parent rank → x ∈ D → rank !! x = Some rx →
  root_of parent x r → rank !! r = Some rr →
  (Z.to_nat (rr - rx) < fuel)%nat →
  is_Some (find_cluster fuel parent x).
Proof.
  intros Hinv. revert x rx.
  induction fuel as [|fuel IH]; intros x rx Hx Hrx Hr Hrr Hfuel; [lia|].
  unfold find_cluster; fold find_cluster.
  destruct (inv_parent _ _ _ Hinv x Hx) as (p & Hp & HpD).
  rewrite Hp. simpl. case_decide as Hne; [|eauto].
  destruct (inv_rank _ _ _ Hinv p HpD) as [rp Hrp].
  pose proof (inv_rank_lt _ _ _ Hinv x p rx rp Hx Hp Hne Hrx Hrp) as Hlt.
  assert (root_of parent p r) as Hpr.
  { inversion Hr as [? Hxx|? p' ? Hp' _ Hr']; subst; [congruence|].
    by assert (p' = p) as -> by congruence. }
  assert (rp ≤ rr) as Hle.
  { destruct (decide (r = p)) as [->|Hrp']; [by simplify_eq|].
    pose proof (root_of_rank D parent rank p r rp rr Hinv HpD Hpr Hrp' Hrp Hrr).
    lia. }
  destruct (IH p rp HpD Hrp Hpr Hrr) as [[parent1 r1] Hfind]; [lia|].
  rewrite Hfind. simpl. rewrite lookup_insert_eq. simpl. eauto.
Qed.

(** More fuel does not change what a find returns. *)
Lemma find_cluster_more_fuel fuel fuel' parent x res :
  (fuel ≤ fuel')%nat →
  find_cluster fuel parent x = Some res → find_cluster fuel' parent x = Some res.
Proof.
  revert fuel' parent x res.
  induction fuel as [|fuel IH]; intros fuel' parent x res Hle; [done|].
  destruct fuel' as [|fuel']; [lia|].
  unfold find_cluster; fold find_cluster.
  destruct (parent !! x) as [px|]; simpl; [|done].
  case_decide; [|done].
  destruct (find_cluster fuel parent px) as [[p1 r1]|] eqn:Hf; simpl; [|done].
  by rewrite (IH fuel' parent px (p1, r1)) by (lia || done).
Qed.

(** The largest number of nested calls of [find_cluster] for [n] domains. *)
Definition max_depth (n : nat) : nat := S (Z.to_nat (Z.log2 (Z.of_nat n))).

(** X18. The recursion of [find_cluster] is shallow. On every forest that
    the program can hold for [n] known domains, a find on a known domain
    returns within [1 + floor (log2 n)] nested calls: union by rank keeps a
    root of rank [k] over at least [2 ^ k] domains, and ranks grow strictly
    along the parent links. *)
Theorem find_cluster_depth_is_logarithmic D parent rank x :
  reachable D parent rank → x ∈ D →
  ∃ res,
    find_cluster (max_depth (length D)) parent x = Some res ∧
    find_cluster (S (length D)) parent x = Some res.
Proof.
  intros Hreach Hx.
  pose proof (reachable_inv _ _ _ Hreach) as Hinv.
  pose proof (reachable_size_inv _ _ _ Hreach) as Hsize.
  destruct (has_root D parent rank x Hinv Hx) as (r & Hr & HrD).
  destruct (inv_rank _ _ _ Hinv x Hx) as [rx Hrx].
  destruct (inv_rank _ _ _ Hinv r HrD) as [rr Hrr].
  pose proof (inv_rank_le _ _ _ Hinv x rx Hx Hrx) as [Hrx0 _].
  pose proof (inv_rank_le _ _ _ Hinv r rr HrD Hrr) as [Hrr0 _].
  pose proof (Hsize r rr HrD (root_of_is_root _ _ _ Hr) Hrr) as Hpow.
  assert (tree_size D parent r ≤ Z.of_nat (length D)) as Hlen.
  { unfold tree_size. pose proof (length_filter (λ y, root_fn D parent y = r) D).
    lia. }
  assert (rr ≤ Z.log2 (Z.of_nat (length D))) as Hlog.
  { apply Z.log2_le_pow2; lia. }
  destruct (find_cluster_by_rank D parent rank (max_depth (length D)) x rx r rr)
    as [res Hres]; [done..|unfold max_depth; lia|].
  exists res. split; [done|].
  apply (find_cluster_more_fuel (max_depth (length D))); [|done].
  unfold max_depth.
  assert (Z.log2 (Z.of_nat (length D)) ≤ Z.of_nat (length D)); [|lia].
  destruct (length D) as [|n]; [done|].
  pose proof (Z.log2_lt_lin (Z.of_nat (S n))). lia.
Qed.

Lemma find_cluster_depth_is_logarithmic_witness :
  ∃ res,
    find_cluster (max_depth (length four_domains)) chain_parent "d.com"
      = Some res ∧
    find_cluster (S (length four_domains)) chain_parent "d.com" = Some res.
Proof.
  apply (find_cluster_depth_is_logarithmic four_domains chain_parent chain_rank).
  - apply chain_reachable.
  - unfold four_domains. set_solver.
Defined.

(** The bound is met: the path of [d.com] has three nodes, and two nested
    calls do not reach its end. *)
Example chain_depth :
  max_depth (length four_domains) = 3%nat ∧
  find_cluster 2 chain_parent "d.com" = None.
Proof. split; vm_compute; reflexivity. Qed.

(** ** The counts of the report heading *)

(** X19. The counts that head the report add up: the total number of logos
    is the number of the domains listed in the clusters plus the number of
    the singletons, and it is the number of hashed domains. *)
Theorem report_counts_add_up {ImageHash : Type}
    (hash_sub : ImageHash → ImageHash → Z)
    (hashes : list (string * ImageHash)) :
  ∃ r, cluster hash_sub hashes = Some r ∧
    total_logos r = length hashes ∧
    total_logos r
    = (length (concat (report_clusters r)) + length (report_singletons r))%nat.
Proof.
  destruct (cluster_spec hash_sub hashes) as (root & Hrun & Hclosed & _).
  eexists. split; [exact Hrun|]. split; [done|].
  pose proof (groups_perm root hashes.*1 (length hashes) Hclosed) as Hperm.
  apply Permutation_length in Hperm. unfold groups in Hperm.
  rewrite concat_app, concat_singletons, length_app, length_fmap in Hperm.
  by rewrite Hperm.
Qed.

End ClusterMore.

(** ** The manifest *)

Module ManifestFacts.
Import PyFacts Cluster Manifest.

(** The paths that the manifest entries give for the domain [d], in order. *)
Definition paths_of (d : string) (entries : list (string * string))
  : list string :=
  (filter (λ e, e.1 = d) entries).*2.

(** The domains of the entries whose image loads, in order. *)
Definition loaded_domains {H} (hash_of : string → option H)
    (entries : list (string * string)) : list string :=
  (filter (λ e, is_Some (hash_of e.2)) entries).*1.

(** The elements of a list in the order of their first occurrence. *)
Definition first_seen (l : list string) : list string :=
  foldl (λ acc x, if decide (x ∈ acc) then acc else acc ++ [x]) [] l.

Section hashes.
Context {H : Type} (hash_of : string → option H).

Definition step (hashes : list (string * H)) (e : string * string)
  : list (string * H) :=
  match hash_of e.2 with
  | Some h => dict_set hashes e.1 h
  | None => hashes
  end.

Lemma hashes_of_entries_fold entries :
  hashes_of_entries hash_of entries = foldl step [] entries.
Proof.
  unfold hashes_of_entries. generalize (@nil (string * H)) as init.
  induction entries as [|[d p] entries IH]; intros init; [done|].
  simpl. apply IH.
Qed.

Lemma fold_lookup entries init d :
  dict_get (foldl step init entries) d
  = match last (omap hash_of (paths_of d entries)) with
    | Some h => Some h
    | None => dict_get init d
    end.
Proof.
  revert init. induction entries as [|[dom p] entries IH]; intros init; [done|].
  simpl. rewrite IH. unfold paths_of, step. rewrite filter_cons. simpl.
  destruct (decide (dom = d)) as [->|Hne].
  - rewrite fmap_cons. simpl.
    destruct (hash_of p) as [h|] eqn:Hp; simpl; [|done].
    rewrite dict_get_set, decide_True by done.
    rewrite last_cons. by destruct (last _).
  - destruct (last _); [done|].
    destruct (hash_of p); [|done]. by rewrite dict_get_set, decide_False.
Qed.

Lemma fold_keys entries init :
  (foldl step init entries).*1
  = foldl (λ acc x, if decide (x ∈ acc) then acc else acc ++ [x]) init.*1
      (loaded_domains hash_of entries).
Proof.
  revert init. induction entries as [|[dom p] entries IH]; intros init; [done|].
  simpl. rewrite IH. unfold loaded_domains, step. rewrite filter_cons. simpl.
  destruct (hash_of p) as [h|] eqn:Hp.
  - rewrite decide_True by eauto. simpl. by rewrite dict_set_keys.
  - by rewrite decide_False by (by intros [? ?]).
Qed.

End hashes.

(** X5. The mapping from domains to hashes that [main] builds from the
    manifest entries: the hash of a domain is the hash of the last of its
    entries whose image loads, a domain none of whose images loads has no
    hash, and the domains stand in the order of their first entry whose
    image loads. *)
Theorem hashes_of_entries_last_loaded {H} (hash_of : string → option H)
    (entries : list (string * string)) :
  (∀ d, dict_get (hashes_of_entries hash_of entries) d
        = last (omap hash_of (paths_of d entries))) ∧
  (hashes_of_entries hash_of entries).*1
  = first_seen (loaded_domains hash_of entries) ∧
  NoDup (hashes_of_entries hash_of entries).*1.
Proof.
  split_and!.
  - intros d. rewrite hashes_of_entries_fold, fold_lookup. by destruct (last _).
  - by rewrite hashes_of_entries_fold, fold_keys.
  - apply ClusterFacts.hashes_of_entries_nodup.
Qed.

Lemma hashes_of_entries_last_loaded_sample :
  hashes_of_entries (λ p, if decide (p = "logos/b2.png") then None else Some p)
    [("a.com", "logos/a.png"); ("b.com", "logos/b1.png");
     ("a.com", "logos/a2.png"); ("b.com", "logos/b2.png")]
  = [("a.com", "logos/a2.png"); ("b.com", "logos/b1.png")].
Proof. vm_compute. reflexivity. Qed.

(** ** The manifest in the visualizer *)

(** What a row contributes: [None] is a [KeyError], [Some None] a row that
    is skipped. *)
Definition row_entry (r : row) : option (option (string * string)) :=
  local_path ← dict_get r "local_path";
  match filled local_path with
  | None => Some None
  | Some local_path =>
      domain ← dict_get r "domain";
      match filled domain with
      | None => Some None
      | Some domain => Some (Some (domain, local_path))
      end
  end.

Lemma entries_row entries r :
  (local_path ← dict_get r "local_path";
   match filled local_path with
   | None => Some entries
   | Some local_path =>
       domain ← dict_get r "domain";
       match filled domain with
       | None => Some entries
       | Some domain => Some (entries ++ [(domain, local_path)])
       end
   end)
  = (λ e, entries ++ option_list e) <$> row_entry r.
Proof.
  unfold row_entry.
  destruct (dict_get r "local_path") as [lp|]; simpl; [|done].
  destruct (filled lp) as [p|]; simpl; [|by rewrite List.app_nil_r].
  destruct (dict_get r "domain") as [dm|]; simpl; [|done].
  destruct (filled dm) as [d|]; simpl; [done|by rewrite List.app_nil_r].
Qed.

Lemma domain_to_path_row domain_to_path r :
  (local_path ← dict_get r "local_path";
   match filled local_path with
   | None => Some domain_to_path
   | Some local_path =>
       domain ← dict_get r "domain";
       match filled domain with
       | None => Some domain_to_path
       | Some domain => Some (dict_set domain_to_path domain local_path)
       end
   end)
  = (λ e, foldl (step Some) domain_to_path (option_list e)) <$> row_entry r.
Proof.
  unfold row_entry.
  destruct (dict_get r "local_path") as [lp|]; simpl; [|done].
  destruct (filled lp) as [p|]; simpl; [|done].
  destruct (dict_get r "domain") as [dm|]; simpl; [|done].
  by destruct (filled dm) as [d|].
Qed.

Local Arguments row_entry : simpl never.

Lemma read_entries_rows rows acc :
  for_each rows acc
    (λ entries row,
       local_path ← dict_get row "local_path";
       match filled local_path with
       | None => Some entries
       | Some local_path =>
           domain ← dict_get row "domain";
           match filled domain with
           | None => Some entries
           | Some domain => Some (entries ++ [(domain, local_path)])
           end
       end)
  = (λ es, acc ++ omap id es) <$> mapM row_entry rows.
Proof.
  revert acc. induction rows as [|r rows IH]; intros acc.
  - simpl. by rewrite List.app_nil_r.
  - cbn [for_each]. rewrite entries_row. csimpl.
    destruct (row_entry r) as [e|]; simpl; [|done].
    rewrite IH. destruct (mapM row_entry rows) as [es|]; simpl; [|done].
    destruct e; simpl; by rewrite <-?(assoc_L (++)), ?List.app_nil_r.
Qed.

Lemma read_domain_to_path_rows rows acc :
  for_each rows acc
    (λ domain_to_path row,
       local_path ← dict_get row "local_path";
       match filled local_path with
       | None => Some domain_to_path
       | Some local_path =>
           domain ← dict_get row "domain";
           match filled domain with
           | None => Some domain_to_path
           | Some domain => Some (dict_set domain_to_path domain local_path)
           end
       end)
  = (λ es, foldl (step Some) acc (omap id es)) <$> mapM row_entry rows.
Proof.
  revert acc. induction rows as [|r rows IH]; intros acc; [done|].
  cbn [for_each]. rewrite domain_to_path_row. csimpl.
  destruct (row_entry r) as [e|]; simpl; [|done].
  rewrite IH. destruct (mapM row_entry rows) as [es|]; simpl; [|done].
  by destruct e.
Qed.

Lemma last_omap_all {A B} (f : A → option B) (l : list A) :
  Forall (λ x, is_Some (f x)) l → last (omap f l) = last l ≫= f.
Proof.
  destruct l as [|x l _] using rev_ind; [done|].
  intros [_ [[y Hy] _]%Forall_cons]%Forall_app.
  rewrite omap_app, last_snoc. simpl. rewrite Hy. simpl. by rewrite last_snoc.
Qed.

(** X6. Both programs read the same manifest: either both raise (a column
    is missing) or the visualizer maps each domain to the path of its last
    entry in the list that the clustering program hashes. When every image
    of the manifest loads, the visualizer therefore shows for each domain
    the image whose hash was clustered, and it knows the domains in the
    order in which they were clustered. *)
Theorem manifest_views_agree {H} (hash_of : string → option H)
    (rows : list row) :
  option_Forall2
    (λ entries domain_to_path,
       (∀ d, dict_get domain_to_path d = last (paths_of d entries)) ∧
       (Forall (λ e, is_Some (hash_of e.2)) entries →
        (hashes_of_entries hash_of entries).*1 = domain_to_path.*1 ∧
        ∀ d, dict_get (hashes_of_entries hash_of entries) d
             = dict_get domain_to_path d ≫= hash_of))
    (read_entries rows) (read_domain_to_path rows).
Proof.
  unfold read_entries, read_domain_to_path.
  rewrite read_entries_rows, read_domain_to_path_rows.
  destruct (mapM row_entry rows) as [es|]; simpl; constructor.
  rewrite <-(hashes_of_entries_fold Some).
  set (entries := omap id es).
  assert (∀ d, dict_get (hashes_of_entries Some entries) d
               = last (paths_of d entries)) as Hpath.
  { intros d. rewrite hashes_of_entries_fold, fold_lookup.
    assert (omap Some (paths_of d entries) = paths_of d entries) as ->.
    { induction (paths_of d entries) as [|p ps IH]; [done|].
      cbn. by rewrite IH. }
    by destruct (last _). }
  split; [done|]. intros Hall. split.
  - rewrite !hashes_of_entries_fold, !fold_keys. f_equal.
    unfold loaded_domains. f_equal.
    clear Hpath. induction Hall as [|e l He _ IH]; [done|].
    rewrite !filter_cons, !decide_True by eauto. by rewrite IH.
  - intros d. rewrite Hpath, hashes_of_entries_fold, fold_lookup.
    rewrite last_omap_all; [by destruct (last _ ≫= _)|].
    unfold paths_of. apply Forall_fmap, Forall_forall.
    intros e [_ He]%list_elem_of_filter.
    by eapply Forall_forall in Hall.
Qed.

End ManifestFacts.

(** ** The report parser of the visualizer *)

Module VisualizeFacts.
Import Stdlib.Strings.Ascii.
Import PyFacts StrFacts.
Import Cluster(report, Report, total_logos, report_clusters, report_singletons,
               render, nl, pretty_nat, domain_line, cluster_section, cluster,
               HASH_THRESHOLD).
Import Visualize(lf, cr, universal_newlines, file_lines, parse_state,
                 ParseState, parse_line, parse_cluster_report, flushed).

(** ** Lines of a text *)

(** No line break inside the string. *)
Fixpoint one_line (s : string) : bool :=
  match s with
  | EmptyString => true
  | String c s => negb (bool_decide (c = lf)) && negb (bool_decide (c = cr))
                  && one_line s
  end.

Lemma one_line_app s t : one_line (s +:+ t) = one_line s && one_line t.
Proof.
  induction s as [|c s IH]; [done|].
  rewrite app_cons. simpl. rewrite IH. by rewrite !andb_assoc.
Qed.

(** The text made of the given lines, each ended by a line feed. *)
Definition unlines (ls : list string) : string :=
  String.concat "" ((λ l, l +:+ nl) <$> ls).

Lemma sconcat_cons x l : String.concat "" (x :: l) = x +:+ String.concat "" l.
Proof. destruct l; simpl; [by rewrite app_nil_r|done]. Qed.

Lemma sconcat_app l1 l2 :
  String.concat "" (l1 ++ l2) = String.concat "" l1 +:+ String.concat "" l2.
Proof.
  induction l1 as [|x l1 IH]; [done|].
  rewrite <-app_comm_cons, !sconcat_cons, IH. by rewrite app_assoc.
Qed.

Lemma unlines_cons l ls : unlines (l :: ls) = l +:+ nl +:+ unlines ls.
Proof. unfold unlines. by rewrite fmap_cons, sconcat_cons, app_assoc. Qed.

Lemma unlines_app l1 l2 : unlines (l1 ++ l2) = unlines l1 +:+ unlines l2.
Proof. unfold unlines. by rewrite fmap_app, sconcat_app. Qed.

Lemma universal_newlines_line l rest :
  one_line l = true →
  universal_newlines (l +:+ nl +:+ rest) = l +:+ nl +:+ universal_newlines rest.
Proof.
  induction l as [|c l IH]; intros Hl.
  - done.
  - simpl in Hl. apply andb_prop in Hl as [[_ Hcr]%andb_prop Hl].
    rewrite !app_cons. simpl. rewrite decide_False.
    + by rewrite IH.
    + intros ->. by rewrite bool_decide_true in Hcr.
Qed.

Lemma file_lines_line l rest :
  one_line l = true →
  file_lines (l +:+ nl +:+ rest) = (l +:+ nl) :: file_lines rest.
Proof.
  induction l as [|c l IH]; intros Hl.
  - done.
  - simpl in Hl. apply andb_prop in Hl as [[Hlf _]%andb_prop Hl].
    rewrite !app_cons. simpl. rewrite decide_False.
    + by rewrite IH.
    + intros ->. by rewrite bool_decide_true in Hlf.
Qed.

Lemma file_lines_unlines ls :
  Forall (λ l, one_line l = true) ls →
  file_lines (universal_newlines (unlines ls)) = (λ l, l +:+ nl) <$> ls.
Proof.
  induction 1 as [|l ls Hl _ IH]; [done|].
  rewrite unlines_cons, universal_newlines_line, file_lines_line by done.
  by rewrite IH.
Qed.

(** Decimal numerals hold digits only. *)
Lemma pretty_N_go_one_line x s :
  one_line s = true → one_line (pretty_N_go x s) = true.
Proof.
  revert s. induction (N.lt_wf_0 x) as [x _ IH]; intros s Hs.
  destruct (decide (0 < x)%N) as [Hx|Hx].
  - rewrite pretty_N_go_step by done. apply IH; [by apply N.div_lt|].
    simpl. rewrite Hs, andb_true_r.
    unfold pretty_N_char. by repeat case_match.
  - assert (x = 0%N) as -> by lia. by rewrite pretty_N_go_0.
Qed.

Lemma pretty_nat_one_line n : one_line (pretty_nat n) = true.
Proof.
  unfold pretty_nat, pretty, pretty.pretty_nat, pretty, pretty_N.
  case_decide; [done|]. by apply pretty_N_go_one_line.
Qed.

(** ** The lines of the report *)

Definition cluster_header (i n : nat) : string :=
  "=== Cluster " +:+ pretty_nat i +:+ " (" +:+ pretty_nat n +:+ " logos) ===".

Definition name_lines (names : list string) : list string :=
  (λ d, "  " +:+ d) <$> names.

Definition section_lines (i : nat) (members : list string) : list string :=
  cluster_header i (length members) :: name_lines members ++ [""].

Definition sections_lines (start : nat) (gs : list (list string))
  : list string :=
  flat_map (λ '(i, members), section_lines i members) (enumerate start gs).

Definition heading_lines (r : report) : list string :=
  ["# Logo Clustering Report (Perceptual Hash)";
   "# Threshold: Hamming distance <= " +:+ pretty HASH_THRESHOLD;
   "# Total logos: " +:+ pretty_nat (total_logos r);
   "# Clusters (2+ logos): " +:+ pretty_nat (length (report_clusters r));
   "# Singletons: " +:+ pretty_nat (length (report_singletons r));
   ""].

Definition report_lines (r : report) : list string :=
  heading_lines r ++ sections_lines 1 (report_clusters r)
  ++ ["=== Singletons ==="] ++ name_lines (report_singletons r).

Lemma names_unlines names :
  String.concat "" (domain_line <$> names) = unlines (name_lines names).
Proof.
  induction names as [|d names IH]; [done|].
  unfold name_lines in *. rewrite !fmap_cons, sconcat_cons, unlines_cons, IH.
  unfold domain_line. by rewrite !app_assoc.
Qed.

Lemma sections_unlines start gs :
  String.concat "" ((λ '(i, members), cluster_section i members)
                      <$> enumerate start gs)
  = unlines (sections_lines start gs).
Proof.
  revert start. induction gs as [|g gs IH]; intros start; [done|].
  unfold sections_lines in *. simpl enumerate.
  rewrite fmap_cons, sconcat_cons, IH. cbn [flat_map].
  rewrite unlines_app. f_equal.
  unfold section_lines, cluster_section, cluster_header.
  rewrite unlines_cons, unlines_app, names_unlines, !app_assoc. done.
Qed.

Lemma render_unlines r : render r = unlines (report_lines r).
Proof.
  unfold render, report_lines, heading_lines.
  rewrite sections_unlines, names_unlines.
  rewrite !unlines_app. rewrite !unlines_cons. rewrite !app_assoc. done.
Qed.

(** ** Reading the report back *)

(** [s.isascii()]: every character of the string is an ASCII character.
    On such strings [Str.strip] is [str.strip] of Python, which on other
    strings also removes the white space that Unicode adds to that of
    ASCII. *)
Fixpoint isascii (s : string) : bool :=
  match s with
  | EmptyString => true
  | String c s => bool_decide (nat_of_ascii c < 128)%nat && isascii s
  end.

(** A name that the report format can carry: made of ASCII characters, not
    empty, without white space at either end, without a line break, and not
    to be taken for a comment or a heading. *)
Record plain_name (d : string) : Prop := {
  plain_ascii : isascii d = true;
  plain_stripped : Str.strip d = d;
  plain_nonempty : d ≠ "";
  plain_one_line : one_line d = true;
  plain_not_comment : Str.startswith "#" d = false;
  plain_not_cluster : Str.startswith "=== Cluster" d = false;
  plain_not_singletons : d ≠ "=== Singletons ===";
}.

Lemma nl_space : Str.is_space lf = true.
Proof. done. Qed.

Lemma parse_comment st s : parse_line st (String "#"%char s +:+ nl) = st.
Proof.
  unfold parse_line. change nl with (String lf "").
  rewrite strip_snoc_space by done.
  destruct (strip_head "#"%char s) as [s' ->]; [done|].
  rewrite decide_False by done. cbn. by destruct s'.
Qed.

Lemma parse_blank st : parse_line st ("" +:+ nl) = st.
Proof. done. Qed.

Lemma cluster_header_strip i n :
  Str.strip (cluster_header i n +:+ nl) = cluster_header i n.
Proof.
  change nl with (String lf ""). rewrite strip_snoc_space by done.
  assert (cluster_header i n
          = String "="%char (("== Cluster " +:+ pretty_nat i +:+ " ("
                         +:+ pretty_nat n +:+ " logos) ==") +:+ String "="%char ""))
    as -> by (by rewrite !app_assoc).
  by apply strip_between.
Qed.

Lemma parse_header st i n :
  parse_line st (cluster_header i n +:+ nl)
  = ParseState (flushed st) (Visualize.singletons st) []
      (Visualize.in_singletons st).
Proof. unfold parse_line. by rewrite cluster_header_strip. Qed.

Lemma parse_singletons_header st :
  parse_line st ("=== Singletons ===" +:+ nl)
  = ParseState (flushed st) (Visualize.singletons st) [] true.
Proof. done. Qed.

Lemma parse_name st d :
  plain_name d →
  parse_line st (("  " +:+ d) +:+ nl)
  = if Visualize.in_singletons st
    then ParseState (Visualize.clusters st) (Visualize.singletons st ++ [d])
           (Visualize.current_cluster st) (Visualize.in_singletons st)
    else ParseState (Visualize.clusters st) (Visualize.singletons st)
           (Visualize.current_cluster st ++ [d]) (Visualize.in_singletons st).
Proof.
  intros [_ Hs Hne Hl Hc Hh Hsg]. unfold parse_line.
  change nl with (String lf "").
  rewrite strip_snoc_space by done.
  change ("  " +:+ d) with (String " "%char (String " "%char d)).
  rewrite !strip_cons_space by done. rewrite Hs, Hh, Hc.
  rewrite decide_False by done. by rewrite bool_decide_false by done.
Qed.

Definition with_nl (ls : list string) : list string := (λ l, l +:+ nl) <$> ls.

Lemma with_nl_app l1 l2 : with_nl (l1 ++ l2) = with_nl l1 ++ with_nl l2.
Proof. apply fmap_app. Qed.

Lemma parse_names st names :
  Forall plain_name names →
  foldl parse_line st (with_nl (name_lines names))
  = if Visualize.in_singletons st
    then ParseState (Visualize.clusters st) (Visualize.singletons st ++ names)
           (Visualize.current_cluster st) (Visualize.in_singletons st)
    else ParseState (Visualize.clusters st) (Visualize.singletons st)
           (Visualize.current_cluster st ++ names) (Visualize.in_singletons st).
Proof.
  intros Hall. revert st. induction Hall as [|d names Hd _ IH]; intros st.
  - destruct st as [? ? ? []]; simpl; by rewrite List.app_nil_r.
  - unfold with_nl, name_lines in *. rewrite !fmap_cons. cbn [foldl].
    rewrite parse_name, IH by done.
    destruct st as [? ? ? []]; simpl; by rewrite <-(assoc_L (++)).
Qed.

Lemma parse_section st i g :
  Forall plain_name g → Visualize.in_singletons st = false →
  foldl parse_line st (with_nl (section_lines i g))
  = ParseState (flushed st) (Visualize.singletons st) g false.
Proof.
  intros Hg Hst. unfold section_lines, with_nl.
  rewrite fmap_cons, fmap_app. cbn [foldl]. rewrite foldl_app.
  rewrite parse_header, Hst.
  rewrite (parse_names _ g Hg). simpl. by rewrite parse_blank.
Qed.

Lemma parse_sections st start gs :
  Forall (λ g, g ≠ [] ∧ Forall plain_name g) gs →
  Visualize.in_singletons st = false →
  let st' := foldl parse_line st (with_nl (sections_lines start gs)) in
  flushed st' = flushed st ++ gs ∧
  Visualize.singletons st' = Visualize.singletons st ∧
  Visualize.in_singletons st' = false ∧
  Visualize.current_cluster st'
  = default (Visualize.current_cluster st) (last gs).
Proof.
  intros Hall. revert st start.
  induction Hall as [|g gs [Hne Hg] _ IH]; intros st start Hst.
  - simpl. by rewrite List.app_nil_r.
  - unfold sections_lines. cbn [enumerate flat_map].
    fold (sections_lines (S start) gs).
    rewrite with_nl_app, foldl_app.
    rewrite (parse_section st start g Hg Hst).
    destruct (IH (ParseState (flushed st) (Visualize.singletons st) g false)
                (S start) eq_refl) as (H1 & H2 & H3 & H4).
    split_and!; [|done..|].
    + rewrite H1. unfold flushed at 1. simpl. destruct g; [done|].
      by rewrite <-(assoc_L (++)).
    + rewrite H4. simpl. destruct gs as [|g' gs']; [done|].
      rewrite last_cons_cons.
      destruct (last (g' :: gs')) eqn:Hlast; [done|].
      by apply last_None in Hlast.
Qed.

Lemma parse_heading st r :
  foldl parse_line st (with_nl (heading_lines r)) = st.
Proof.
  unfold heading_lines, with_nl. rewrite !fmap_cons. cbn [foldl fmap list_fmap].
  change ("# Logo Clustering Report (Perceptual Hash)")
    with (String "#"%char " Logo Clustering Report (Perceptual Hash)").
  change ("# Threshold: Hamming distance <= " +:+ pretty HASH_THRESHOLD)
    with (String "#"%char " Threshold: Hamming distance <= 8").
  change ("# Total logos: " +:+ pretty_nat (total_logos r))
    with (String "#"%char (" Total logos: " +:+ pretty_nat (total_logos r))).
  change ("# Clusters (2+ logos): " +:+ pretty_nat (length (report_clusters r)))
    with (String "#"%char (" Clusters (2+ logos): "
                      +:+ pretty_nat (length (report_clusters r)))).
  change ("# Singletons: " +:+ pretty_nat (length (report_singletons r)))
    with (String "#"%char (" Singletons: "
                      +:+ pretty_nat (length (report_singletons r)))).
  by rewrite !parse_comment, parse_blank.
Qed.

Lemma names_one_line names :
  Forall plain_name names → Forall (λ l, one_line l = true) (name_lines names).
Proof.
  intros Hn. unfold name_lines. apply Forall_fmap.
  eapply Forall_impl; [exact Hn|]. intros d Hd. simpl.
  by apply plain_one_line.
Qed.

Lemma heading_one_line r : Forall (λ l, one_line l = true) (heading_lines r).
Proof.
  unfold heading_lines.
  repeat constructor; rewrite ?one_line_app, ?pretty_nat_one_line; done.
Qed.

Lemma sections_one_line start gs :
  Forall plain_name (concat gs) →
  Forall (λ l, one_line l = true) (sections_lines start gs).
Proof.
  unfold sections_lines. revert start.
  induction gs as [|g gs IH]; intros start Hc; [constructor|].
  simpl in Hc. apply Forall_app in Hc as [Hg Hgs].
  cbn [enumerate flat_map]. apply Forall_app_2; [|by apply IH].
  unfold section_lines.
  constructor; [|apply Forall_app_2; [by apply names_one_line|by constructor]].
  unfold cluster_header. by rewrite !one_line_app, !pretty_nat_one_line.
Qed.

Lemma report_lines_one_line r :
  Forall plain_name (concat (report_clusters r) ++ report_singletons r) →
  Forall (λ l, one_line l = true) (report_lines r).
Proof.
  intros [Hc Hs]%Forall_app. unfold report_lines. repeat apply Forall_app_2.
  - apply heading_one_line.
  - by apply sections_one_line.
  - by constructor.
  - by apply names_one_line.
Qed.

Lemma clusters_plain gs :
  Forall (λ g, g ≠ []) gs → Forall plain_name (concat gs) →
  Forall (λ g, g ≠ [] ∧ Forall plain_name g) gs.
Proof.
  induction 1 as [|g gs Hg _ IH]; intros Hc; [constructor|].
  simpl in Hc. apply Forall_app in Hc as [Hcg Hcgs]. constructor; auto.
Qed.

(** Every report whose clusters are not empty and whose names are plain is
    read back as it was written. *)
Lemma parse_render r :
  Forall (λ g, g ≠ []) (report_clusters r) →
  Forall plain_name (concat (report_clusters r) ++ report_singletons r) →
  parse_cluster_report (render r) = (report_clusters r, report_singletons r).
Proof.
  intros Hne Hall. unfold parse_cluster_report.
  rewrite render_unlines, file_lines_unlines by (by apply report_lines_one_line).
  fold (with_nl (report_lines r)). unfold report_lines.
  rewrite !with_nl_app, !foldl_app, parse_heading.
  apply Forall_app in Hall as [Hc Hs].
  destruct (parse_sections (ParseState [] [] [] false) 1 (report_clusters r))
    as (H1 & H2 & H3 & _); [by apply clusters_plain|done|].
  set (st := foldl parse_line _ (with_nl (sections_lines 1 _))) in *.
  change (with_nl ["=== Singletons ==="]) with ["=== Singletons ===" +:+ nl].
  cbn [foldl]. rewrite parse_singletons_header.
  rewrite (parse_names _ _ Hs). simpl. by rewrite H1, H2.
Qed.

Lemma report_names {ImageHash : Type} (hash_sub : ImageHash → ImageHash → Z)
    (hashes : list (string * ImageHash)) (P : string → Prop) :
  Forall P hashes.*1 →
  ∃ r, cluster hash_sub hashes = Some r ∧
       Forall (λ g, g ≠ []) (report_clusters r) ∧
       Forall P (concat (report_clusters r) ++ report_singletons r).
Proof.
  intros Hall.
  destruct (ClusterFacts.cluster_spec hash_sub hashes)
    as (root & Hrun & Hclosed & _).
  eexists. split; [exact Hrun|]. split.
  - apply Forall_forall.
    intros g (k & v & _ & Hlen & ->)%ClusterFacts.elem_of_report_clusters Hnil.
    apply (f_equal length) in Hnil.
    rewrite (Permutation_length (py_sorted_perm String.le id v)) in Hnil.
    simpl in Hnil. lia.
  - pose proof (ClusterFacts.groups_perm root hashes.*1 (length hashes) Hclosed)
      as Hperm.
    unfold ClusterFacts.groups in Hperm.
    rewrite concat_app, ClusterFacts.concat_singletons in Hperm.
    by rewrite Hperm.
Qed.

(** X7. The report that [4-cluster-logos.py] writes is read back by
    [parse_cluster_report] of [5-visualize-clusters.py] as the clusters and
    the singletons that were written, in the same order, whenever every
    domain name is plain: made of ASCII characters only, not empty, without
    white space at either end, without a line break, not starting with [#]
    or [=== Cluster], and not the line [=== Singletons ===]. *)
Theorem report_read_back {ImageHash : Type}
    (hash_sub : ImageHash → ImageHash → Z)
    (hashes : list (string * ImageHash)) :
  Forall plain_name hashes.*1 →
  ∃ r, cluster hash_sub hashes = Some r ∧
       parse_cluster_report (render r)
       = (report_clusters r, report_singletons r).
Proof.
  intros Hall.
  destruct (report_names hash_sub hashes plain_name Hall)
    as (r & Hrun & Hne & Hnames).
  exists r. split; [done|]. by apply parse_render.
Qed.

Lemma sample_names_plain : Forall plain_name Cluster.sample_hashes.*1.
Proof. repeat constructor; vm_compute; congruence. Qed.

Lemma report_read_back_witness :
  ∃ r, cluster Cluster.phash_sub Cluster.sample_hashes = Some r ∧
       parse_cluster_report (render r)
       = (report_clusters r, report_singletons r).
Proof.
  apply (report_read_back Cluster.phash_sub Cluster.sample_hashes).
  apply sample_names_plain.
Defined.

(** X8. A report that is cut off before its [=== Singletons ===] line loses
    its last cluster: of the part of the report text that precedes that
    line, [parse_cluster_report] returns every cluster but the last and no
    singleton, since a cluster is only stored when the next heading is
    read. The clusters are not empty and their names are plain, so made of
    ASCII characters only. *)
Theorem truncated_report_loses_last_cluster (r : report) :
  Forall (λ g, g ≠ []) (report_clusters r) →
  Forall plain_name (concat (report_clusters r)) →
  let head :=
    unlines (heading_lines r ++ sections_lines 1 (report_clusters r)) in
  render r = head +:+ "=== Singletons ===" +:+ nl
             +:+ unlines (name_lines (report_singletons r)) ∧
  parse_cluster_report head = (removelast (report_clusters r), []).
Proof.
  intros Hne Hc head. split.
  { rewrite render_unlines. unfold report_lines, head.
    rewrite List.app_assoc, unlines_app. f_equal.
    cbn [app]. by rewrite unlines_cons. }
  unfold head.
  unfold parse_cluster_report.
  rewrite file_lines_unlines
    by (apply Forall_app_2; [apply heading_one_line|by apply sections_one_line]).
  fold (with_nl (heading_lines r ++ sections_lines 1 (report_clusters r))).
  rewrite with_nl_app, foldl_app, parse_heading.
  destruct (parse_sections (ParseState [] [] [] false) 1 (report_clusters r))
    as (H1 & H2 & H3 & H4); [by apply clusters_plain|done|].
  set (st := foldl parse_line _ (with_nl (sections_lines 1 _))) in *.
  rewrite H2. f_equal. simpl in H1, H4. clearbody st.
  revert H1 H4 Hne. clear. generalize (report_clusters r) as gs.
  intros gs H1 H4 Hne. unfold flushed in H1. rewrite H4 in H1.
  destruct gs as [|g gs _] using rev_ind; [done|].
  rewrite last_snoc in H1. simpl in H1.
  apply Forall_app in Hne as [_ [Hg _]%Forall_cons].
  destruct g; [done|].
  apply app_inj_tail in H1 as [-> _]. by rewrite removelast_last.
Qed.

Definition abcd_report : report :=
  Report 4 [["a.com"; "b.com"; "c.com"]] ["d.com"].

Lemma truncated_report_loses_last_cluster_witness :
  parse_cluster_report
    (unlines (heading_lines abcd_report
              ++ sections_lines 1 (report_clusters abcd_report)))
  = ([], []).
Proof.
  apply (truncated_report_loses_last_cluster abcd_report).
  - by repeat constructor.
  - repeat constructor; vm_compute; congruence.
Defined.

(** ** What the parser returns on any text *)

(** [read_name text n]: [n] is a line of [text] without the white space
    around it, and it is neither empty nor a comment nor a heading. *)
Definition read_name (text n : string) : Prop :=
  (∃ line, line ∈ file_lines (universal_newlines text) ∧ n = Str.strip line) ∧
  n ≠ "" ∧ Str.startswith "#" n = false ∧
  Str.startswith "=== Cluster" n = false ∧ n ≠ "=== Singletons ===".

Lemma parse_line_names (P : string → Prop) st line :
  (Str.strip line ≠ "" → Str.startswith "#" (Str.strip line) = false →
   Str.startswith "=== Cluster" (Str.strip line) = false →
   Str.strip line ≠ "=== Singletons ===" → P (Str.strip line)) →
  Forall (λ g, g ≠ []) (Visualize.clusters st) →
  Forall P (concat (Visualize.clusters st) ++ Visualize.current_cluster st
            ++ Visualize.singletons st) →
  let st' := parse_line st line in
  Forall (λ g, g ≠ []) (Visualize.clusters st') ∧
  Forall P (concat (Visualize.clusters st') ++ Visualize.current_cluster st'
            ++ Visualize.singletons st').
Proof.
  intros HP Hne Hall.
  assert (Forall (λ g, g ≠ []) (flushed st) ∧
          Forall P (concat (flushed st) ++ [] ++ Visualize.singletons st))
    as Hflush.
  { unfold flushed. destruct (Visualize.current_cluster st) as [|x cur] eqn:Hcur;
      [done|]. split.
    - apply Forall_app_2; [done|]. by repeat constructor.
    - rewrite concat_app. simpl. rewrite List.app_nil_r.
      by rewrite <-(assoc_L (++)). }
  unfold parse_line. cbv zeta.
  destruct (Str.startswith "=== Cluster" (Str.strip line)) eqn:Hh; [done|].
  case_decide as Hs; [done|].
  destruct (bool_decide (Str.strip line = "")) eqn:He; [done|].
  destruct (Str.startswith "#" (Str.strip line)) eqn:Hc; [done|].
  apply bool_decide_eq_false in He. specialize (HP He eq_refl eq_refl Hs).
  simpl. destruct (Visualize.in_singletons st); simpl; (split; [done|]).
  - rewrite !(assoc_L (++)). apply Forall_app_2; [|by constructor].
    by rewrite <-!(assoc_L (++)).
  - rewrite !Forall_app in Hall |- *. destruct Hall as (? & ? & ?).
    split_and!; [done| |done]. apply Forall_app_2; [done|by constructor].
Qed.

(** X9. On every text of ASCII characters, [parse_cluster_report] returns
    no empty cluster, and every name it returns is a line of the text
    without the white space around it that is not empty, does not start with
    [#] or [=== Cluster] and is not [=== Singletons ===]. (The text is taken
    to be ASCII because [line.strip()] is [Str.strip] on such lines only.) *)
Theorem parsed_names (text : string) :
  isascii text = true →
  Forall (λ g, g ≠ []) (parse_cluster_report text).1 ∧
  Forall (read_name text)
    (concat (parse_cluster_report text).1 ++ (parse_cluster_report text).2).
Proof.
  intros _. unfold parse_cluster_report. simpl.
  set (L := file_lines (universal_newlines text)).
  assert (∀ ls st,
    (∀ line, line ∈ ls → line ∈ L) →
    Forall (λ g, g ≠ []) (Visualize.clusters st) →
    Forall (read_name text)
      (concat (Visualize.clusters st) ++ Visualize.current_cluster st
       ++ Visualize.singletons st) →
    let st' := foldl parse_line st ls in
    Forall (λ g, g ≠ []) (Visualize.clusters st') ∧
    Forall (read_name text)
      (concat (Visualize.clusters st') ++ Visualize.current_cluster st'
       ++ Visualize.singletons st')) as Hloop.
  { induction ls as [|line ls IH]; intros st Hls Hne Hall; [done|].
    simpl. destruct (parse_line_names (read_name text) st line) as [H1 H2];
      [|done|done|].
    - intros. split_and!; [|done..]. exists line. split; [|done].
      apply Hls. left.
    - apply IH; [|done..]. intros l Hl. apply Hls. by right. }
  destruct (Hloop L (ParseState [] [] [] false)) as [H1 H2];
    [done|constructor|constructor|].
  split; [done|]. simpl in H2.
  apply Forall_app in H2 as [Hc [_ Hs]%Forall_app]. by apply Forall_app_2.
Qed.

(** A report with a comment, a cluster of two names, the second with white
    space around it and ended by a carriage return and a line feed, and one
    singleton. *)
Definition loose_report : string :=
  unlines ["# comment"; "=== Cluster 1 (2 logos) ==="; "  a.com";
           String (ascii_of_nat 9) "b.com  " +:+ String cr "";
           ""; "=== Singletons ==="; "c.com"].

Lemma parsed_names_witness :
  Forall (λ g, g ≠ []) (parse_cluster_report loose_report).1 ∧
  Forall (read_name loose_report)
    (concat (parse_cluster_report loose_report).1
     ++ (parse_cluster_report loose_report).2).
Proof. apply (parsed_names loose_report). reflexivity. Defined.

Example loose_report_parsed :
  parse_cluster_report loose_report = ([["a.com"; "b.com"]], ["c.com"]).
Proof. vm_compute. reflexivity. Qed.

End VisualizeFacts.

(** ** The candidate scorer *)

Module ScorerMore.
Import Scorer PyFacts ScorerFacts StrFacts Samples.
Import ManifestFacts(first_seen).

(** ** The filter of the icon links *)

(** X13. The filter that selects the [<link>] tags accepts a [rel] value
    exactly when its lower-case form contains [icon]: the second test, for
    [apple-touch-icon], never decides. *)
Theorem rel_is_icon_contains_icon (x : string) :
  rel_is_icon x = Str.contains "icon" (Str.lower x).
Proof.
  unfold rel_is_icon.
  destruct (Str.contains "icon" (Str.lower x)) eqn:Hicon; [done|].
  destruct (Str.contains "apple-touch-icon" (Str.lower x)) eqn:Happle; [|done].
  rewrite (contains_trans "icon" "apple-touch-icon" (Str.lower x)) in Hicon;
    done.
Qed.

(** ** The rules of the image pass *)

Local Arguments Str.search_any : simpl never.
Local Arguments Str.contains : simpl never.
Local Arguments Str.lower : simpl never.
Local Arguments Str.join : simpl never.

(** The six rules as they fire on one image. *)
Record fired := Fired {
  f_home : bool;
  f_header : bool;
  f_footer : bool;
  f_keyword : bool;
  f_domain : bool;
  f_alt : bool;
  f_negative : bool;
}.

Definition fired_score (f : fired) : Z :=
  (if f_home f then 50 else 0) + (if f_header f then 10 else 0)
  + (if f_footer f then -30 else 0) + (if f_keyword f then 20 else 0)
  + (if f_domain f then 20 else 0) + (if f_alt f then 10 else 0)
  + (if f_negative f then -50 else 0).

Definition fired_reasons (stem : string) (f : fired) : list string :=
  (if f_home f then ["Linked to Home"] else [])
  ++ (if f_header f then ["In Header"] else [])
  ++ (if f_footer f then ["In Footer"] else [])
  ++ (if f_keyword f then ["Keyword Match (logo/brand)"] else [])
  ++ (if f_domain f then ["Filename matches domain '" +:+ stem +:+ "'"] else [])
  ++ (if f_alt f then ["Alt text contains 'logo'"] else [])
  ++ (if f_negative f then ["Negative Keyword (partner/client)"] else []).

Definition img_attrs (img : element) (src : string) : string :=
  joined_attr (el_attrs img) "class" +:+ " " +:+ joined_attr (el_attrs img) "id"
  +:+ " " +:+ joined_attr (el_attrs img) "alt" +:+ " " +:+ src.

(** The score of an image is the sum of the weights of the rules that fire
    on it, and its reasons are their labels in the order of the rules. *)
Lemma score_image_fired urljoin urlparse base_url stem img src s rs :
  score_image urljoin urlparse base_url stem img src = Some (s, rs) →
  ∃ f, s = fired_score f ∧ rs = fired_reasons stem f ∧
       (f_header f && f_footer f = false) ∧
       f_keyword f = Str.search_any positive_keywords (img_attrs img src) ∧
       f_alt f = Str.contains "logo"
                   (Str.lower (joined_attr (el_attrs img) "alt")) ∧
       f_domain f = negb (bool_decide (stem = ""))
                    && Str.contains stem (Str.lower src).
Proof.
  unfold score_image. fold (img_attrs img src).
  destruct (match filter _ _ with [] => _ | _ => _ end) as [home|]; [|done].
  simpl.
  destruct (bool_decide ("header" ∈ _) || _) eqn:Hheader;
    [|destruct (bool_decide ("footer" ∈ _) || _) eqn:Hfooter];
    destruct (Str.search_any positive_keywords _) eqn:Hkey;
    destruct (negb _ && _) eqn:Hdom;
    destruct (Str.contains "logo" _) eqn:Halt;
    destruct (Str.search_any negative_keywords _ || _) eqn:Hneg;
    destruct home eqn:Hhome; intros [= <- <-];
    match type of Hkey with _ = ?kw =>
    match type of Hdom with _ = ?dm =>
    match type of Halt with _ = ?al =>
    match type of Hneg with _ = ?ng =>
    match type of Hheader with
    | _ = true =>
        match type of Hhome with _ = ?hm =>
          exists (Fired hm true false kw dm al ng) end
    | _ = false =>
        match goal with
        | H : bool_decide ("footer" ∈ _) || _ = ?ft |- _ =>
            match type of Hhome with _ = ?hm =>
              exists (Fired hm false ft kw dm al ng) end
        end
    end end end end end;
    split_and!; done.
Qed.

Lemma score_image_range urljoin urlparse base_url stem img src s rs :
  score_image urljoin urlparse base_url stem img src = Some (s, rs) →
  -80 ≤ s ≤ 110.
Proof.
  intros (f & -> & _ & Hhf & _)%score_image_fired. unfold fired_score.
  destruct (f_home f), (f_header f), (f_footer f), (f_keyword f),
    (f_domain f), (f_alt f), (f_negative f); simpl in *; try done; lia.
Qed.

(** ** The candidates of a page *)

Lemma candidate_hits urljoin urlparse json_loads soup base_url candidates u c :
  analyze_html urljoin urlparse json_loads soup base_url = Some candidates →
  dict_get candidates u = Some c →
  ∃ calls h hs,
    detections urljoin urlparse json_loads (ld_json_scripts soup) soup base_url
      = Some calls ∧
    hits urljoin base_url u calls = h :: hs ∧
    c = foldl merge fresh (h :: hs).
Proof.
  intros (calls & Hcalls & ->)%analyze_html_replay.
  rewrite apply_calls_lookup.
  destruct (hits urljoin base_url u calls) as [|h hs] eqn:Hhits; [done|].
  intros [= <-]. by exists calls, h, hs.
Qed.

Lemma logo_calls_elem logos d :
  d ∈ logo_calls logos →
  d.1.2 = 60 ∧ d.2 = "Schema.org Organization" ∧ JStr d.1.1 ∈ logos.
Proof.
  induction logos as [|v logos IH]; [by intros ?%elem_of_nil|].
  destruct v; cbn [logo_calls];
    try (destruct (truthy _); [by intros ?%elem_of_nil|];
         intros (? & ? & ?)%IH; split_and!; [done..|by right]).
  intros [->|(? & ? & ?)%IH]%elem_of_cons; split_and!; try done; [left|by right].
Qed.

Lemma detections_scores urljoin urlparse json_loads scripts soup base_url
    calls d :
  detections urljoin urlparse json_loads scripts soup base_url = Some calls →
  d ∈ calls → -80 ≤ d.1.2 ≤ 110.
Proof.
  unfold detections. destruct (mapM _ _) as [imgs|] eqn:Himgs; [|done].
  simpl. intros [= <-]. rewrite !elem_of_app.
  intros [Hd|[Hd|[Hd|Hd]]].
  - apply list_elem_of_In, in_flat_map in Hd as (script & _ & Hd).
    apply list_elem_of_In in Hd. unfold script_calls in Hd.
    destruct (tag_string _); [|by apply elem_of_nil in Hd].
    case_decide; [by apply elem_of_nil in Hd|].
    destruct (json_loads _); [|by apply elem_of_nil in Hd].
    apply logo_calls_elem in Hd as [-> _]. lia.
  - apply list_elem_of_In, in_flat_map in Hd as (link & _ & Hd).
    apply list_elem_of_In in Hd. unfold link_calls in Hd.
    destruct (get_str_attr _ _); [|by apply elem_of_nil in Hd].
    case_decide; [by apply elem_of_nil in Hd|].
    apply list_elem_of_singleton in Hd as ->. simpl. lia.
  - unfold og_image_calls in Hd.
    destruct (find_all_attr _ _ _ _); [by apply elem_of_nil in Hd|].
    destruct (get_str_attr _ _); [|by apply elem_of_nil in Hd].
    case_decide; [by apply elem_of_nil in Hd|].
    apply list_elem_of_singleton in Hd as ->. simpl. lia.
  - apply elem_of_concat in Hd as (l & Hd & Hl).
    apply mapM_Some in Himgs.
    apply list_elem_of_lookup in Hl as [i Hi].
    destruct (Forall2_lookup_r _ _ _ _ _ Himgs Hi) as (img & _ & Himg).
    unfold image_calls in Himg.
    destruct (get _ _) as [[src|]|];
      try (injection Himg as <-; by apply elem_of_nil in Hd).
    case_decide; [injection Himg as <-; by apply elem_of_nil in Hd|].
    destruct (score_image _ _ _ _ _ _) as [[s rs]|] eqn:Hscore; [|done].
    simpl in Himg. injection Himg as <-.
    apply list_elem_of_singleton in Hd as ->. simpl.
    by eapply score_image_range.
Qed.

(** X11. Every score in the output of the scorer lies between 0 and 110:
    110 is what an image earns on which every bonus fires (50 + 10 + 20 + 20
    + 10), no other detection carries more than 60, and a record starts at
    0 and is only raised. *)
Theorem score_between_0_and_110 urljoin urlparse json_loads soup base_url
    candidates u c :
  analyze_html urljoin urlparse json_loads soup base_url = Some candidates →
  dict_get candidates u = Some c → 0 ≤ score c ≤ 110.
Proof.
  intros Hrun Hc.
  destruct (candidate_hits _ _ _ _ _ _ _ _ Hrun Hc)
    as (calls & h & hs & Hcalls & Hhits & ->).
  destruct (merge_all_score fresh (h :: hs)) as (Hge & _ & [Heq|(d & Hd & Heq)]);
    rewrite Heq in Hge |- *; simpl in Hge.
  - simpl. lia.
  - split; [done|]. rewrite <-Hhits in Hd.
    apply list_elem_of_filter in Hd as [_ Hd].
    by apply (detections_scores _ _ _ _ _ _ _ _ Hcalls Hd).
Qed.

Lemma score_between_0_and_110_witness :
  0 ≤ score (Candidate 10 ["Favicon/Touch Icon"; "OpenGraph Image"]) ≤ 110.
Proof.
  apply (score_between_0_and_110 Urllib.urljoin Urllib.urlparse reject_all
           icon_and_og_page "https://acme.com"
           [("https://acme.com/x.png",
             Candidate 10 ["Favicon/Touch Icon"; "OpenGraph Image"])]
           "https://acme.com/x.png").
  - vm_compute. reflexivity.
  - reflexivity.
Defined.

Lemma apply_calls_nodup urljoin base_url calls init :
  NoDup init.*1 → NoDup (apply_calls urljoin base_url init calls).*1.
Proof.
  unfold apply_calls. revert init.
  induction calls as [|d calls IH]; intros init Hinit; [done|].
  simpl. apply IH. unfold apply_call, update_candidate.
  destruct (normalize_url _ _ _); [|done].
  rewrite dict_set_keys. case_decide; [done|].
  apply NoDup_app. split_and!; [done| |apply NoDup_singleton].
  by intros x Hx ->%list_elem_of_singleton.
Qed.

Lemma merge_all_nodup c hs : NoDup (reasons c) → NoDup (reasons (foldl merge c hs)).
Proof.
  revert c. induction hs as [|d hs IH]; intros c Hc; [done|].
  simpl. apply IH. simpl. by apply set_add_nodup.
Qed.

Lemma analyze_html_nodup urljoin urlparse json_loads soup base_url candidates :
  analyze_html urljoin urlparse json_loads soup base_url = Some candidates →
  NoDup candidates.*1.
Proof.
  intros (calls & _ & ->)%analyze_html_replay.
  apply apply_calls_nodup. constructor.
Qed.

(** X10. The candidates of the scorer are the detected references that
    normalise: a URL is a candidate exactly when some call of
    [update_candidate] that the page gives rise to carries a reference that
    [normalize_url] takes to it. So every candidate is an http or https URL
    (its lower-case form starts with [http://] or [https://]) that [urljoin]
    returned for the base URL and such a reference, not empty, without the
    white space around it. No URL is listed twice, and every candidate
    carries at least one label, none of them twice. *)
Theorem candidates_are_http urljoin urlparse json_loads soup base_url
    candidates :
  analyze_html urljoin urlparse json_loads soup base_url = Some candidates →
  ∃ calls,
    detections urljoin urlparse json_loads (ld_json_scripts soup) soup base_url
      = Some calls ∧
    NoDup candidates.*1 ∧
    (∀ u, u ∈ candidates.*1 ↔
          ∃ d, d ∈ calls ∧ normalize_url urljoin base_url d.1.1 = Some u) ∧
    ∀ u c, dict_get candidates u = Some c →
      (Str.startswith "http://" (Str.lower u)
       || Str.startswith "https://" (Str.lower u)) = true ∧
      (∃ d, d ∈ calls ∧ d.1.1 ≠ "" ∧
            urljoin base_url (Str.strip d.1.1) = Some u) ∧
      reasons c ≠ [] ∧ NoDup (reasons c).
Proof.
  intros Hrun.
  destruct (analyze_html_replay _ _ _ _ _ _ Hrun) as (calls & Hcalls & Heq).
  exists calls. split_and!; [done|by eapply analyze_html_nodup| |].
  { intros u. rewrite Heq, apply_calls_keys. split.
    - intros [Hu|Hhits]; [by apply elem_of_nil in Hu|].
      destruct (hits urljoin base_url u calls) as [|d hs] eqn:Hd; [done|].
      assert (d ∈ hits urljoin base_url u calls) as Hin by (rewrite Hd; left).
      apply list_elem_of_filter in Hin as [? ?]. by exists d.
    - intros (d & Hd & Hnorm). right. intros Hnil.
      assert (d ∈ hits urljoin base_url u calls) as Hin
        by by apply list_elem_of_filter.
      rewrite Hnil in Hin. by apply elem_of_nil in Hin. }
  intros u c Hc.
  destruct (candidate_hits _ _ _ _ _ _ _ _ Hrun Hc)
    as (calls' & h & hs & Hcalls' & Hhits & ->).
  assert (calls' = calls) as -> by congruence.
  assert (h ∈ hits urljoin base_url u calls) as Hh by (rewrite Hhits; left).
  apply list_elem_of_filter in Hh as [Hnorm Hin]. unfold normalize_url in Hnorm.
  case_decide as Hne; [done|].
  destruct (urljoin base_url (Str.strip h.1.1)) as [full_url|] eqn:Hjoin;
    [|done].
  destruct (Str.startswith "http://" _ || _) eqn:Hhttp; [|done].
  injection Hnorm as ->. split_and!; [done|by exists h| |].
  - intros Hnil.
    assert (h.2 ∈ reasons (foldl merge fresh (h :: hs))) as Hin'.
    { apply merge_all_reasons. right. exists h. split; [left|done]. }
    rewrite Hnil in Hin'. by apply elem_of_nil in Hin'.
  - apply merge_all_nodup. constructor.
Qed.

Lemma candidates_are_http_witness :
  ∃ calls,
    detections Urllib.urljoin Urllib.urlparse reject_all
      (ld_json_scripts icon_and_og_page) icon_and_og_page "https://acme.com"
      = Some calls ∧
    NoDup [("https://acme.com/x.png",
            Candidate 10 ["Favicon/Touch Icon"; "OpenGraph Image"])].*1 ∧
    (∀ u, u ∈ [("https://acme.com/x.png",
                Candidate 10 ["Favicon/Touch Icon"; "OpenGraph Image"])].*1 ↔
          ∃ d, d ∈ calls ∧
               normalize_url Urllib.urljoin "https://acme.com" d.1.1 = Some u) ∧
    ∀ u c, dict_get [("https://acme.com/x.png",
                      Candidate 10 ["Favicon/Touch Icon"; "OpenGraph Image"])] u
           = Some c →
      (Str.startswith "http://" (Str.lower u)
       || Str.startswith "https://" (Str.lower u)) = true ∧
      (∃ d, d ∈ calls ∧ d.1.1 ≠ "" ∧
            Urllib.urljoin "https://acme.com" (Str.strip d.1.1) = Some u) ∧
      reasons c ≠ [] ∧ NoDup (reasons c).
Proof.
  apply (candidates_are_http Urllib.urljoin Urllib.urlparse reject_all
           icon_and_og_page "https://acme.com").
  vm_compute. reflexivity.
Defined.

(** ** One upsert *)

(** X16. [update_candidate] only adds. The URLs known before keep their
    places, each keeps its labels and a score that is not lower; when the
    reference does not normalise, nothing changes; when it normalises to
    [u], [u] is known afterwards, with the reason among its labels and a
    score that is at least the given one, and a record that is new holds
    that one label and the given score raised to 0. *)
Theorem update_candidate_only_adds urljoin base_url candidates url s reason :
  let candidates' :=
    update_candidate urljoin base_url candidates url s reason in
  candidates.*1 `prefix_of` candidates'.*1 ∧
  (∀ u c, dict_get candidates u = Some c →
     ∃ c', dict_get candidates' u = Some c' ∧
           score c ≤ score c' ∧ reasons c ⊆ reasons c') ∧
  (normalize_url urljoin base_url url = None → candidates' = candidates) ∧
  (∀ u, normalize_url urljoin base_url url = Some u →
     ∃ c', dict_get candidates' u = Some c' ∧
           s ≤ score c' ∧ reason ∈ reasons c' ∧
           (dict_get candidates u = None →
            c' = Candidate (Z.max 0 s) [reason])).
Proof.
  intros candidates'.
  assert (∀ c : candidate,
            score c ≤ score (merge c (url, s, reason))
            ∧ s ≤ score (merge c (url, s, reason))
            ∧ reasons c ⊆ reasons (merge c (url, s, reason))
            ∧ reason ∈ reasons (merge c (url, s, reason))) as Hmerge.
  { intros c. unfold merge. simpl. split_and!; [case_decide; lia..| |].
    - intros r Hr. apply set_add_elem. by left.
    - apply set_add_elem. by right. }
  assert (∀ u, dict_get candidates' u
               = if decide (normalize_url urljoin base_url url = Some u)
                 then Some (merge (default fresh (dict_get candidates u))
                              (url, s, reason))
                 else dict_get candidates u) as Hlookup.
  { intros u. apply (apply_call_lookup urljoin base_url candidates
                       (url, s, reason)). }
  split_and!.
  - unfold candidates', update_candidate.
    destruct (normalize_url _ _ _) as [u|]; [|done].
    rewrite dict_set_keys. case_decide; [done|]. by apply prefix_app_r.
  - intros u c Hc. rewrite Hlookup. case_decide.
    + eexists. split; [done|]. rewrite Hc. simpl.
      destruct (Hmerge c) as (? & _ & ? & _). done.
    + by exists c.
  - intros Hnone. unfold candidates', update_candidate. by rewrite Hnone.
  - intros u Hu. rewrite Hlookup, decide_True by done.
    eexists. split; [done|].
    destruct (Hmerge (default fresh (dict_get candidates u)))
      as (_ & ? & _ & ?).
    split_and!; [done..|]. intros ->. unfold merge, fresh. simpl.
    f_equal. case_decide; lia.
Qed.

(** ** The ranked output *)

(** X17. The output of [main] lists every candidate exactly once: its URLs
    are the candidate URLs in some order, none twice, and each entry carries
    the score of its candidate and the labels of its candidate as the set
    enumerates them. *)
Theorem output_lists_every_candidate urljoin urlparse json_loads
    (set_order : list string → list string) url soup out :
  main urljoin urlparse json_loads set_order url soup = Some out →
  ∃ base_url candidates,
    analyze_html urljoin urlparse json_loads soup base_url = Some candidates ∧
    result_url <$> out ≡ₚ candidates.*1 ∧
    NoDup (result_url <$> out) ∧
    ∀ r, r ∈ out →
      ∃ c, dict_get candidates (result_url r) = Some c ∧
           result_score r = score c ∧ signals r = set_order (reasons c).
Proof.
  unfold main. destruct (urlparse (Str.strip url)) as [p|]; simpl; [|done].
  set (base_url := if decide (scheme p = "") then _ else _).
  destruct (analyze_html urljoin urlparse json_loads soup base_url)
    as [candidates|] eqn:Hrun; simpl; [|done].
  intros [= <-]. exists base_url, candidates. split; [done|].
  assert (NoDup candidates.*1) as Hnd.
  { by eapply analyze_html_nodup. }
  set (ranked := py_sorted (flip Z.le) (λ x, score x.2) candidates).
  assert (ranked ≡ₚ candidates) as Hperm by apply py_sorted_perm.
  assert (∀ (k : nat) (l : list (string * candidate)),
            result_url <$> ((λ '(i, (url, data)),
               Result (i + 1) (score data) url (set_order (reasons data)))
              <$> enumerate k l) = l.*1) as Hurls.
  { intros k l. revert k. induction l as [|[u c] l IH]; intros k; [done|].
    simpl. by rewrite IH. }
  rewrite Hurls, Hperm. split_and!; [done..|].
  intros r ([i [u c]] & -> & [_ Hi]%elem_of_enumerate)%list_elem_of_fmap.
  simpl. exists c. split_and!; [|done..].
  apply ClusterFacts.dict_get_Some_elem; [done|]. rewrite <-Hperm.
  by eapply list_elem_of_lookup_2.
Qed.

Lemma output_lists_every_candidate_witness :
  ∃ base_url candidates,
    analyze_html Urllib.urljoin Urllib.urlparse reject_all icon_and_og_page
      base_url = Some candidates ∧
    result_url <$> [Result 1 10 "https://acme.com/x.png"
                      ["Favicon/Touch Icon"; "OpenGraph Image"]]
    ≡ₚ candidates.*1.
Proof.
  destruct (output_lists_every_candidate Urllib.urljoin Urllib.urlparse
              reject_all id "acme.com" icon_and_og_page
              [Result 1 10 "https://acme.com/x.png"
                 ["Favicon/Touch Icon"; "OpenGraph Image"]])
    as (base_url & candidates & Hrun & Hperm & _).
  - vm_compute. reflexivity.
  - by exists base_url, candidates.
Defined.

(** ** Structured data *)

(** Induction on decoded JSON values, through arrays and objects. *)
Lemma json_nested_ind (P : json → Prop) :
  P JNull → (∀ b, P (JBool b)) → (∀ n, P (JNum n)) → (∀ s, P (JStr s)) →
  (∀ items, Forall P items → P (JArr items)) →
  (∀ fields, Forall (λ kv, P kv.2) fields → P (JObj fields)) →
  ∀ v, P v.
Proof.
  intros Hnull Hbool Hnum Hstr Harr Hobj.
  fix IH 1. intros [|b|n|s|items|fields].
  - apply Hnull.
  - apply Hbool.
  - apply Hnum.
  - apply Hstr.
  - apply Harr. induction items as [|v items IHitems]; constructor.
    + apply IH.
    + apply IHitems.
  - apply Hobj. induction fields as [|[k v] fields IHfields]; constructor.
    + apply IH.
    + apply IHfields.
Qed.

(** [inside v w]: the value [v] occurs in [w], at any depth of arrays and
    objects ([w] itself included). *)
Inductive inside (v : json) : json → Prop :=
  | inside_here : inside v v
  | inside_item items w : w ∈ items → inside v w → inside v (JArr items)
  | inside_field fields k w :
      (k, w) ∈ fields → inside v w → inside v (JObj fields).

Lemma find_logo_obj fields :
  find_logo (JObj fields)
  = logo_of fields ++ flat_map (λ kv, find_logo kv.2) fields.
Proof.
  cbn [find_logo]. f_equal.
  induction fields as [|[k v] fields IH]; [done|]. cbn. by rewrite IH.
Qed.

Lemma find_logo_arr items :
  find_logo (JArr items) = flat_map find_logo items.
Proof.
  cbn [find_logo]. induction items as [|v items IH]; [done|].
  cbn. by rewrite IH.
Qed.

(** X14. [find_logo] returns exactly the logo values of the objects that
    occur in the decoded data at any depth, inside arrays and inside the
    fields of other objects: the objects whose [@type] is the string
    [Organization], [Brand] or [Corporation] and whose [logo] is a string (it
    is the value) or an object with a [url] (its [url] is the value). *)
Theorem find_logo_finds_nested (data u : json) :
  u ∈ find_logo data ↔
  ∃ fields, inside (JObj fields) data ∧ u ∈ logo_of fields.
Proof.
  induction data as [| | | |items IH|fields IH] using json_nested_ind.
  1-4: (split; [by intros ?%elem_of_nil|];
        intros (fields & Hin & _); inversion Hin).
  - rewrite find_logo_arr. split.
    + intros (w & Hw & Hu)%list_elem_of_In%in_flat_map.
      apply list_elem_of_In in Hw, Hu.
      eapply Forall_forall in IH; [|exact Hw].
      apply IH in Hu as (fields & Hin & Hlogo).
      exists fields. split; [by eapply inside_item|done].
    + intros (fields & Hin & Hlogo). inversion Hin as [|? w Hw Hin'|]; subst.
      apply list_elem_of_In, in_flat_map. exists w.
      split; [by apply list_elem_of_In|]. apply list_elem_of_In.
      eapply Forall_forall in IH; [|exact Hw]. apply IH. by exists fields.
  - rewrite find_logo_obj, elem_of_app. split.
    + intros [Hu|(kv & Hkv & Hu)%list_elem_of_In%in_flat_map].
      * exists fields. split; [constructor|done].
      * apply list_elem_of_In in Hkv, Hu.
        eapply Forall_forall in IH; [|exact Hkv].
        apply IH in Hu as (fields' & Hin & Hlogo).
        exists fields'. split; [|done]. destruct kv as [k w].
        by eapply inside_field.
    + intros (fields' & Hin & Hlogo).
      inversion Hin as [| |? k w Hw Hin']; subst; [by left|]. right.
      apply list_elem_of_In, in_flat_map. exists (k, w).
      split; [by apply list_elem_of_In|]. apply list_elem_of_In.
      eapply Forall_forall in IH; [|exact Hw]. apply IH. by exists fields'.
Qed.

(** ** A logo value that is not a string *)

(** X15. In one JSON-LD block the logo values are upserted in order; a
    value that is not a string and counts as false (null, [false], 0, an
    empty array or object) is passed over, and the first value that is not a
    string and counts as true ends the block: the values after it are not
    upserted, those before it stay. *)
Theorem bad_logo_ends_block urljoin base_url candidates
    (before after : list json) (v : json) :
  Forall (λ x, (∃ s, x = JStr s) ∨ truthy x = false) before →
  (∀ s, v ≠ JStr s) → truthy v = true →
  update_logos urljoin base_url candidates (before ++ v :: after)
  = update_logos urljoin base_url candidates before ∧
  update_logos urljoin base_url candidates before
  = foldl (λ cs x, match x with
                   | JStr s => update_candidate urljoin base_url cs s 60
                                 "Schema.org Organization"
                   | _ => cs
                   end) candidates before.
Proof.
  intros Hbefore Hv Htrue. revert candidates.
  induction Hbefore as [|x before Hx _ IH]; intros candidates.
  - split; [|done]. cbn [app update_logos]. unfold update_logo.
    destruct v; try done; by rewrite ?Htrue; try (by destruct (Hv s)).
  - rewrite <-app_comm_cons. cbn [update_logos foldl].
    destruct Hx as [[s ->]|Hfalse]; [apply IH|].
    destruct x; unfold update_logo; rewrite ?Hfalse; apply IH.
Qed.

Lemma bad_logo_ends_block_witness :
  update_logos Urllib.urljoin "https://acme.com" []
    ([JStr "/a.png"; JNull] ++ JArr [JStr "/b.png"] :: [JStr "/c.png"])
  = update_logos Urllib.urljoin "https://acme.com" [] [JStr "/a.png"; JNull].
Proof.
  apply (bad_logo_ends_block Urllib.urljoin "https://acme.com" []
           [JStr "/a.png"; JNull] [JStr "/c.png"] (JArr [JStr "/b.png"])).
  - constructor; [left; by eexists|]. constructor; [by right|constructor].
  - done.
  - done.
Defined.

(** ** References made of white space *)

(** X20. A reference that is not empty but holds white space only resolves
    to the page itself: [normalize_url] strips it to the empty string, for
    which [urljoin] returns the base URL, so the base URL of an http(s) page
    becomes the candidate. *)
Theorem blank_reference_is_base_url (base url : string) :
  url ≠ "" → Str.strip url = "" →
  (Str.startswith "http://" (Str.lower base)
   || Str.startswith "https://" (Str.lower base)) = true →
  normalize_url Urllib.urljoin base url = Some base.
Proof.
  intros Hne Hstrip Hhttp. unfold normalize_url.
  rewrite decide_False, Hstrip by done.
  assert (Urllib.urljoin base "" = Some base) as ->.
  { unfold Urllib.urljoin. destruct (bool_decide (base = "")) eqn:Hbase; [|done].
    apply bool_decide_eq_true in Hbase. by subst base. }
  by rewrite Hhttp.
Qed.

Lemma blank_reference_is_base_url_witness :
  normalize_url Urllib.urljoin "https://acme.com" "  " = Some "https://acme.com".
Proof.
  apply (blank_reference_is_base_url "https://acme.com" "  "); done.
Defined.

(** [<img src=" ">] *)
Example blank_src_page :
  analyze [Tag "img" [("src", AttrStr " ")] []] "https://acme.com"
  = Some [("https://acme.com", Candidate 0 [""])].
Proof. vm_compute. reflexivity. Qed.

(** ** The order of the candidates *)

(** The URLs that the calls of a pass resolve to, in the order of the
    calls. *)
Definition resolved (urljoin : string → string → option string)
    (base_url : string) (calls : list call) : list string :=
  omap (λ d : call, normalize_url urljoin base_url d.1.1) calls.

Lemma apply_calls_order urljoin base_url calls init :
  (apply_calls urljoin base_url init calls).*1
  = foldl (λ acc x, if decide (x ∈ acc) then acc else acc ++ [x]) init.*1
      (resolved urljoin base_url calls).
Proof.
  unfold apply_calls, resolved. revert init.
  induction calls as [|d calls IH]; intros init; [done|].
  simpl. rewrite IH. unfold apply_call, update_candidate.
  destruct (normalize_url urljoin base_url d.1.1) as [u|]; [|done].
  simpl. by rewrite dict_set_keys.
Qed.

(** X21. The candidates stand in the order in which their URLs are first
    detected, where the detections are those of the JSON-LD blocks, then
    those of the icon links, then the [og:image], then the images, each in
    document order. (Equal scores are ranked in this order.) *)
Theorem candidates_in_detection_order urljoin urlparse json_loads soup
    base_url candidates :
  analyze_html urljoin urlparse json_loads soup base_url = Some candidates →
  ∃ imgs,
    mapM (image_calls urljoin urlparse base_url
            (extract_domain_stem urlparse base_url)) (find_all soup "img")
      = Some imgs ∧
    candidates.*1
    = first_seen
        (resolved urljoin base_url
           (flat_map (script_calls json_loads) (ld_json_scripts soup)
            ++ flat_map link_calls (find_all_attr soup "link" "rel" rel_is_icon)
            ++ og_image_calls soup
            ++ concat imgs)).
Proof.
  intros (calls & Hcalls & ->)%analyze_html_replay.
  unfold detections in Hcalls.
  destruct (mapM _ _) as [imgs|]; [|done]. simpl in Hcalls.
  injection Hcalls as <-. exists imgs. split; [done|].
  apply apply_calls_order.
Qed.

Lemma candidates_in_detection_order_witness :
  ∃ imgs,
    mapM (image_calls Urllib.urljoin Urllib.urlparse "https://acme.com"
            (extract_domain_stem Urllib.urlparse "https://acme.com"))
         (find_all icon_and_og_page "img") = Some imgs ∧
    [("https://acme.com/x.png",
      Candidate 10 ["Favicon/Touch Icon"; "OpenGraph Image"])].*1
    = first_seen
        (resolved Urllib.urljoin "https://acme.com"
           (flat_map (script_calls reject_all) (ld_json_scripts icon_and_og_page)
            ++ flat_map link_calls
                 (find_all_attr icon_and_og_page "link" "rel" rel_is_icon)
            ++ og_image_calls icon_and_og_page
            ++ concat imgs)).
Proof.
  apply (candidates_in_detection_order Urllib.urljoin Urllib.urlparse
           reject_all icon_and_og_page "https://acme.com").
  vm_compute. reflexivity.
Defined.

End ScorerMore.
